(** * Drafter live migration: the dirty-sync controller and its neighbours

  A shallow embedding of the migration code of the peer
  ([MigrateTo] and [MigrateFrom] of package roles, [createSiloDevSchema]
  and the [DirtyManager] of package peer), with the properties of the
  design document stated over it. *)

From Stdlib Require Import ZArith Lia Ascii String DecimalString.
From stdpp Require Import base tactics option list numbers strings gmap.

Local Open Scope Z_scope.

(** ** Go machine integers

  [int] is 64 bits wide on the supported targets; arithmetic wraps. *)
Module GoInt.

Definition int_max : Z := 2 ^ 63 - 1.
Definition int_min : Z := - 2 ^ 63.

(** Two's complement wrap-around of a signed integer of [w] bits. *)
Definition wrap_signed (w : Z) (z : Z) : Z :=
  (z + 2 ^ (w - 1)) mod 2 ^ w - 2 ^ (w - 1).

Definition wrap_int (z : Z) : Z := wrap_signed 64 z.
Definition wrap_int32 (z : Z) : Z := wrap_signed 32 z.
Definition wrap_uint64 (z : Z) : Z := z mod 2 ^ 64.

End GoInt.

(** ** The convergence policy of the dirty loop *)
Module Policy.
Import GoInt.

(** [MigrateToDevice] of package roles. [CycleThrottle] is a
    [time.Duration], a number of nanoseconds. *)
Record MigrateToDevice := {
  Name : string;
  MaxDirtyBlocks : Z;
  MinCycles : Z;
  MaxCycles : Z;
  CycleThrottle : Z
}.

(** The two loop-local counters of the dirty loop of [MigrateTo]. *)
Record cycles := {
  cyclesBelowDirtyBlockTreshold : Z;
  totalCycles : Z
}.

Definition cycles0 : cycles :=
  {| cyclesBelowDirtyBlockTreshold := 0; totalCycles := 0 |}.

(** The policy block that closes an iteration of the loop:
    [totalCycles++] and the three-way branch. [nblocks] is
    [len(blocks)]. The boolean tells whether
    [markDeviceAsReadyForAuthorityTransfer] was called. *)
Definition policy (dev : MigrateToDevice) (nblocks : Z) (c : cycles)
  : cycles * bool :=
  let total := wrap_int (totalCycles c + 1) in
  if nblocks <? MaxDirtyBlocks dev then
    let below := wrap_int (cyclesBelowDirtyBlockTreshold c + 1) in
    ({| cyclesBelowDirtyBlockTreshold := below; totalCycles := total |},
     MinCycles dev <? below)
  else if MaxCycles dev <? total then
    ({| cyclesBelowDirtyBlockTreshold := cyclesBelowDirtyBlockTreshold c;
        totalCycles := total |}, true)
  else
    ({| cyclesBelowDirtyBlockTreshold := 0; totalCycles := total |}, false).

(** The counters after the iterations that sampled [samples] (the
    lengths of the dirty lists, oldest first), from [c]. *)
Fixpoint run (dev : MigrateToDevice) (samples : list Z) (c : cycles) : cycles :=
  match samples with
  | [] => c
  | n :: rest => run dev rest (fst (policy dev n c))
  end.

(** Whether some iteration over [samples], from [c], called
    [markDeviceAsReadyForAuthorityTransfer]. *)
Fixpoint marked (dev : MigrateToDevice) (samples : list Z) (c : cycles) : bool :=
  match samples with
  | [] => false
  | n :: rest => snd (policy dev n c) || marked dev rest (fst (policy dev n c))
  end.

(** The policy as the design document words it, on unbounded integers. *)
Definition spec_policy (dev : MigrateToDevice) (nblocks : Z) (c : cycles)
  : cycles * bool :=
  let total := totalCycles c + 1 in
  if bool_decide (nblocks < MaxDirtyBlocks dev) then
    let below := cyclesBelowDirtyBlockTreshold c + 1 in
    ({| cyclesBelowDirtyBlockTreshold := below; totalCycles := total |},
     bool_decide (below > MinCycles dev))
  else if bool_decide (total > MaxCycles dev) then
    ({| cyclesBelowDirtyBlockTreshold := cyclesBelowDirtyBlockTreshold c;
        totalCycles := total |}, true)
  else
    ({| cyclesBelowDirtyBlockTreshold := 0; totalCycles := total |}, false).

End Policy.

(** ** The dirty manager of package peer *)
Module DirtyManager.
Import GoInt.

(** [DeviceStatus]; the maps of the manager hold pointers to it, so the
    record lives in one store keyed by the device name and
    [ReadyDevices] refers to it by that key. *)
Record DeviceStatus := {
  TotalCycles : Z;
  CycleThrottle : Z;
  MaxDirtyBlocks : Z;
  CyclesBelowDirtyBlockTreshold : Z;
  MinCycles : Z;
  MaxCycles : Z;
  Ready : bool
}.

Record DirtyManager := {
  suspendedVM : bool;                   (* VMState.CheckSuspendedVM() *)
  Devices : gmap string DeviceStatus;
  ReadyDevices : gset string;
  AuthorityTransferCompleted : bool
}.

Definition set_status (name : string) (di : DeviceStatus) (dm : DirtyManager)
  : DirtyManager :=
  {| suspendedVM := suspendedVM dm;
     Devices := <[name := di]> (Devices dm);
     ReadyDevices := ReadyDevices dm;
     AuthorityTransferCompleted := AuthorityTransferCompleted dm |}.

(** [markDeviceReady]. *)
Definition markDeviceReady (name : string) (di : DeviceStatus) (dm : DirtyManager)
  : DirtyManager :=
  if Ready di then set_status name di dm
  else
    {| suspendedVM := suspendedVM dm;
       Devices := <[name :=
         {| TotalCycles := TotalCycles di;
            CycleThrottle := CycleThrottle di;
            MaxDirtyBlocks := MaxDirtyBlocks di;
            CyclesBelowDirtyBlockTreshold := CyclesBelowDirtyBlockTreshold di;
            MinCycles := MinCycles di;
            MaxCycles := MaxCycles di;
            Ready := true |}]> (Devices dm);
       ReadyDevices := {[name]} ∪ ReadyDevices dm;
       AuthorityTransferCompleted := AuthorityTransferCompleted dm |}.

Definition with_cycles (di : DeviceStatus) (below total : Z) : DeviceStatus :=
  {| TotalCycles := total;
     CycleThrottle := CycleThrottle di;
     MaxDirtyBlocks := MaxDirtyBlocks di;
     CyclesBelowDirtyBlockTreshold := below;
     MinCycles := MinCycles di;
     MaxCycles := MaxCycles di;
     Ready := Ready di |}.

(** What [PostMigrateDirty] did besides updating the manager. *)
Inductive outcome :=
| NilDeref                        (* [dm.Devices[name]] is nil *)
| Suspended                       (* early return: the VM is suspended *)
| Cycled (transfer : bool).       (* policy applied; [transfer] tells whether
                                     this call ran [SuspendAndMsync] and
                                     [AuthorityTransfer] *)

(** [PostMigrateDirty], up to the two calls guarded by the latch. *)
Definition PostMigrateDirty (name : string) (nblocks : Z) (dm : DirtyManager)
  : DirtyManager * outcome :=
  match Devices dm !! name with
  | None => (dm, NilDeref)
  | Some di =>
    if suspendedVM dm then (dm, Suspended)
    else
      let total := wrap_int (TotalCycles di + 1) in
      let dm1 :=
        if nblocks <? MaxDirtyBlocks di then
          let below := wrap_int (CyclesBelowDirtyBlockTreshold di + 1) in
          let di1 := with_cycles di below total in
          if MinCycles di <? below then markDeviceReady name di1 dm
          else set_status name di1 dm
        else if MaxCycles di <? total then
          markDeviceReady name
            (with_cycles di (CyclesBelowDirtyBlockTreshold di) total) dm
        else set_status name (with_cycles di 0 total) dm in
      if bool_decide (size (ReadyDevices dm1) = size (Devices dm1)) then
        if AuthorityTransferCompleted dm1 then (dm1, Cycled false)
        else
          ({| suspendedVM := suspendedVM dm1;
              Devices := Devices dm1;
              ReadyDevices := ReadyDevices dm1;
              AuthorityTransferCompleted := true |}, Cycled true)
      else (dm1, Cycled false)
  end.

(** A [DeviceStatus] read as the parameters and the counters of the
    policy of [MigrateTo]. *)
Definition device_of (name : string) (di : DeviceStatus) : Policy.MigrateToDevice :=
  {| Policy.Name := name;
     Policy.MaxDirtyBlocks := MaxDirtyBlocks di;
     Policy.MinCycles := MinCycles di;
     Policy.MaxCycles := MaxCycles di;
     Policy.CycleThrottle := CycleThrottle di |}.

Definition cycles_of (di : DeviceStatus) : Policy.cycles :=
  {| Policy.cyclesBelowDirtyBlockTreshold := CyclesBelowDirtyBlockTreshold di;
     Policy.totalCycles := TotalCycles di |}.

End DirtyManager.

(** ** Priority hints: the [NeedAt] and [DontNeedAt] handlers of [MigrateTo] *)
Module Orderer.
Import GoInt.

(** The indices visited by [for b := startBlock; b < endBlock; b++]. *)
Definition block_range (startBlock endBlock : Z) : list Z :=
  (fun i : nat => startBlock + Z.of_nat i) <$> seq 0 (Z.to_nat (endBlock - startBlock)).

(** [endOffset := uint64(offset + int64(length))], clamped to the size of
    the storage. [size] is [storage.Size()], a [uint64]. *)
Definition endOffset (size offset length : Z) : Z :=
  let e := wrap_uint64 (wrap_int (offset + length)) in
  if wrap_uint64 size <? e then wrap_uint64 size else e.

(** The blocks handed to [orderer.PrioritiseBlock] by the callback of
    [HandleNeedAt]; [None] is the run-time panic of a division by zero.
    Go's [/] truncates toward zero on signed operands. *)
Definition needAt_blocks (size blockSize offset length : Z) : option (list Z) :=
  if blockSize =? 0 then None
  else
    let e := endOffset size offset length in
    let startBlock := wrap_int (offset ÷ blockSize) in
    let endBlock := wrap_int (wrap_int (wrap_uint64 (e - 1) / blockSize) + 1) in
    Some (block_range startBlock endBlock).

(** The blocks handed to [orderer.Remove] by the callback of
    [HandleDontNeedAt]: the same shape, with [storage.Size()] where the
    sibling has the block size. *)
Definition dontNeedAt_blocks (size blockSize offset length : Z) : option (list Z) :=
  if (wrap_int size =? 0) || (wrap_uint64 size =? 0) then None
  else
    let e := endOffset size offset length in
    let startBlock := wrap_int (offset ÷ wrap_int size) in
    let endBlock := wrap_int (wrap_int (wrap_uint64 (e - 1) / wrap_uint64 size) + 1) in
    Some (block_range startBlock endBlock).

(** The part of silo's [PriorityBlockOrder] the two handlers touch: the
    blocks that were promoted and the blocks still to be served. *)
Record orderer := {
  available : gset Z;
  priority : gset Z
}.

Definition PrioritiseBlock (b : Z) (o : orderer) : orderer :=
  {| available := available o; priority := {[b]} ∪ priority o |}.

Definition Remove (b : Z) (o : orderer) : orderer :=
  {| available := available o ∖ {[b]}; priority := priority o ∖ {[b]} |}.

Definition HandleNeedAt (size blockSize offset length : Z) (o : orderer)
  : option orderer :=
  bs ← needAt_blocks size blockSize offset length;
  Some (foldl (fun o b => PrioritiseBlock b o) o bs).

Definition HandleDontNeedAt (size blockSize offset length : Z) (o : orderer)
  : option orderer :=
  bs ← dontNeedAt_blocks size blockSize offset length;
  Some (foldl (fun o b => Remove b o) o bs).

(** The range of the design document:
    floor(offset / block_size) .. ceil(min(offset+length, size) / block_size) - 1. *)
Definition spec_first (blockSize offset : Z) : Z := offset / blockSize.
Definition spec_last (size blockSize offset length : Z) : Z :=
  (Z.min (offset + length) size + blockSize - 1) / blockSize - 1.

End Orderer.

(** ** Go strings *)
Module GoString.

Definition byte_of (c : ascii) : N := N_of_ascii c.

(** [strings.TrimSpace(s) == ""]: every rune of [s] is white space
    ([unicode.IsSpace] on the UTF-8 decoding of the bytes). *)
Fixpoint blank (s : string) : bool :=
  match s with
  | EmptyString => true
  | String c rest =>
    let b := byte_of c in
    if ((9 <=? b) && (b <=? 13) || (b =? 32))%N then blank rest
    else if (b =? 194)%N then                       (* U+0085, U+00A0 *)
      match rest with
      | String c2 rest2 =>
        let b2 := byte_of c2 in
        ((b2 =? 133) || (b2 =? 160))%N && blank rest2
      | EmptyString => false
      end
    else if (b =? 225)%N then                       (* U+1680 *)
      match rest with
      | String c2 (String c3 rest3) =>
        ((byte_of c2 =? 154) && (byte_of c3 =? 128))%N && blank rest3
      | _ => false
      end
    else if (b =? 226)%N then     (* U+2000..U+200A, U+2028, U+2029, U+202F, U+205F *)
      match rest with
      | String c2 (String c3 rest3) =>
        let b2 := byte_of c2 in
        let b3 := byte_of c3 in
        (((b2 =? 128) &&
            ((128 <=? b3) && (b3 <=? 138) || (b3 =? 168) || (b3 =? 169) || (b3 =? 175))
          || (b2 =? 129) && (b3 =? 159))%N) && blank rest3
      | _ => false
      end
    else if (b =? 227)%N then                       (* U+3000 *)
      match rest with
      | String c2 (String c3 rest3) =>
        ((byte_of c2 =? 128) && (byte_of c3 =? 128))%N && blank rest3
      | _ => false
      end
    else false
  end.

(** [fmt.Sprintf("%v", n)] on an integer. *)
Definition sprint_int (z : Z) : string :=
  DecimalString.NilZero.string_of_int (Z.to_int z).

End GoString.

(** ** Local devices of the destination: [createSiloDevSchema] *)
Module Schema.
Import GoString.

(** [MigrateFromDevice] of package peer. *)
Record MigrateFromDevice := {
  Name : string;
  Base : string;
  Overlay : string;
  State : string;
  BlockSize : Z;
  Shared : bool
}.

(** The fields of silo's [config.DeviceSchema] that the function sets. *)
#[local] Unset Elimination Schemes.
Inductive DeviceSchema := {
  ds_Name : string;
  ds_System : string;
  ds_Location : string;
  ds_Size : string;
  ds_BlockSize : string;
  ds_Expose : bool;
  ds_ROSource : option DeviceSchema
}.
#[local] Set Elimination Schemes.

Inductive error :=
| ErrCouldNotGetBaseDeviceStat
| ErrCouldNotCreateOverlayDirectory
| ErrCouldNotCreateStateDirectory
| ErrCouldNotGetDeviceStat
| ErrCouldNotGetNBDDeviceStat
| ErrCouldNotCreateDeviceNode.

(** The file system as the functions see it: [os.Stat(p).Size()] where
    the call succeeds, whether [os.MkdirAll(filepath.Dir(p), ...)]
    succeeds, and the error, if any, of
    [exposeSiloDeviceAsFile(vmpath, name, devicePath)]. *)
Record filesystem := {
  stat_size : string -> option Z;
  mkdir_parent : string -> bool;
  expose : string -> string -> option error
}.

Definition createSiloDevSchema (fs : filesystem) (i : MigrateFromDevice)
  : error + DeviceSchema :=
  match stat_size fs (Base i) with
  | None => inl ErrCouldNotGetBaseDeviceStat
  | Some sz =>
    if blank (Overlay i) || blank (State i) then
      inr {| ds_Name := Name i;
             ds_System := "file";
             ds_Location := Base i;
             ds_Size := sprint_int sz;
             ds_BlockSize := sprint_int (BlockSize i);
             ds_Expose := true;
             ds_ROSource := None |}
    else if negb (mkdir_parent fs (Overlay i)) then
      inl ErrCouldNotCreateOverlayDirectory
    else if negb (mkdir_parent fs (State i)) then
      inl ErrCouldNotCreateStateDirectory
    else
      inr {| ds_Name := Name i;
             ds_System := "sparsefile";
             ds_Location := Overlay i;
             ds_Size := sprint_int sz;
             ds_BlockSize := sprint_int (BlockSize i);
             ds_Expose := true;
             ds_ROSource := Some
               {| ds_Name := State i;
                  ds_System := "file";
                  ds_Location := Base i;
                  ds_Size := sprint_int sz;
                  ds_BlockSize := "";
                  ds_Expose := false;
                  ds_ROSource := None |} |}
  end.

(** The schemas [migrateFromFS] hands to [devicegroup.NewFromSchema]:
    one per device that is not shared, in order; the first error ends
    the loop. Shared devices are exposed from their base as they are. *)
Fixpoint schemas (fs : filesystem) (devices : list MigrateFromDevice)
  : error + list DeviceSchema :=
  match devices with
  | [] => inr []
  | input :: rest =>
    if Shared input then
      match expose fs (Name input) (Base input) with
      | Some e => inl e
      | None => schemas fs rest
      end
    else
      match createSiloDevSchema fs input with
      | inl e => inl e
      | inr ds =>
        match schemas fs rest with
        | inl e => inl e
        | inr dss => inr (ds :: dss)
        end
      end
  end.

(** The base is exposed as it is, with no overlay. *)
Definition base_only (i : MigrateFromDevice) (ds : DeviceSchema) : Prop :=
  ds_System ds = "file" /\ ds_Location ds = Base i /\ ds_ROSource ds = None.

(** The copy-on-write stack: a sparse overlay at [Overlay] over the
    read-only base, its state kept under [State]. *)
Definition full_stack (i : MigrateFromDevice) (ds : DeviceSchema) : Prop :=
  ds_System ds = "sparsefile" /\ ds_Location ds = Overlay i /\
  exists ro, ds_ROSource ds = Some ro /\
    ds_Name ro = State i /\ ds_System ro = "file" /\ ds_Location ro = Base i.


(** The claim C7 as it is worded: the base alone exactly when both
    paths are empty, the full stack in every other case. *)
Definition base_only_iff_both_empty : Prop :=
  forall fs i ds,
    createSiloDevSchema fs i = inr ds ->
    (base_only i ds <-> Overlay i = "" /\ State i = "") /\
    (~ (Overlay i = "" /\ State i = "") -> full_stack i ds).

Definition only_overlay : MigrateFromDevice :=
  {| Name := "disk"; Base := "out/package/disk.bin";
     Overlay := "out/instance-0/overlay/disk.bin"; State := "";
     BlockSize := 65536; Shared := false |}.

Definition both_paths : MigrateFromDevice :=
  {| Name := "disk"; Base := "out/package/disk.bin";
     Overlay := "out/instance-0/overlay/disk.bin";
     State := "out/instance-0/state/disk.bin";
     BlockSize := 65536; Shared := false |}.

Definition fs_ok : filesystem :=
  {| stat_size := fun _ => Some 262144;
     mkdir_parent := fun _ => true;
     expose := fun _ _ => None |}.

End Schema.

(** ** Admission of a remote device on the destination *)
Module Admission.
Import GoInt GoString.

(** [MigrateFromDevice] of package roles. *)
Record MigrateFromDevice := {
  Name : string;
  Base : string;
  Overlay : string;
  State : string;
  BlockSize : Z
}.

(** [packets.DevInfo], as the callback reads it. *)
Record DevInfo := {
  di_Name : string;
  di_Size : Z;
  di_Block_size : Z
}.

Inductive error :=
| ErrUnknownDeviceName
| ErrCouldNotCreateDeviceDirectory
| ErrCouldNotCreateDevice
| ErrCouldNotGetDeviceStat
| ErrCouldNotGetNBDDeviceStat
| ErrPeerContextCancelled
| ErrCouldNotCreateDeviceNode.

(** [peerStage2], without the handles of the storage and of the device. *)
Record peerStage2 := {
  name : string;
  blockSize : Z;
  id : Z;
  remote : bool
}.

(** The device the callback asks silo for. *)
Record DeviceSchema := {
  ds_Name : string;
  ds_System : string;
  ds_Location : string;
  ds_Size : string;
  ds_BlockSize : string;
  ds_Expose : bool
}.

Inductive hook_call :=
| OnRemoteDeviceReceived (index : Z) (name : string)
| OnRemoteDeviceExposed (index : Z)
| OnDeviceReceived (deviceID : Z) (name : string).

(** What [MigrateFrom] shares with the callback. *)
Record peer := {
  receivedButNotReadyRemoteDevices : Z;
  created : list DeviceSchema;
  stage2Inputs : list peerStage2;
  hook_calls : list hook_call
}.

(** The outside world of one call: whether the directory and the device
    could be made, and how exposing the device node went ([None]: the
    node was made; [Some None]: the context was done without an error,
    the callback returns nil). *)
Record world := {
  mkdir_parent : string -> bool;
  new_device : DeviceSchema -> bool;
  expose_node : string -> option (option error)
}.

Inductive outcome :=
| Panic (e : error)
| ReturnedNil
| Provider (local : peerStage2).

(** [base := ""; for _, device := range devices { if di.Name == device.Name
    { base = device.Base; break } }]. *)
Fixpoint lookup_base (devices : list MigrateFromDevice) (n : string) : string :=
  match devices with
  | [] => ""
  | device :: rest =>
    if String.eqb n (Name device) then Base device else lookup_base rest n
  end.

(** The callback [MigrateFrom] hands to [protocol.NewFromProtocol]: it
    runs on the first [DevInfo] of a device index. [hooks_set] tells
    whether the two hooks are set. *)
Definition on_dev_info (w : world) (hooks_set : bool)
    (devices : list MigrateFromDevice) (index : Z) (di : DevInfo) (p : peer)
  : peer * outcome :=
  let base := lookup_base devices (di_Name di) in
  if blank base then (p, Panic ErrUnknownDeviceName)
  else
    let p1 :=
      {| receivedButNotReadyRemoteDevices :=
           wrap_int32 (receivedButNotReadyRemoteDevices p + 1);
         created := created p;
         stage2Inputs := stage2Inputs p;
         hook_calls :=
           if hooks_set
           then hook_calls p ++ [OnRemoteDeviceReceived index (di_Name di)]
           else hook_calls p |} in
    if negb (mkdir_parent w base) then (p1, Panic ErrCouldNotCreateDeviceDirectory)
    else
      let schema :=
        {| ds_Name := di_Name di;
           ds_System := "file";
           ds_Location := base;
           ds_Size := sprint_int (di_Size di);
           ds_BlockSize := sprint_int (di_Block_size di);
           ds_Expose := true |} in
      if negb (new_device w schema) then (p1, Panic ErrCouldNotCreateDevice)
      else
        let input :=
          {| name := di_Name di; blockSize := di_Block_size di;
             id := index; remote := true |} in
        let p2 :=
          {| receivedButNotReadyRemoteDevices := receivedButNotReadyRemoteDevices p1;
             created := created p1 ++ [schema];
             stage2Inputs := stage2Inputs p1 ++ [input];
             hook_calls := hook_calls p1 |} in
        match expose_node w (di_Name di) with
        | Some (Some e) => (p2, Panic e)
        | Some None => (p2, ReturnedNil)
        | None =>
          ({| receivedButNotReadyRemoteDevices := receivedButNotReadyRemoteDevices p2;
              created := created p2;
              stage2Inputs := stage2Inputs p2;
              hook_calls :=
                if hooks_set then hook_calls p2 ++ [OnRemoteDeviceExposed index]
                else hook_calls p2 |},
           Provider input)
        end.

(** The names and the paths [Terminate] is called with. The names are
    constants of package config. *)
Record names := {
  ConfigName : string;
  DiskName : string;
  InitramfsName : string;
  KernelName : string;
  MemoryName : string;
  StateName : string
}.

Record paths := {
  statePath : string;
  memoryPath : string;
  initramfsPath : string;
  kernelPath : string;
  diskPath : string;
  configPath : string
}.

(** The [switch di.Name] of [Terminate]: the first case that matches. *)
Definition terminate_path (ns : names) (ps : paths) (n : string) : string :=
  if String.eqb n (ConfigName ns) then configPath ps
  else if String.eqb n (DiskName ns) then diskPath ps
  else if String.eqb n (InitramfsName ns) then initramfsPath ps
  else if String.eqb n (KernelName ns) then kernelPath ps
  else if String.eqb n (MemoryName ns) then memoryPath ps
  else if String.eqb n (StateName ns) then statePath ps
  else "".

Inductive terminate_outcome :=
| TPanic (e : option error)      (* [None]: an error of the file system *)
| TProvider (path : string).

(** The callback of [Terminate], with the hook calls it made. *)
Definition terminate_on_dev_info (mkdir_ok storage_ok : string -> bool)
    (hooks_set : bool) (ns : names) (ps : paths) (u : Z) (di : DevInfo)
  : list hook_call * terminate_outcome :=
  let path := terminate_path ns ps (di_Name di) in
  if blank path then ([], TPanic (Some ErrUnknownDeviceName))
  else
    let calls := if hooks_set then [OnDeviceReceived u (di_Name di)] else [] in
    if negb (mkdir_ok path) then (calls, TPanic None)
    else if negb (storage_ok path) then (calls, TPanic None)
    else (calls, TProvider path).


(** A destination configured for two devices, and a [DevInfo] for a
    third. *)
Definition configured : list MigrateFromDevice :=
  [ {| Name := "state"; Base := "out/package/state.bin"; Overlay := "";
       State := ""; BlockSize := 65536 |};
    {| Name := "memory"; Base := "out/package/memory.bin"; Overlay := "";
       State := ""; BlockSize := 65536 |} ].

Definition stranger : DevInfo :=
  {| di_Name := "scratch"; di_Size := 262144; di_Block_size := 65536 |}.

Definition peer0 : peer :=
  {| receivedButNotReadyRemoteDevices := 0; created := [];
     stage2Inputs := []; hook_calls := [] |}.

Definition world_ok : world :=
  {| mkdir_parent := fun _ => true; new_device := fun _ => true;
     expose_node := fun _ => None |}.

End Admission.

(** ** The source side: [MigrateTo]

  One goroutine per device runs the dirty loop; they share the counter
  [devicesLeftToTransferAuthorityFor], the flag [suspendedVM] and the
  once-only [suspendAndMsyncVM]. The goroutines are interleaved at the
  grain of the statements that touch shared state or the wire; every
  step puts at most one event on the trace. *)
Module MigrateTo.
Import GoInt Policy.

Inductive error :=
| ErrCouldNotCallBeforeSuspendRPC
| ErrCouldNotCloseAcceptingAgent
| ErrCouldNotCreateSnapshot
| ErrCouldNotMsyncRunner
| ErrCouldNotSendDirtyList
| ErrPeerContextCancelled
| ErrCouldNotSuspendAndMsyncVM
| ErrCouldNotSendTransferAuthorityEvent
| ErrCouldNotWaitForMigrationCompletion
| ErrCouldNotSendCompletedEvent.

(** What can be observed of a migration, oldest first. *)
Inductive event :=
| OnBeforeSuspendHook
| BeforeSuspendRPC                 (* acceptingAgent.Remote.BeforeSuspend *)
| AgentClosed                      (* acceptingAgent.Close and agent.Close *)
| SnapshotCreated                  (* firecracker.CreateSnapshot *)
| MsyncVM                          (* resumedRunner.Msync of the sequence *)
| OnAfterSuspendHook
| SuspendedVMSet                   (* suspendedVM = true *)
| SuspendedVMCtxCancelled          (* cancelSuspendedVMCtx() *)
| LoopMsync (d : nat)              (* resumedRunner.Msync of an iteration *)
| DirtyList (d : nat) (blocks : list N)
| WriteAt (d : nat) (block : N)
| TransferAuthority (d : nat)
| Completed (d : nat).

#[global] Instance event_eq_dec : EqDecision event.
Proof. solve_decision. Defined.

(** Which hooks of [MigrateToHooks] are set. The progress hooks leave
    the state modelled here alone and are left out. *)
Record MigrateToHooks := {
  OnBeforeSuspend : bool;
  OnAfterSuspend : bool
}.

(** The statements of [suspendAndMsyncVM], with those of
    [SuspendAndCloseAgentServer] of the runner in place of the call. *)
Inductive stage :=
| AtOnBeforeSuspend
| AtBeforeSuspendRPC
| AtAgentClose
| AtCreateSnapshot
| AtMsync
| AtOnAfterSuspend
| AtSetSuspendedVM
| AtCancelSuspendedVMCtx.

(** One statement of the sequence: the event it puts on the trace, and
    the next statement or the value the function returns. [ok] is the
    outcome of the call the statement makes, if it makes one. Of the
    errors the code joins, the innermost names the failure. *)
Definition stage_step (hooks : MigrateToHooks) (ok : bool) (st : stage)
  : option event * (stage + option error) :=
  match st with
  | AtOnBeforeSuspend =>
    (if OnBeforeSuspend hooks then Some OnBeforeSuspendHook else None,
     inl AtBeforeSuspendRPC)
  | AtBeforeSuspendRPC =>
    if ok then (Some BeforeSuspendRPC, inl AtAgentClose)
    else (None, inr (Some ErrCouldNotCallBeforeSuspendRPC))
  | AtAgentClose =>
    if ok then (Some AgentClosed, inl AtCreateSnapshot)
    else (None, inr (Some ErrCouldNotCloseAcceptingAgent))
  | AtCreateSnapshot =>
    if ok then (Some SnapshotCreated, inl AtMsync)
    else (None, inr (Some ErrCouldNotCreateSnapshot))
  | AtMsync =>
    if ok then (Some MsyncVM, inl AtOnAfterSuspend)
    else (None, inr (Some ErrCouldNotMsyncRunner))
  | AtOnAfterSuspend =>
    (if OnAfterSuspend hooks then Some OnAfterSuspendHook else None,
     inl AtSetSuspendedVM)
  | AtSetSuspendedVM => (Some SuspendedVMSet, inl AtCancelSuspendedVMCtx)
  | AtCancelSuspendedVMCtx => (Some SuspendedVMCtxCancelled, inr None)
  end.

(** The body of [suspendAndMsyncVM] run on its own from [st]: the events
    in order and the value returned. [oks] answers the calls of the
    statements. *)
Fixpoint run_stages (fuel : nat) (hooks : MigrateToHooks) (oks : stage -> bool)
    (st : stage) : list event * option error :=
  match fuel with
  | O => ([], None)
  | S fuel =>
    let '(ev, next) := stage_step hooks (oks st) st in
    let evs := match ev with Some e => [e] | None => [] end in
    match next with
    | inl st' =>
      let '(rest, r) := run_stages fuel hooks oks st' in (evs ++ rest, r)
    | inr r => (evs, r)
    end
  end.

Definition suspendAndMsyncVM_body (hooks : MigrateToHooks) (oks : stage -> bool)
  : list event * option error :=
  run_stages 8 hooks oks AtOnBeforeSuspend.

(** [sync.OnceValue]: not called yet, running in the goroutine of a
    device, or done with the value every caller gets. *)
Inductive once :=
| NotCalled
| Running (owner : nat) (st : stage)
| Finished (r : option error).

(** Where the goroutine of a device stands. [blocks] is the sample of
    the iteration, [None] for a nil slice. *)
Inductive pc :=
| LoopHead                                   (* msync of the memory device *)
| WgWait                                     (* ongoingMigrationsWg.Wait() *)
| GetDirty                                   (* mig.GetLatestDirty() *)
| Throttle (blocks : option (list N))        (* the select on the throttle *)
| ApplyPolicy (blocks : option (list N))     (* totalCycles++ and the branch *)
| CheckReady                                 (* the load before the call *)
| CallSuspend                                (* suspendAndMsyncVM() *)
| SendTransferAuthority
| WaitForCompletion                          (* mig.WaitForCompletion() *)
| SendCompleted
| Returned (r : option error).

(** The locals of one device goroutine. [wg] holds the dirty lists of
    the [MigrateDirty] goroutines that have not called
    [ongoingMigrationsWg.Done()] yet; [in_flight] the blocks the
    migrator took over and has not written to the wire yet; [sampled]
    the lengths of the samples the policy has seen, oldest first (a
    history kept for the statements, the code has no such variable). *)
Record device := {
  at_pc : pc;
  counters : cycles;
  marked_ready : bool;             (* markDeviceAsReadyForAuthorityTransfer ran *)
  wg : list (list N);
  in_flight : list N;
  sampled : list Z
}.

Record state := {
  devices : list device;
  devicesLeftToTransferAuthorityFor : Z;
  suspendedVM : bool;
  suspendedVMCtx : bool;           (* done *)
  suspendAndMsyncVM : once;
  trace : list event
}.

(** The inputs of a migration: [stage5Inputs], the hooks and the name of
    the memory device (a constant of the package). *)
Record config := {
  stage5Inputs : list MigrateToDevice;
  hooks : MigrateToHooks;
  MemoryName : string
}.

(** What the outside decides at a step: the sample
    [mig.GetLatestDirty()] returns, whether the call of the step
    succeeds, and whether the select takes the branch of the cancelled
    context. *)
Record env := {
  latest_dirty : option (list N);
  io_ok : bool;
  ctx_done : bool
}.

Inductive action :=
| Main (d : nat) (e : env)         (* the loop of device [d] moves on *)
| MigrateDirtyDone (d : nat)       (* a MigrateDirty goroutine of [d] ends *)
| MigratorSend (d : nat) (i : nat).  (* the migrator writes the [i]-th
                                        block in flight of [d] *)

Definition device0 : device :=
  {| at_pc := LoopHead; counters := cycles0; marked_ready := false;
     wg := []; in_flight := []; sampled := [] |}.

Definition init (cfg : config) : state :=
  {| devices := replicate (length (stage5Inputs cfg)) device0;
     devicesLeftToTransferAuthorityFor := 0;
     suspendedVM := false;
     suspendedVMCtx := false;
     suspendAndMsyncVM := NotCalled;
     trace := [] |}.

Definition set_pc (p : pc) (ds : device) : device :=
  {| at_pc := p; counters := counters ds; marked_ready := marked_ready ds;
     wg := wg ds; in_flight := in_flight ds; sampled := sampled ds |}.

Definition set_device (d : nat) (ds : device) (s : state) : state :=
  {| devices := <[d := ds]> (devices s);
     devicesLeftToTransferAuthorityFor := devicesLeftToTransferAuthorityFor s;
     suspendedVM := suspendedVM s;
     suspendedVMCtx := suspendedVMCtx s;
     suspendAndMsyncVM := suspendAndMsyncVM s;
     trace := trace s |}.

Definition emit (ev : option event) (s : state) : state :=
  {| devices := devices s;
     devicesLeftToTransferAuthorityFor := devicesLeftToTransferAuthorityFor s;
     suspendedVM := suspendedVM s;
     suspendedVMCtx := suspendedVMCtx s;
     suspendAndMsyncVM := suspendAndMsyncVM s;
     trace := match ev with Some e => trace s ++ [e] | None => trace s end |}.

Definition set_once (o : once) (s : state) : state :=
  {| devices := devices s;
     devicesLeftToTransferAuthorityFor := devicesLeftToTransferAuthorityFor s;
     suspendedVM := suspendedVM s;
     suspendedVMCtx := suspendedVMCtx s;
     suspendAndMsyncVM := o;
     trace := trace s |}.

(** The writes of the last two statements of the sequence. *)
Definition stage_effect (st : stage) (s : state) : state :=
  {| devices := devices s;
     devicesLeftToTransferAuthorityFor := devicesLeftToTransferAuthorityFor s;
     suspendedVM :=
       match st with AtSetSuspendedVM => true | _ => suspendedVM s end;
     suspendedVMCtx :=
       match st with AtCancelSuspendedVMCtx => true | _ => suspendedVMCtx s end;
     suspendAndMsyncVM := suspendAndMsyncVM s;
     trace := trace s |}.

Definition add_ready (s : state) : state :=
  {| devices := devices s;
     devicesLeftToTransferAuthorityFor :=
       wrap_int32 (devicesLeftToTransferAuthorityFor s + 1);
     suspendedVM := suspendedVM s;
     suspendedVMCtx := suspendedVMCtx s;
     suspendAndMsyncVM := suspendAndMsyncVM s;
     trace := trace s |}.

(** [devicesLeftToTransferAuthorityFor.Load() >= int32(len(stage5Inputs))]. *)
Definition all_ready (cfg : config) (s : state) : bool :=
  wrap_int32 (Z.of_nat (length (stage5Inputs cfg)))
    <=? devicesLeftToTransferAuthorityFor s.

Definition blocks_len (blocks : option (list N)) : Z :=
  match blocks with Some bs => Z.of_nat (length bs) | None => 0 end.

(** The call [suspendAndMsyncVM()] made by device [d]: the first caller
    runs the body, one statement a step; the others wait for it and get
    its value. An error is fatal to the caller. *)
Definition call_suspend (cfg : config) (d : nat) (ds : device) (e : env)
    (s : state) : state :=
  match suspendAndMsyncVM s with
  | NotCalled => set_once (Running d AtOnBeforeSuspend) s
  | Running owner st =>
    if bool_decide (owner = d) then
      let '(ev, next) := stage_step (hooks cfg) (io_ok e) st in
      match next with
      | inl st' => set_once (Running d st') (emit ev (stage_effect st s))
      | inr r => set_once (Finished r) (emit ev (stage_effect st s))
      end
    else s
  | Finished None => set_device d (set_pc LoopHead ds) s
  | Finished (Some _) =>
    set_device d (set_pc (Returned (Some ErrCouldNotSuspendAndMsyncVM)) ds) s
  end.

(** The policy block, with the once-only increment of the counter. *)
Definition apply_policy (dev : MigrateToDevice) (d : nat) (ds : device)
    (blocks : option (list N)) (s : state) : state :=
  let '(c, ready) := policy dev (blocks_len blocks) (counters ds) in
  let fire := ready && negb (marked_ready ds) in
  let ds' :=
    {| at_pc := CheckReady; counters := c;
       marked_ready := marked_ready ds || ready;
       wg := wg ds; in_flight := in_flight ds;
       sampled := sampled ds ++ [blocks_len blocks] |} in
  set_device d ds' (if fire then add_ready s else s).

(** One step of the loop of device [d], configured by [dev]. *)
Definition main_step (cfg : config) (d : nat) (dev : MigrateToDevice)
    (ds : device) (e : env) (s : state) : state :=
  let goto p := set_device d (set_pc p ds) in
  match at_pc ds with
  | LoopHead =>
    if negb (suspendedVM s) && String.eqb (Name dev) (MemoryName cfg) then
      if io_ok e then goto WgWait (emit (Some (LoopMsync d)) s)
      else goto (Returned (Some ErrCouldNotMsyncRunner)) s
    else goto WgWait s
  | WgWait =>
    match wg ds with
    | [] => goto GetDirty s
    | _ :: _ => s
    end
  | GetDirty =>
    match latest_dirty e with
    | None =>
      if suspendedVM s then goto SendTransferAuthority s
      else goto (Throttle None) s
    | Some blocks =>
      if io_ok e then
        set_device d
          {| at_pc := Throttle (Some blocks); counters := counters ds;
             marked_ready := marked_ready ds;
             wg := wg ds ++ [blocks]; in_flight := in_flight ds;
             sampled := sampled ds |}
          (emit (Some (DirtyList d blocks)) s)
      else goto (Returned (Some ErrCouldNotSendDirtyList)) s
    end
  | Throttle blocks =>
    if negb (suspendedVM s) && negb (all_ready cfg s) then
      if ctx_done e then goto (Returned (Some ErrPeerContextCancelled)) s
      else goto (ApplyPolicy blocks) s
    else goto (ApplyPolicy blocks) s
  | ApplyPolicy blocks => apply_policy dev d ds blocks s
  | CheckReady =>
    if all_ready cfg s then goto CallSuspend s else goto LoopHead s
  | CallSuspend => call_suspend cfg d ds e s
  | SendTransferAuthority =>
    if io_ok e then goto WaitForCompletion (emit (Some (TransferAuthority d)) s)
    else goto (Returned (Some ErrCouldNotSendTransferAuthorityEvent)) s
  | WaitForCompletion =>
    match in_flight ds with
    | [] =>
      if io_ok e then goto SendCompleted s
      else goto (Returned (Some ErrCouldNotWaitForMigrationCompletion)) s
    | _ :: _ => s
    end
  | SendCompleted =>
    if io_ok e then goto (Returned None) (emit (Some (Completed d)) s)
    else goto (Returned (Some ErrCouldNotSendCompletedEvent)) s
  | Returned _ => s
  end.

(** One step of the migration. [mig.MigrateDirty(blocks)] hands the
    blocks to silo's migrator and returns; the migrator writes them to
    the wire on its own goroutines, and [mig.WaitForCompletion()] is what
    waits for those. An action that is not enabled leaves the state as
    it is. *)
Definition step (cfg : config) (s : state) (a : action) : state :=
  match a with
  | Main d e =>
    match stage5Inputs cfg !! d, devices s !! d with
    | Some dev, Some ds => main_step cfg d dev ds e s
    | _, _ => s
    end
  | MigrateDirtyDone d =>
    match devices s !! d with
    | Some ds =>
      match wg ds with
      | blocks :: rest =>
        set_device d
          {| at_pc := at_pc ds; counters := counters ds;
             marked_ready := marked_ready ds;
             wg := rest; in_flight := in_flight ds ++ blocks;
             sampled := sampled ds |} s
      | [] => s
      end
    | None => s
    end
  | MigratorSend d i =>
    match devices s !! d with
    | Some ds =>
      match in_flight ds !! i with
      | Some b =>
        set_device d
          {| at_pc := at_pc ds; counters := counters ds;
             marked_ready := marked_ready ds;
             wg := wg ds; in_flight := delete i (in_flight ds);
             sampled := sampled ds |}
          (emit (Some (WriteAt d b)) s)
      | None => s
      end
    | None => s
    end
  end.

Definition exec (cfg : config) (s : state) (sched : list action) : state :=
  foldl (step cfg) s sched.

(** The states a migration can be in. *)
Definition reachable (cfg : config) (s : state) : Prop :=
  exists sched, s = exec cfg (init cfg) sched.

(** ** Order on a trace *)

(** Every occurrence of [b] has an [a] before it. *)
Definition always_before (a b : event) (tr : list event) : Prop :=
  forall l1 l2, tr = l1 ++ b :: l2 -> a ∈ l1.

(** No [b] occurs after an [a]. *)
Definition never_after (a b : event) (tr : list event) : Prop :=
  forall l1 l2, tr = l1 ++ a :: l2 -> b ∉ l2.

(** The events of the suspend sequence. *)
Definition suspend_event (ev : event) : bool :=
  match ev with
  | OnBeforeSuspendHook | BeforeSuspendRPC | AgentClosed | SnapshotCreated
  | MsyncVM | OnAfterSuspendHook | SuspendedVMSet | SuspendedVMCtxCancelled => true
  | _ => false
  end.

(** The sequence as the design document orders it: the flag and the
    broadcast, then the hook. *)
Definition spec_sequence : list event :=
  [OnBeforeSuspendHook; BeforeSuspendRPC; AgentClosed; SnapshotCreated; MsyncVM;
   SuspendedVMSet; SuspendedVMCtxCancelled; OnAfterSuspendHook].

(** The sequence as [suspendAndMsyncVM] is written, for the hooks that
    are set. *)
Definition code_sequence (h : MigrateToHooks) : list event :=
  (if OnBeforeSuspend h then [OnBeforeSuspendHook] else [])
  ++ [BeforeSuspendRPC; AgentClosed; SnapshotCreated; MsyncVM]
  ++ (if OnAfterSuspend h then [OnAfterSuspendHook] else [])
  ++ [SuspendedVMSet; SuspendedVMCtxCancelled].

(** What the sequence has put on the trace when it stands at [st]. *)
Definition emitted_before (h : MigrateToHooks) (st : stage) : list event :=
  let before := if OnBeforeSuspend h then [OnBeforeSuspendHook] else [] in
  let after := if OnAfterSuspend h then [OnAfterSuspendHook] else [] in
  match st with
  | AtOnBeforeSuspend => []
  | AtBeforeSuspendRPC => before
  | AtAgentClose => before ++ [BeforeSuspendRPC]
  | AtCreateSnapshot => before ++ [BeforeSuspendRPC; AgentClosed]
  | AtMsync => before ++ [BeforeSuspendRPC; AgentClosed; SnapshotCreated]
  | AtOnAfterSuspend =>
    before ++ [BeforeSuspendRPC; AgentClosed; SnapshotCreated; MsyncVM]
  | AtSetSuspendedVM =>
    before ++ [BeforeSuspendRPC; AgentClosed; SnapshotCreated; MsyncVM] ++ after
  | AtCancelSuspendedVMCtx =>
    before ++ [BeforeSuspendRPC; AgentClosed; SnapshotCreated; MsyncVM] ++ after
      ++ [SuspendedVMSet]
  end.

(** Whether the sequence, standing at [st], has set [suspendedVM]. *)
Definition flag_set_at (st : stage) : bool :=
  match st with AtCancelSuspendedVMCtx => true | _ => false end.

(** The events of the suspend sequence on a trace, in order. *)
Definition suspend_events (tr : list event) : list event :=
  List.filter suspend_event tr.

(** The number of devices whose
    [markDeviceAsReadyForAuthorityTransfer] has run. *)
Definition ready_count (ds : list device) : Z :=
  Z.of_nat (sum_list_with (fun d => if marked_ready d then 1%nat else 0%nat) ds).

(** The device an action belongs to. *)
Definition actor (a : action) : nat :=
  match a with Main d _ | MigrateDirtyDone d | MigratorSend d _ => d end.

(** The goroutine has left the dirty loop through its [break]. *)
Definition after_loop (p : pc) : Prop :=
  match p with
  | WaitForCompletion | SendCompleted | Returned _ => True
  | _ => False
  end.

(** What is known of a device from where it stands. *)
Definition pc_fact (s : state) (d : nat) (ds : device) : Prop :=
  match at_pc ds with
  | GetDirty => wg ds = []
  | SendTransferAuthority => suspendedVM s = true /\ wg ds = []
  | WaitForCompletion =>
    suspendedVM s = true /\ wg ds = [] /\ TransferAuthority d ∈ trace s
  | SendCompleted | Returned None =>
    wg ds = [] /\ in_flight ds = [] /\ TransferAuthority d ∈ trace s
  | _ => True
  end.

(** An environment in which every call succeeds. *)
Definition calm (sample : option (list N)) : env :=
  {| latest_dirty := sample; io_ok := true; ctx_done := false |}.

(** The three claims of the design document that the code does not
    meet, as they are worded. *)

(** The iterations of a dirty loop number at most [MaxCycles + 1]. *)
Definition iterations_bounded_by_max_cycles : Prop :=
  forall cfg s d dev ds,
    reachable cfg s ->
    stage5Inputs cfg !! d = Some dev -> devices s !! d = Some ds ->
    Z.of_nat (length (sampled ds)) <= MaxCycles dev + 1.

(** No [WriteAt] frame of a device follows its [TransferAuthority]. *)
Definition transfer_authority_after_last_write : Prop :=
  forall cfg s d b,
    reachable cfg s ->
    never_after (TransferAuthority d) (WriteAt d b) (trace s).

(** The flag is set and broadcast before [OnAfterSuspend] fires. *)
Definition flag_before_after_hook : Prop :=
  forall h oks,
    always_before SuspendedVMSet OnAfterSuspendHook (suspendAndMsyncVM_body h oks).1 /\
    always_before SuspendedVMCtxCancelled OnAfterSuspendHook
      (suspendAndMsyncVM_body h oks).1.

(** The two orders, decided on a given trace. [seen] tells whether an
    [a] has gone by. *)
Fixpoint always_before_from (a b : event) (seen : bool) (tr : list event) : bool :=
  match tr with
  | [] => true
  | e :: rest =>
    (if bool_decide (e = b) then seen else true)
    && always_before_from a b (seen || bool_decide (e = a)) rest
  end.

Fixpoint never_after_from (a b : event) (seen : bool) (tr : list event) : bool :=
  match tr with
  | [] => true
  | e :: rest =>
    (if seen then negb (bool_decide (e = b)) else true)
    && never_after_from a b (seen || bool_decide (e = a)) rest
  end.

Definition always_before_b (a b : event) (tr : list event) : bool :=
  always_before_from a b false tr.

Definition never_after_b (a b : event) (tr : list event) : bool :=
  never_after_from a b false tr.

Definition option_list {A} (o : option A) : list A :=
  match o with Some a => [a] | None => [] end.


(** ** What holds in every state of a migration *)

(** The counters of a device are those of the policy run over the
    samples it has seen, and it is marked exactly if one of those
    iterations marked it. *)
Definition counters_ok (cfg : config) (s : state) : Prop :=
  forall d ds dev,
    devices s !! d = Some ds -> stage5Inputs cfg !! d = Some dev ->
    counters ds = run dev (sampled ds) cycles0 /\
    marked_ready ds = marked dev (sampled ds) cycles0.

(** How the once-only function, the flag and the trace go together. *)
Definition once_ok (cfg : config) (s : state) : Prop :=
  match suspendAndMsyncVM s with
  | NotCalled =>
    suspend_events (trace s) = [] /\ suspendedVM s = false /\ suspendedVMCtx s = false
  | Running o st =>
    suspend_events (trace s) = emitted_before (hooks cfg) st /\
    suspendedVM s = flag_set_at st /\ suspendedVMCtx s = false /\
    exists ds, devices s !! o = Some ds /\ at_pc ds = CallSuspend
  | Finished None =>
    suspend_events (trace s) = code_sequence (hooks cfg) /\
    suspendedVM s = true /\ suspendedVMCtx s = true
  | Finished (Some _) =>
    (exists st, suspend_events (trace s) = emitted_before (hooks cfg) st) /\
    suspendedVM s = false /\ suspendedVMCtx s = false
  end.

(** A marked device counts for one. *)
Definition ready_bit (ds : device) : nat := if marked_ready ds then 1 else 0.

(** The statements of the sequence that are still to run at [st]. *)
Definition stages_left (st : stage) : nat :=
  match st with
  | AtOnBeforeSuspend => 8
  | AtBeforeSuspendRPC => 7
  | AtAgentClose => 6
  | AtCreateSnapshot => 5
  | AtMsync => 4
  | AtOnAfterSuspend => 3
  | AtSetSuspendedVM => 2
  | AtCancelSuspendedVMCtx => 1
  end%nat.

End MigrateTo.

(** ** A migration of one device, step by step *)
Module Scenario.
Import Policy MigrateTo.

Definition memory : MigrateToDevice :=
  {| Name := "memory"; MaxDirtyBlocks := 2; MinCycles := 2; MaxCycles := 1;
     CycleThrottle := 50000000 |}.

Definition cfg : config :=
  {| stage5Inputs := [memory];
     hooks := {| OnBeforeSuspend := true; OnAfterSuspend := true |};
     MemoryName := "memory" |}.

(** The loop of the device moves on [n] times and samples nothing. *)
Definition quiet (n : nat) : list action := replicate n (Main 0 (calm None)).

(** Three iterations without dirt: the third marks the device. *)
Definition three_cycles : list action := quiet 18.

(** The suspend sequence: the call, its eight statements, the return. *)
Definition suspended : list action := three_cycles ++ quiet 10.

(** After the suspension the guest has left block 3 dirty: the dirty
    list goes out and [MigrateDirty] hands the block to the migrator,
    the next sample is nil and [TransferAuthority] is sent; the migrator
    writes the block after that, and [Completed] closes the migration. *)
Definition late_write : list action :=
  suspended
  ++ quiet 2 ++ [Main 0 (calm (Some [3%N]))] ++ quiet 4
  ++ [MigrateDirtyDone 0]
  ++ quiet 4
  ++ [MigratorSend 0 0]
  ++ quiet 2.

(** A second device, so that the first has to wait for it. *)
Definition disk : MigrateToDevice :=
  {| Name := "disk"; MaxDirtyBlocks := 2; MinCycles := 2; MaxCycles := 20;
     CycleThrottle := 50000000 |}.

Definition cfg2 : config :=
  {| stage5Inputs := [memory; disk];
     hooks := {| OnBeforeSuspend := true; OnAfterSuspend := true |};
     MemoryName := "memory" |}.

End Scenario.

(** ** Making a device migratable *)
Module Migratable.
Import GoInt.

(** [totalBlocks := (int(local.Size()) + int(input.prev.blockSize) - 1)
    / int(input.prev.blockSize)] of [MakeMigratable], the number of
    blocks the orderer is made for; [None] is the run-time panic of a
    division by zero. [size] is a [uint64], [blockSize] a [uint32]. *)
Definition totalBlocks (size blockSize : Z) : option Z :=
  if blockSize =? 0 then None
  else Some (wrap_int (wrap_int (wrap_int (wrap_int size + blockSize) - 1) ÷ blockSize)).

End Migratable.

(** ** The dirty manager over a migration *)
Module DirtyCalls.
Import DirtyManager.

(** The manager as a call finds it when [VMState.CheckSuspendedVM()]
    answers [suspended]: the state of the VM is kept outside the manager
    and changes between the calls. *)
Definition observe (suspended : bool) (dm : DirtyManager) : DirtyManager :=
  {| suspendedVM := suspended;
     Devices := Devices dm;
     ReadyDevices := ReadyDevices dm;
     AuthorityTransferCompleted := AuthorityTransferCompleted dm |}.

(** The calls [PostMigrateDirty(name, blocks)] of a migration in the
    order in which they take the manager, each with the number of its
    blocks and with what [CheckSuspendedVM] answers to it: the manager
    after them and what each call did. *)
Fixpoint run_calls (calls : list (string * Z * bool)) (dm : DirtyManager)
  : DirtyManager * list outcome :=
  match calls with
  | [] => (dm, [])
  | (name, nblocks, suspended) :: rest =>
    let '(dm1, o) := PostMigrateDirty name nblocks (observe suspended dm) in
    let '(dm2, os) := run_calls rest dm1 in
    (dm2, o :: os)
  end.

#[global] Instance outcome_eq_dec : EqDecision outcome.
Proof. solve_decision. Defined.

(** How often the calls ran [SuspendAndMsync] and [AuthorityTransfer]. *)
Definition transfers (os : list outcome) : nat :=
  length (filter (fun o => o = Cycled true) os).

(** Every name in [ReadyDevices] is a device of the manager whose
    status says [Ready]. *)
Definition ready_known (dm : DirtyManager) : Prop :=
  forall name, name ∈ ReadyDevices dm ->
    exists di, Devices dm !! name = Some di /\ Ready di = true.

Definition all_Ready (dm : DirtyManager) : Prop :=
  forall name di, Devices dm !! name = Some di -> Ready di = true.

(** [NewDirtyManager] over two devices as the peer configures them. *)
Definition status0 : DeviceStatus :=
  {| TotalCycles := 0; CycleThrottle := 500000000; MaxDirtyBlocks := 200;
     CyclesBelowDirtyBlockTreshold := 0; MinCycles := 1; MaxCycles := 20;
     Ready := false |}.

Definition manager0 : DirtyManager :=
  {| suspendedVM := false;
     Devices := {[ "memory" := status0; "disk" := status0 ]};
     ReadyDevices := ∅;
     AuthorityTransferCompleted := false |}.

End DirtyCalls.

(** ** Runs of quiet samples *)
Module Window.
Import Policy.

(** The number of samples below [MaxDirtyBlocks] at the end of
    [samples], counted as the loop counts them: one more for a sample
    below the threshold, back to 0 for any other. *)
Definition calm_run (dev : MigrateToDevice) (samples : list Z) : Z :=
  foldl (fun acc n => if n <? MaxDirtyBlocks dev then acc + 1 else 0) 0 samples.

(** Some run of consecutive samples below [MaxDirtyBlocks] is longer
    than [MinCycles]. *)
Definition calm_window (dev : MigrateToDevice) (samples : list Z) : Prop :=
  exists before w rest,
    samples = before ++ w ++ rest /\ w <> [] /\
    Forall (fun n => n < MaxDirtyBlocks dev) w /\
    MinCycles dev < Z.of_nat (length w).

(** Some sample at or above [MaxDirtyBlocks] comes in an iteration after
    the first [MaxCycles]. *)
Definition forced (dev : MigrateToDevice) (samples : list Z) : Prop :=
  exists before n rest,
    samples = before ++ n :: rest /\ MaxDirtyBlocks dev <= n /\
    MaxCycles dev < Z.of_nat (length before) + 1.

Definition slow_disk : MigrateToDevice :=
  {| Name := "disk"; MaxDirtyBlocks := 200; MinCycles := 2; MaxCycles := 4;
     CycleThrottle := 500000000 |}.

End Window.

(** ** A migration whose suspend sequence fails *)
Module ScenarioMore.
Import Policy MigrateTo Scenario.

Definition stormy : env :=
  {| latest_dirty := None; io_ok := false; ctx_done := false |}.

(** The device becomes ready and calls [suspendAndMsyncVM]; the agent
    is closed and the snapshot is made, then [Msync] fails. *)
Definition failed_msync : list action :=
  three_cycles ++ quiet 5 ++ [Main 0 stormy].

End ScenarioMore.

(** ** Bringing a device to its end *)
Module Finish.
Import Policy MigrateTo.

(** The statements between a device and its return, once the VM is
    suspended and the samples are nil. *)
Definition pc_rank (p : pc) : nat :=
  match p with
  | Returned _ => 0
  | SendCompleted => 1
  | WaitForCompletion => 2
  | SendTransferAuthority => 3
  | GetDirty => 4
  | WgWait => 5
  | LoopHead => 6
  | CallSuspend => 7
  | CheckReady => 8
  | ApplyPolicy _ => 9
  | Throttle _ => 10
  end.

(** A bound on the steps a device still takes: its statements, the
    [MigrateDirty] goroutines it waits for and the blocks the migrator
    still has to write for it. *)
Definition steps_left (ds : device) : nat :=
  pc_rank (at_pc ds) + length (wg ds) + length (concat (wg ds))
  + length (in_flight ds).

(** What moves device [d] on: the end of a [MigrateDirty] goroutine it
    waits for, a write of the migrator it waits for, or its own next
    statement, with a nil sample and no failure. *)
Definition next_action (d : nat) (ds : device) : action :=
  match at_pc ds, wg ds, in_flight ds with
  | WgWait, _ :: _, _ => MigrateDirtyDone d
  | WaitForCompletion, _, _ :: _ => MigratorSend d 0
  | _, _, _ => Main d (calm None)
  end.

(** The schedule that lets device [d] alone run until it has returned. *)
Fixpoint finish (fuel : nat) (cfg : config) (d : nat) (s : state) : list action :=
  match fuel with
  | O => []
  | S fuel =>
    match devices s !! d with
    | Some ds =>
      match at_pc ds with
      | Returned _ => []
      | _ => next_action d ds :: finish fuel cfg d (step cfg s (next_action d ds))
      end
    | None => []
    end
  end.

End Finish.

(** ** The device node of an exposed device *)
Module DeviceNode.
Import GoInt.

(** [deviceMajor := uint64(deviceStat.Rdev / 256)],
    [deviceMinor := uint64(deviceStat.Rdev % 256)] and
    [deviceID := int((deviceMajor << 8) | deviceMinor)], the number the
    callbacks of [MigrateFrom] of package roles hand to [unix.Mknod].
    [rdev] is a [uint64]. *)
Definition deviceID (rdev : Z) : Z :=
  let deviceMajor := wrap_uint64 (rdev / 256) in
  let deviceMinor := wrap_uint64 (rdev mod 256) in
  wrap_int (Z.lor (wrap_uint64 (Z.shiftl deviceMajor 8)) deviceMinor).

(** [int(deviceStat.Rdev)], the number [exposeSiloDeviceAsFile] of
    package peer hands to [unix.Mknod]. *)
Definition exposed_deviceID (rdev : Z) : Z := wrap_int rdev.

End DeviceNode.

(** ** From one stage of the peer to the next *)
Module Stages.

Section join.
Context {I D : Type} (iname : I -> string) (dname : D -> string).

(** [var found *D; for _, device := range devices { if device.Name ==
    name { found = &device; break } }]: the first device of the name. *)
Fixpoint first_named (devices : list D) (n : string) : option D :=
  match devices with
  | [] => None
  | device :: rest =>
    if String.eqb (dname device) n then Some device else first_named rest n
  end.

(** The loop that makes [stage3Inputs] in [MakeMigratable] and
    [stage5Inputs] in [MigrateTo]: every input of the stage before is
    paired with the first device of its name; an input no device is
    named after is passed over. *)
Fixpoint next_stage (inputs : list I) (devices : list D) : list (I * D) :=
  match inputs with
  | [] => []
  | input :: rest =>
    match first_named devices (iname input) with
    | Some device => (input, device) :: next_stage rest devices
    | None => next_stage rest devices
    end
  end.

End join.

(** Three devices of a peer, of which the caller of [MigrateTo] names
    two, one of them twice. *)
Definition stage4_names : list string := ["state"; "memory"; "disk"].

Definition migrate_to : list Policy.MigrateToDevice :=
  [ {| Policy.Name := "disk"; Policy.MaxDirtyBlocks := 200; Policy.MinCycles := 5;
       Policy.MaxCycles := 20; Policy.CycleThrottle := 500000000 |};
    {| Policy.Name := "memory"; Policy.MaxDirtyBlocks := 200; Policy.MinCycles := 5;
       Policy.MaxCycles := 20; Policy.CycleThrottle := 500000000 |};
    {| Policy.Name := "disk"; Policy.MaxDirtyBlocks := 1; Policy.MinCycles := 0;
       Policy.MaxCycles := 0; Policy.CycleThrottle := 0 |} ].

End Stages.

(** ** Announcing the devices: [DevInfo] and [AllDevicesSent]

  The head of the function [MigrateTo] maps over [stage5Inputs], one
  goroutine per device: it sends the [DevInfo] of the device, adds one
  to the atomic counter [devicesLeftToSend], loads the counter, and
  when the load is not below the number of devices it starts a
  goroutine that sends [AllDevicesSent]. *)
Module DevicesSent.
Import GoInt.

Inductive event :=
| DevInfoSent (index : nat)
| OnDeviceSentHook (index : nat)
| AllDevicesSent (index : nat)        (* sent through the [to] of device [index] *)
| OnAllDevicesSentHook.

#[global] Instance event_eq_dec : EqDecision event.
Proof. solve_decision. Defined.

Inductive pc :=
| SendDevInfo
| AddSent                             (* devicesLeftToSend.Add(1) *)
| LoadSent                            (* devicesLeftToSend.Load() >= int32(len(stage5Inputs)) *)
| Started                             (* the handlers and the migration of the device *)
| Failed.                             (* returned ErrCouldNotSendDevInfo *)

#[global] Instance pc_eq_dec : EqDecision pc.
Proof. solve_decision. Defined.

(** Which hooks are set. *)
Record hooks := {
  OnDeviceSent : bool;
  OnAllDevicesSent : bool
}.

(** [pending] holds the goroutines that were started to send
    [AllDevicesSent] and have not run yet, [started] every device that
    started one (a history kept for the statements). *)
Record state := {
  pcs : list pc;
  devicesLeftToSend : Z;
  pending : list nat;
  started : list nat;
  panicked : bool;                    (* ErrCouldNotSendAllDevicesSentEvent *)
  trace : list event
}.

Inductive action :=
| Main (d : nat) (ok : bool)          (* the goroutine of device [d] moves on *)
| Sender (i : nat) (ok : bool).       (* the [i]-th pending sender runs *)

Definition init (n : nat) : state :=
  {| pcs := replicate n SendDevInfo; devicesLeftToSend := 0; pending := [];
     started := []; panicked := false; trace := [] |}.

Definition step (h : hooks) (s : state) (a : action) : state :=
  match a with
  | Main d ok =>
    match pcs s !! d with
    | Some SendDevInfo =>
      if ok then
        {| pcs := <[d := AddSent]> (pcs s);
           devicesLeftToSend := devicesLeftToSend s;
           pending := pending s; started := started s; panicked := panicked s;
           trace := trace s ++ DevInfoSent d
                      :: (if OnDeviceSent h then [OnDeviceSentHook d] else []) |}
      else
        {| pcs := <[d := Failed]> (pcs s);
           devicesLeftToSend := devicesLeftToSend s;
           pending := pending s; started := started s; panicked := panicked s;
           trace := trace s |}
    | Some AddSent =>
      {| pcs := <[d := LoadSent]> (pcs s);
         devicesLeftToSend := wrap_int32 (devicesLeftToSend s + 1);
         pending := pending s; started := started s; panicked := panicked s;
         trace := trace s |}
    | Some LoadSent =>
      let all := wrap_int32 (Z.of_nat (length (pcs s))) <=? devicesLeftToSend s in
      {| pcs := <[d := Started]> (pcs s);
         devicesLeftToSend := devicesLeftToSend s;
         pending := if all then pending s ++ [d] else pending s;
         started := if all then started s ++ [d] else started s;
         panicked := panicked s;
         trace := trace s |}
    | _ => s
    end
  | Sender i ok =>
    match pending s !! i with
    | Some d =>
      {| pcs := pcs s;
         devicesLeftToSend := devicesLeftToSend s;
         pending := delete i (pending s);
         started := started s;
         panicked := panicked s || negb ok;
         trace :=
           if ok
           then trace s ++ AllDevicesSent d
                  :: (if OnAllDevicesSent h then [OnAllDevicesSentHook] else [])
           else trace s |}
    | None => s
    end
  end.

Definition exec (h : hooks) (s : state) (sched : list action) : state :=
  foldl (step h) s sched.

(** The states the announcement of [n] devices can be in. *)
Definition reachable (n : nat) (h : hooks) (s : state) : Prop :=
  exists sched, s = exec h (init n) sched.

(** Every [b] on the trace has an [a] before it. *)
Definition before (a b : event) (tr : list event) : Prop :=
  forall l1 l2, tr = l1 ++ b :: l2 -> a ∈ l1.

(** How often [AllDevicesSent] is on the trace. *)
Definition is_all_sent (e : event) : bool :=
  match e with AllDevicesSent _ => true | _ => false end.

Definition all_sent (tr : list event) : nat :=
  length (filter (fun e => is_all_sent e = true) tr).

(** The devices that have added themselves to the counter. *)
Definition counted (p : pc) : bool :=
  match p with LoadSent | Started => true | _ => false end.

(** The number of devices that have added themselves. *)
Definition count (l : list pc) : Z :=
  Z.of_nat (length (filter (fun p => counted p = true) l)).


(** What a device has behind it. *)
Definition pc_sent (s : state) : Prop :=
  forall d p, pcs s !! d = Some p ->
    match p with
    | AddSent | LoadSent | Started => DevInfoSent d ∈ trace s
    | _ => True
    end.


(** The devices that started a sender: each once, each past its load,
    and none before every device had sent its [DevInfo]. *)
Definition started_ok (n : nat) (s : state) : Prop :=
  NoDup (started s) /\
  (forall d, d ∈ started s -> pcs s !! d = Some Started) /\
  (forall d, d ∈ pending s -> d ∈ started s) /\
  (started s <> [] -> forall d, (d < n)%nat -> DevInfoSent d ∈ trace s) /\
  (all_sent (trace s) + length (pending s) <= length (started s))%nat.

(** Two devices: both add before either loads. *)
Definition both_see_all : list action :=
  [Main 0 true; Main 1 true; Main 0 true; Main 1 true; Main 0 true; Main 1 true;
   Sender 0 true; Sender 0 true].

End DevicesSent.

(** ** The runner: suspending the VM *)
Module Runner.

Inductive snapshot_type :=
| SnapshotTypeFull
| SnapshotTypeMsync
| SnapshotTypeMsyncAndState.

(** The calls [SuspendAndCloseAgentServer] makes. *)
Inductive call :=
| BeforeSuspend                               (* acceptingAgent.Remote.BeforeSuspend *)
| CloseAcceptingAgent                         (* acceptingAgent.Close *)
| CloseAgent                                  (* agent.Close, which returns nothing *)
| CreateSnapshot (state memory : string) (t : snapshot_type)
| Open (path : string)                        (* os.Open *)
| OpenTruncate (path : string)                (* os.OpenFile, O_TRUNC|O_WRONLY *)
| Copy (output input : string)                (* io.Copy(outputFile, inputFile) *)
| CloseFile (path : string).                  (* the deferred Close of a file *)

#[global] Instance snapshot_type_eq_dec : EqDecision snapshot_type.
Proof. solve_decision. Defined.

#[global] Instance call_eq_dec : EqDecision call.
Proof. solve_decision. Defined.

Inductive error :=
| ErrCouldNotCallBeforeSuspendRPC
| ErrCouldNotCloseAcceptingAgent
| ErrCouldNotCreateSnapshot
| ErrCouldNotOpenInputFile
| ErrCouldNotOpenOutputFile
| ErrCouldNotCopyFile.

(** What [Resume] closes over: whether the memory is mapped shared, the
    names of the state and of the memory, the directory of the VM, and
    [filepath.Join]. *)
Record runner := {
  mapShared : bool;
  stateName : string;
  memoryName : string;
  VMPath : string;
  Join : string -> string -> string
}.

(** [resumedRunner.SuspendAndCloseAgentServer]: the calls it makes, in
    order, the failing one included, and the error it returns.
    [memoryCopyName] is the [shortuuid.New()] of the call, [fails]
    tells the calls that return an error. *)
Definition SuspendAndCloseAgentServer (r : runner) (memoryCopyName : string)
    (fails : call -> bool) : list call * option error :=
  if fails BeforeSuspend then
    ([BeforeSuspend], Some ErrCouldNotCallBeforeSuspendRPC)
  else if fails CloseAcceptingAgent then
    ([BeforeSuspend; CloseAcceptingAgent], Some ErrCouldNotCloseAcceptingAgent)
  else
    let closed := [BeforeSuspend; CloseAcceptingAgent; CloseAgent] in
    if mapShared r then
      let snapshot := CreateSnapshot (stateName r) "" SnapshotTypeMsyncAndState in
      (closed ++ [snapshot],
       if fails snapshot then Some ErrCouldNotCreateSnapshot else None)
    else
      let snapshot := CreateSnapshot (stateName r) memoryCopyName SnapshotTypeFull in
      let input := Join r (VMPath r) memoryCopyName in
      let output := Join r (VMPath r) (memoryName r) in
      if fails snapshot then (closed ++ [snapshot], Some ErrCouldNotCreateSnapshot)
      else if fails (Open input) then
        (closed ++ [snapshot; Open input], Some ErrCouldNotOpenInputFile)
      else if fails (OpenTruncate output) then
        (closed ++ [snapshot; Open input; OpenTruncate output; CloseFile input],
         Some ErrCouldNotOpenOutputFile)
      else
        (closed ++ [snapshot; Open input; OpenTruncate output; Copy output input;
                    CloseFile output; CloseFile input],
         if fails (Copy output input) then Some ErrCouldNotCopyFile else None).

(** The calls that can fail, of those a run made. *)
Definition fallible (c : call) : bool :=
  match c with CloseAgent | CloseFile _ => false | _ => true end.

End Runner.

(** ** Devices from the local file system: [migrateFromFS] *)
Module FromFS.
Import Schema.

(** What [migrateFromFS] does besides making the schemas. *)
Inductive call :=
| Expose (name devicePath : string)           (* exposeSiloDeviceAsFile *)
| NewFromSchema (schemas : list DeviceSchema).

Inductive failure :=
| Known (e : error)
| FromSilo.                                   (* the error of devicegroup.NewFromSchema *)

(** The group [devicegroup.NewFromSchema] makes: whether it can be made,
    and the path of the device it exposes under a name
    ([filepath.Join("/dev", dev.Device())]). *)
Record silo := {
  new_group : list DeviceSchema -> bool;
  device_path : string -> string
}.

(** The first loop: shared devices are exposed from their base as they
    are, for the others a schema is made. [done] and [log] are the
    schemas and the calls so far. *)
Fixpoint scan (fs : filesystem) (devices : list MigrateFromDevice)
    (done : list DeviceSchema) (log : list call)
  : list call * (failure + list DeviceSchema) :=
  match devices with
  | [] => (log, inr done)
  | input :: rest =>
    if Shared input then
      let log := log ++ [Expose (Name input) (Base input)] in
      match expose fs (Name input) (Base input) with
      | Some e => (log, inl (Known e))
      | None => scan fs rest done log
      end
    else
      match createSiloDevSchema fs input with
      | inl e => (log, inl (Known e))
      | inr ds => scan fs rest (done ++ [ds]) log
      end
  end.

(** The last loop: every device of the group is exposed. *)
Fixpoint expose_all (fs : filesystem) (g : silo) (schemas : list DeviceSchema)
    (log : list call) : list call * option failure :=
  match schemas with
  | [] => (log, None)
  | input :: rest =>
    let path := device_path g (ds_Name input) in
    let log := log ++ [Expose (ds_Name input) path] in
    match expose fs (ds_Name input) path with
    | Some e => (log, Some (Known e))
    | None => expose_all fs g rest log
    end
  end.

(** [migrateFromFS]: the calls it made, and the schemas of the group it
    returns or its error. *)
Definition migrateFromFS (fs : filesystem) (g : silo)
    (devices : list MigrateFromDevice)
  : list call * (failure + list DeviceSchema) :=
  match scan fs devices [] [] with
  | (log, inl e) => (log, inl e)
  | (log, inr siloDeviceSchemas) =>
    let log := log ++ [NewFromSchema siloDeviceSchemas] in
    if new_group g siloDeviceSchemas then
      match expose_all fs g siloDeviceSchemas log with
      | (log, Some e) => (log, inl e)
      | (log, None) => (log, inr siloDeviceSchemas)
      end
    else (log, inl FromSilo)
  end.

(** The names a log exposes, in order. *)
Definition exposed (log : list call) : list string :=
  omap (fun c => match c with Expose name _ => Some name | _ => None end) log.

Definition shared_oci : MigrateFromDevice :=
  {| Name := "oci"; Base := "out/package/oci.ext4"; Overlay := ""; State := "";
     BlockSize := 65536; Shared := true |}.

Definition silo_ok : silo :=
  {| new_group := fun _ => true;
     device_path := fun name => ("/dev/nbd-" ++ name)%string |}.

End FromFS.

(** ** The destination: when all remote devices are ready *)
Module Readiness.
Import GoInt.

(** What changes the atomic counter [receivedButNotReadyRemoteDevices]
    of [MigrateFrom], in the order in which the changes take effect. *)
Inductive op :=
| Received               (* a [DevInfo] callback past the check of the name: [Add(1)] *)
| AuthorityReceived.     (* an [EventCustomTransferAuthority]: [Add(-1)] *)

#[global] Instance op_eq_dec : EqDecision op.
Proof. solve_decision. Defined.

(** The counter, and whether [cancelAllRemoteDevicesReadyCtx] was called
    by the handler of the events. *)
Record readiness := {
  receivedButNotReadyRemoteDevices : Z;
  allRemoteDevicesReady : bool
}.

Definition readiness0 : readiness :=
  {| receivedButNotReadyRemoteDevices := 0; allRemoteDevicesReady := false |}.

(** [receivedButNotReadyRemoteDevices.Add(1)] of the callback, and
    [if receivedButNotReadyRemoteDevices.Add(-1) <= 0
    { cancelAllRemoteDevicesReadyCtx() }] of the event handler. *)
Definition apply_op (s : readiness) (o : op) : readiness :=
  match o with
  | Received =>
    {| receivedButNotReadyRemoteDevices :=
         wrap_int32 (receivedButNotReadyRemoteDevices s + 1);
       allRemoteDevicesReady := allRemoteDevicesReady s |}
  | AuthorityReceived =>
    let left := wrap_int32 (receivedButNotReadyRemoteDevices s - 1) in
    {| receivedButNotReadyRemoteDevices := left;
       allRemoteDevicesReady := allRemoteDevicesReady s || (left <=? 0) |}
  end.

Definition run_ops (ops : list op) : readiness := foldl apply_op readiness0 ops.

(** How many of the operations are [o]. *)
Definition occurrences (o : op) (ops : list op) : Z :=
  Z.of_nat (length (filter (fun x => x = o) ops)).

End Readiness.

(** ** The destination: events and [Wait] *)
Module Destination.
Import GoInt Readiness.

(** A [packets.Event], by its type and, for a custom event, its
    [CustomType] byte. *)
Inductive event :=
| EventCustom (customType : Z)
| EventCompleted
| EventOther.

#[global] Instance event_eq_dec : EqDecision event.
Proof. solve_decision. Defined.

(** The two custom types the handler knows; they are different
    constants. *)
Record custom_types := {
  EventCustomAllDevicesSent : Z;
  EventCustomTransferAuthority : Z
}.

Inductive hook_call :=
| OnRemoteAllDevicesReceived
| OnRemoteDeviceAuthorityReceived (index : Z)
| OnRemoteDeviceMigrationCompleted (index : Z)
| OnRemoteAllMigrationsCompleted.

#[global] Instance hook_call_eq_dec : EqDecision hook_call.
Proof. solve_decision. Defined.

(** Which hooks of [MigrateFromHooks] are set. *)
Record hooks := {
  hasOnRemoteAllDevicesReceived : bool;
  hasOnRemoteDeviceAuthorityReceived : bool;
  hasOnRemoteDeviceMigrationCompleted : bool;
  hasOnRemoteAllMigrationsCompleted : bool
}.

(** The two contexts of [MigrateFrom] (done or not), the counter, the
    hooks called so far, and the value of [migratedPeer.Wait] once it
    ran (it is a [sync.OnceValue]; [Some true] stands for nil). *)
Record dest := {
  allRemoteDevicesReceived : bool;
  ready : readiness;
  called : list hook_call;
  waited : option bool
}.

Definition dest0 : dest :=
  {| allRemoteDevicesReceived := false; ready := readiness0; called := [];
     waited := None |}.

Definition call (set : bool) (c : hook_call) (st : dest) : dest :=
  {| allRemoteDevicesReceived := allRemoteDevicesReceived st;
     ready := ready st;
     called := if set then called st ++ [c] else called st;
     waited := waited st |}.

(** The callback of [from.HandleEvent] for the device [index]. *)
Definition on_event (cs : custom_types) (h : hooks) (index : Z) (e : event)
    (st : dest) : dest :=
  match e with
  | EventCustom customType =>
    if customType =? EventCustomAllDevicesSent cs then
      call (hasOnRemoteAllDevicesReceived h) OnRemoteAllDevicesReceived
        {| allRemoteDevicesReceived := true; ready := ready st;
           called := called st; waited := waited st |}
    else if customType =? EventCustomTransferAuthority cs then
      call (hasOnRemoteDeviceAuthorityReceived h)
        (OnRemoteDeviceAuthorityReceived index)
        {| allRemoteDevicesReceived := allRemoteDevicesReceived st;
           ready := apply_op (ready st) AuthorityReceived;
           called := called st; waited := waited st |}
    else st
  | EventCompleted =>
    call (hasOnRemoteDeviceMigrationCompleted h)
      (OnRemoteDeviceMigrationCompleted index) st
  | EventOther => st
  end.

(** [migratedPeer.Wait]: [handled] tells whether [pro] is nil or
    [pro.Handle()] ended without an error (an [io.EOF] counts as none). *)
Definition Wait (h : hooks) (handled : bool) (st : dest) : dest :=
  match waited st with
  | Some _ => st
  | None =>
    if negb handled then
      {| allRemoteDevicesReceived := allRemoteDevicesReceived st;
         ready := ready st; called := called st; waited := Some false |}
    else
      let st1 :=
        if allRemoteDevicesReceived st then st
        else
          call (hasOnRemoteAllDevicesReceived h) OnRemoteAllDevicesReceived
            {| allRemoteDevicesReceived := true; ready := ready st;
               called := called st; waited := waited st |} in
      let st2 :=
        {| allRemoteDevicesReceived := allRemoteDevicesReceived st1;
           ready := {| receivedButNotReadyRemoteDevices :=
                         receivedButNotReadyRemoteDevices (ready st1);
                       allRemoteDevicesReady := true |};
           called := called st1; waited := waited st1 |} in
      let st3 :=
        call (hasOnRemoteAllMigrationsCompleted h) OnRemoteAllMigrationsCompleted st2 in
      {| allRemoteDevicesReceived := allRemoteDevicesReceived st3;
         ready := ready st3; called := called st3; waited := Some true |}
  end.

(** What happens at the destination, one callback or one call of [Wait]
    at a time, in the order in which they take effect. *)
Inductive action :=
| Event (index : Z) (e : event)
| CallWait (handled : bool).

Definition act (cs : custom_types) (h : hooks) (st : dest) (a : action) : dest :=
  match a with
  | Event index e => on_event cs h index e st
  | CallWait handled => Wait h handled st
  end.

Definition run (cs : custom_types) (h : hooks) (acts : list action) : dest :=
  foldl (act cs h) dest0 acts.

(** How often a hook was called. *)
Definition times (c : hook_call) (st : dest) : nat :=
  length (filter (fun x => x = c) (called st)).

Definition is_all_devices_sent (cs : custom_types) (a : action) : bool :=
  match a with
  | Event _ (EventCustom customType) => customType =? EventCustomAllDevicesSent cs
  | _ => false
  end.

(** How many of the actions are [AllDevicesSent] events. *)
Definition all_devices_sent_events (cs : custom_types) (acts : list action) : nat :=
  length (filter (fun a => is_all_devices_sent cs a = true) acts).

Definition all_hooks : hooks :=
  {| hasOnRemoteAllDevicesReceived := true;
     hasOnRemoteDeviceAuthorityReceived := true;
     hasOnRemoteDeviceMigrationCompleted := true;
     hasOnRemoteAllMigrationsCompleted := true |}.

(** Whether the first call of [Wait] ends well and finds that no
    [AllDevicesSent] has arrived before it: the one case in which [Wait]
    calls [OnRemoteAllDevicesReceived] itself. *)
Fixpoint wait_calls_hook (cs : custom_types) (acts : list action) : bool :=
  match acts with
  | [] => false
  | CallWait handled :: _ => handled
  | a :: rest =>
    if is_all_devices_sent cs a then false else wait_calls_hook cs rest
  end.

(** Neither a call of [Wait] nor an [AllDevicesSent] among the actions. *)
Definition untouched (cs : custom_types) (acts : list action) : bool :=
  forallb (fun a => match a with
                    | CallWait _ => false
                    | _ => negb (is_all_devices_sent cs a)
                    end) acts.

(** The count of the calls of [OnRemoteAllDevicesReceived]. *)
Definition counted (cs : custom_types) (h : hooks) (acts : list action) : Prop :=
  let st := run cs h acts in
  untouched cs acts =
    match waited st with
    | None => negb (allRemoteDevicesReceived st)
    | Some _ => false
    end /\
  (hasOnRemoteAllDevicesReceived h = true ->
     times OnRemoteAllDevicesReceived st =
     (all_devices_sent_events cs acts
      + (if wait_calls_hook cs acts then 1 else 0))%nat).

(** What every run keeps: the invariant behind the counts of the hooks. *)
Definition kept (cs : custom_types) (h : hooks) (acts : list action) : Prop :=
  let st := run cs h acts in
  let n := all_devices_sent_events cs acts in
  let k := times OnRemoteAllDevicesReceived st in
  (hasOnRemoteAllDevicesReceived h = true ->
     (n <= k <= n + 1)%nat /\
     (allRemoteDevicesReceived st = true -> (1 <= k)%nat) /\
     (waited st <> Some true -> k = n)) /\
  (hasOnRemoteAllDevicesReceived h = false -> k = 0%nat) /\
  ((0 < n)%nat -> allRemoteDevicesReceived st = true) /\
  (waited st = None -> allRemoteDevicesReceived st = true -> (0 < n)%nat) /\
  (waited st = Some true ->
     allRemoteDevicesReceived st = true /\ allRemoteDevicesReady (ready st) = true) /\
  (hasOnRemoteAllMigrationsCompleted h = true ->
     times OnRemoteAllMigrationsCompleted st =
     match waited st with Some true => 1%nat | _ => 0%nat end) /\
  (hasOnRemoteAllMigrationsCompleted h = false ->
     times OnRemoteAllMigrationsCompleted st = 0%nat).

End Destination.

(** * Properties *)

Module GoIntFacts.
Import GoInt.

Lemma wrap_int_small z : int_min <= z <= int_max -> wrap_int z = z.
Proof.
  unfold wrap_int, wrap_signed, int_min, int_max. intros H.
  rewrite Z.mod_small; lia.
Qed.

Lemma wrap_int32_small z : - 2 ^ 31 <= z < 2 ^ 31 -> wrap_int32 z = z.
Proof.
  unfold wrap_int32, wrap_signed. intros H.
  rewrite Z.mod_small; lia.
Qed.

Lemma wrap_uint64_small z : 0 <= z < 2 ^ 64 -> wrap_uint64 z = z.
Proof. unfold wrap_uint64. intros H. apply Z.mod_small; lia. Qed.

End GoIntFacts.

Module PolicyFacts.
Import GoInt GoIntFacts Policy.

Lemma policy_total dev n c :
  totalCycles (fst (policy dev n c)) = wrap_int (totalCycles c + 1).
Proof. unfold policy. repeat case_match; reflexivity. Qed.

(** The number of iterations is what [totalCycles] holds, as long as it
    fits an [int]. *)
Lemma run_total dev samples : forall c,
  0 <= totalCycles c ->
  totalCycles c + Z.of_nat (length samples) <= int_max ->
  totalCycles (run dev samples c) = totalCycles c + Z.of_nat (length samples).
Proof.
  induction samples as [|n rest IH]; intros c H0 Hmax; simpl.
  - lia.
  - simpl length in Hmax. rewrite IH; rewrite policy_total, wrap_int_small;
      unfold int_min, int_max in *; lia.
Qed.

Lemma policy_below_bounds dev n c :
  0 <= cyclesBelowDirtyBlockTreshold c <= totalCycles c ->
  totalCycles c < int_max ->
  0 <= cyclesBelowDirtyBlockTreshold (fst (policy dev n c))
    <= totalCycles (fst (policy dev n c)).
Proof.
  intros Hb Hmax. unfold policy.
  repeat case_match; simpl; rewrite ?wrap_int_small;
    unfold int_min, int_max in *; lia.
Qed.

Lemma run_below_bounds dev samples : forall c,
  0 <= cyclesBelowDirtyBlockTreshold c <= totalCycles c ->
  totalCycles c + Z.of_nat (length samples) <= int_max ->
  0 <= cyclesBelowDirtyBlockTreshold (run dev samples c)
    <= totalCycles (run dev samples c).
Proof.
  induction samples as [|n rest IH]; intros c Hb Hmax; simpl.
  - lia.
  - simpl length in Hmax. apply IH.
    + apply policy_below_bounds; lia.
    + rewrite policy_total, wrap_int_small; unfold int_min, int_max in *; lia.
Qed.

(** Where no counter overflows, the code computes the documented policy. *)
Lemma policy_refines_spec dev n c :
  0 <= cyclesBelowDirtyBlockTreshold c <= totalCycles c ->
  totalCycles c < int_max ->
  policy dev n c = spec_policy dev n c.
Proof.
  intros Hb Hmax. unfold policy, spec_policy.
  rewrite !wrap_int_small by (unfold int_min, int_max in *; lia).
  destruct (Z.ltb_spec n (MaxDirtyBlocks dev)).
  - rewrite bool_decide_eq_true_2 by done. f_equal.
    destruct (Z.ltb_spec (MinCycles dev) (cyclesBelowDirtyBlockTreshold c + 1)).
    + symmetry. apply bool_decide_eq_true_2. lia.
    + symmetry. apply bool_decide_eq_false_2. lia.
  - rewrite bool_decide_eq_false_2 by lia.
    destruct (Z.ltb_spec (MaxCycles dev) (totalCycles c + 1)).
    + rewrite bool_decide_eq_true_2 by lia. reflexivity.
    + rewrite bool_decide_eq_false_2 by lia. reflexivity.
Qed.

Lemma run_app dev l1 : forall l2 c,
  run dev (l1 ++ l2) c = run dev l2 (run dev l1 c).
Proof. induction l1 as [|n l1 IH]; intros l2 c; simpl; [done | apply IH]. Qed.

Lemma marked_app dev l1 : forall l2 c,
  marked dev (l1 ++ l2) c = marked dev l1 c || marked dev l2 (run dev l1 c).
Proof.
  induction l1 as [|n l1 IH]; intros l2 c; simpl; [done |].
  rewrite IH. apply orb_assoc.
Qed.

Lemma run_snoc dev l n c :
  run dev (l ++ [n]) c = fst (policy dev n (run dev l c)).
Proof. rewrite run_app. reflexivity. Qed.

Lemma marked_snoc dev l n c :
  marked dev (l ++ [n]) c = marked dev l c || snd (policy dev n (run dev l c)).
Proof. rewrite marked_app. simpl. rewrite orb_false_r. reflexivity. Qed.

(** As long as the device is not marked, the count of cycles below the
    threshold stays within [MinCycles]. *)
Lemma unmarked_below dev samples : forall c,
  0 <= cyclesBelowDirtyBlockTreshold c <= MinCycles dev ->
  MinCycles dev < int_max ->
  marked dev samples c = true \/
  0 <= cyclesBelowDirtyBlockTreshold (run dev samples c) <= MinCycles dev.
Proof.
  induction samples as [|n rest IH]; intros c Hb Hm; simpl; [by right |].
  destruct (snd (policy dev n c)) eqn:Hr; [by left |]. simpl.
  apply IH; [| done]. revert Hr. unfold policy.
  repeat case_match; simpl; rewrite ?wrap_int_small;
    unfold int_min, int_max in *; try lia; try discriminate.
Qed.

Lemma unmarked_past_max dev samples : forall c,
  0 <= totalCycles c ->
  MaxCycles dev <= totalCycles c ->
  0 <= cyclesBelowDirtyBlockTreshold c <= MinCycles dev ->
  MinCycles dev < int_max ->
  totalCycles c + Z.of_nat (length samples) <= int_max ->
  marked dev samples c = true \/
  cyclesBelowDirtyBlockTreshold (run dev samples c)
    = cyclesBelowDirtyBlockTreshold c + Z.of_nat (length samples).
Proof.
  induction samples as [|n rest IH]; intros c H0 Ht Hb Hm Hmax; simpl; [right; lia |].
  simpl length in Hmax.
  destruct (snd (policy dev n c)) eqn:Hr; [by left |]. simpl.
  assert (Hstep : cyclesBelowDirtyBlockTreshold (fst (policy dev n c))
                  = cyclesBelowDirtyBlockTreshold c + 1
                /\ totalCycles (fst (policy dev n c)) = totalCycles c + 1
                /\ cyclesBelowDirtyBlockTreshold c + 1 <= MinCycles dev).
  { revert Hr. unfold policy.
    rewrite !wrap_int_small by (unfold int_min, int_max in *; lia).
    unfold int_max in *.
    repeat case_match; simpl; intros Hr; try discriminate; lia. }
  destruct Hstep as (Hb' & Ht' & Hle).
  destruct (IH (fst (policy dev n c))) as [Hm'|Heq]; [lia..| by left |].
  right. rewrite Heq, Hb'. lia.
Qed.

(** A device is marked ready within [MaxCycles + MinCycles + 1]
    iterations, whatever the samples are. *)
Lemma marked_within dev samples :
  0 <= MinCycles dev -> 0 <= MaxCycles dev ->
  MaxCycles dev + MinCycles dev + 1 < int_max ->
  Z.of_nat (length samples) = MaxCycles dev + MinCycles dev + 1 ->
  marked dev samples cycles0 = true.
Proof.
  intros Hmin Hmax Hfit Hlen.
  rewrite <- (take_drop (Z.to_nat (MaxCycles dev)) samples).
  rewrite marked_app.
  set (l1 := take (Z.to_nat (MaxCycles dev)) samples).
  set (l2 := drop (Z.to_nat (MaxCycles dev)) samples).
  assert (Hl1 : Z.of_nat (length l1) = MaxCycles dev)
    by (unfold l1; rewrite length_take; lia).
  assert (Hl2 : Z.of_nat (length l2) = MinCycles dev + 1)
    by (unfold l2; rewrite length_drop; lia).
  assert (Hm : MinCycles dev < int_max) by lia.
  destruct (unmarked_below dev l1 cycles0) as [->|Hb]; [simpl; lia | done | done |].
  assert (Ht : totalCycles (run dev l1 cycles0) = MaxCycles dev).
  { rewrite run_total; simpl; unfold int_max in *; lia. }
  destruct (unmarked_past_max dev l2 (run dev l1 cycles0)) as [->|Heq];
    [lia..| apply orb_true_r |].
  destruct (unmarked_below dev l2 (run dev l1 cycles0)) as [->|Hb2];
    [lia..| apply orb_true_r |].
  lia.
Qed.

(** Forced convergence: with every sample at or above [MaxDirtyBlocks], the
    device is marked in iteration [MaxCycles + 1], and not before. *)
Lemma forced_convergence dev samples : forall c,
  0 <= totalCycles c ->
  totalCycles c + Z.of_nat (length samples) <= int_max ->
  Forall (fun n => MaxDirtyBlocks dev <= n) samples ->
  marked dev samples c
    = bool_decide (samples <> [] /\
                   MaxCycles dev < totalCycles c + Z.of_nat (length samples)).
Proof.
  induction samples as [|n rest IH]; intros c H0 Hfit Hall.
  - symmetry. apply bool_decide_eq_false_2. intros [Hne _]. by apply Hne.
  - cbn [marked]. simpl length in Hfit. inversion Hall as [|? ? Hn Hrest]; subst.
    assert (Ht : totalCycles (fst (policy dev n c)) = totalCycles c + 1).
    { rewrite policy_total, wrap_int_small; unfold int_min, int_max in *; lia. }
    rewrite IH; [| rewrite Ht; lia | rewrite Ht; lia | done]. rewrite Ht.
    unfold policy.
    destruct (Z.ltb_spec n (MaxDirtyBlocks dev)); [lia |].
    rewrite !wrap_int_small by (unfold int_min, int_max in *; lia).
    destruct (Z.ltb_spec (MaxCycles dev) (totalCycles c + 1)); simpl.
    + symmetry. apply bool_decide_eq_true_2. split; [done | lia].
    + destruct rest as [|m rest].
      * rewrite !bool_decide_eq_false_2; [done | simpl; lia | intros [Hne _]; by apply Hne].
      * apply bool_decide_ext. simpl length. split; intros [_ ?]; split; (done || lia).
Qed.


(** C2. From both counters at 0, after any number of iterations
    that fits an [int], the next iteration adds one to [totalCycles],
    which so counts the iterations, and then: with fewer than
    [MaxDirtyBlocks] dirty blocks it adds one to the count of cycles
    below the threshold and marks the device exactly if that count
    is above [MinCycles]; else with [totalCycles] above [MaxCycles] it
    marks the device and leaves the count; else it puts the count
    back to 0 and does not mark. *)
Theorem dirty_loop_policy (dev : MigrateToDevice) (samples : list Z) (n : Z) :
  Z.of_nat (length samples) < int_max ->
  let c := run dev samples cycles0 in
  let c' := (policy dev n c).1 in
  let ready := (policy dev n c).2 in
  totalCycles c = Z.of_nat (length samples) /\
  totalCycles c' = totalCycles c + 1 /\
  (n < MaxDirtyBlocks dev ->
     cyclesBelowDirtyBlockTreshold c' = cyclesBelowDirtyBlockTreshold c + 1 /\
     (ready = true <-> cyclesBelowDirtyBlockTreshold c' > MinCycles dev)) /\
  (MaxDirtyBlocks dev <= n -> totalCycles c' > MaxCycles dev ->
     ready = true /\
     cyclesBelowDirtyBlockTreshold c' = cyclesBelowDirtyBlockTreshold c) /\
  (MaxDirtyBlocks dev <= n -> totalCycles c' <= MaxCycles dev ->
     ready = false /\ cyclesBelowDirtyBlockTreshold c' = 0) /\
  policy dev n c = spec_policy dev n c.
Proof.
  intros Hfit c c' ready.
  assert (Ht : totalCycles c = Z.of_nat (length samples)).
  { unfold c. rewrite run_total; simpl; unfold int_max in *; lia. }
  assert (Hb : 0 <= cyclesBelowDirtyBlockTreshold c <= totalCycles c).
  { unfold c. apply run_below_bounds; simpl; unfold int_max in *; lia. }
  assert (Hspec : policy dev n c = spec_policy dev n c).
  { apply policy_refines_spec; [done | lia]. }
  unfold c', ready. rewrite Hspec. unfold spec_policy.
  split; [done |].
  repeat case_bool_decide; simpl; repeat split; intros; try lia; try done.
Qed.

Lemma dirty_loop_policy_witness :
  let dev := {| Name := "memory"; MaxDirtyBlocks := 2; MinCycles := 2;
                MaxCycles := 5; CycleThrottle := 50000000 |} in
  let c := run dev [1; 1] cycles0 in
  let c' := (policy dev 1 c).1 in
  let ready := (policy dev 1 c).2 in
  totalCycles c = 2 /\
  totalCycles c' = totalCycles c + 1 /\
  (1 < MaxDirtyBlocks dev ->
     cyclesBelowDirtyBlockTreshold c' = cyclesBelowDirtyBlockTreshold c + 1 /\
     (ready = true <-> cyclesBelowDirtyBlockTreshold c' > MinCycles dev)) /\
  (MaxDirtyBlocks dev <= 1 -> totalCycles c' > MaxCycles dev ->
     ready = true /\
     cyclesBelowDirtyBlockTreshold c' = cyclesBelowDirtyBlockTreshold c) /\
  (MaxDirtyBlocks dev <= 1 -> totalCycles c' <= MaxCycles dev ->
     ready = false /\ cyclesBelowDirtyBlockTreshold c' = 0) /\
  policy dev 1 c = spec_policy dev 1 c.
Proof.
  intros dev.
  apply (dirty_loop_policy dev [1; 1] 1). unfold int_max. simpl. lia.
Defined.

End PolicyFacts.

Module DirtyManagerFacts.
Import GoInt GoIntFacts DirtyManager.

(** On a running VM, [PostMigrateDirty] applies the policy of the loop
    of [MigrateTo] to the status of the device. *)
Lemma PostMigrateDirty_policy name n dm di :
  Devices dm !! name = Some di ->
  suspendedVM dm = false ->
  exists di',
    Devices (PostMigrateDirty name n dm).1 !! name = Some di' /\
    cycles_of di' = (Policy.policy (device_of name di) n (cycles_of di)).1 /\
    Ready di' = Ready di || (Policy.policy (device_of name di) n (cycles_of di)).2 /\
    device_of name di' = device_of name di.
Proof.
  intros Hdi Hrun. unfold PostMigrateDirty, Policy.policy. rewrite Hdi, Hrun. simpl.
  unfold markDeviceReady, set_status, with_cycles.
  repeat case_match; simpl; rewrite lookup_insert_eq;
    eexists; (split; [reflexivity |]); simpl;
    unfold cycles_of, device_of; simpl; rewrite ?orb_true_r, ?orb_false_r;
    repeat split; try done; simplify_eq/=; try done.
Qed.

(** Once the VM is suspended the call returns before the policy. *)
Lemma PostMigrateDirty_suspended name n dm di :
  Devices dm !! name = Some di ->
  suspendedVM dm = true ->
  PostMigrateDirty name n dm = (dm, Suspended).
Proof. intros Hdi Hs. unfold PostMigrateDirty. by rewrite Hdi, Hs. Qed.

(** The latch of the authority transfer: a call runs the transfer only
    if no call did before, and sets the latch. *)
Lemma PostMigrateDirty_latch name n dm :
  (AuthorityTransferCompleted dm = true ->
     (PostMigrateDirty name n dm).2 <> Cycled true /\
     AuthorityTransferCompleted (PostMigrateDirty name n dm).1 = true) /\
  ((PostMigrateDirty name n dm).2 = Cycled true ->
     AuthorityTransferCompleted dm = false /\
     AuthorityTransferCompleted (PostMigrateDirty name n dm).1 = true /\
     size (ReadyDevices (PostMigrateDirty name n dm).1)
       = size (Devices (PostMigrateDirty name n dm).1)).
Proof.
  unfold PostMigrateDirty, markDeviceReady, set_status, with_cycles.
  split; intros H; repeat case_match; simpl in *; simplify_eq/=;
    repeat split; try done; try congruence.
  all: try (by destruct (AuthorityTransferCompleted dm)).
  all: try (match goal with H : bool_decide _ = true |- _ => apply bool_decide_eq_true_1 in H; exact H end).
Qed.

End DirtyManagerFacts.

Module OrdererFacts.
Import GoInt GoIntFacts Orderer.

Lemma elem_of_block_range b s e :
  b ∈ block_range s e <-> s <= b < e.
Proof.
  unfold block_range. rewrite list_elem_of_fmap. split.
  - intros (i & -> & Hi). apply elem_of_seq in Hi. lia.
  - intros Hb. exists (Z.to_nat (b - s)). split; [lia |].
    apply elem_of_seq. lia.
Qed.

Lemma endOffset_min size offset length :
  0 <= size < 2 ^ 64 -> 0 <= offset -> 0 <= length ->
  offset + length < 2 ^ 63 ->
  endOffset size offset length = Z.min (offset + length) size.
Proof.
  intros Hs Ho Hl Hfit. unfold endOffset.
  rewrite wrap_int_small by (unfold int_min, int_max; lia).
  rewrite !wrap_uint64_small by lia.
  destruct (Z.ltb_spec size (offset + length)); lia.
Qed.

(** [NeedAt] promotes the blocks of the documented range. *)
Lemma needAt_blocks_range size blockSize offset length :
  0 < blockSize -> 0 < size < 2 ^ 64 -> 0 <= offset -> 0 < length ->
  offset + length < 2 ^ 63 ->
  exists bs,
    needAt_blocks size blockSize offset length = Some bs /\
    forall b, b ∈ bs <->
      spec_first blockSize offset <= b <= spec_last size blockSize offset length.
Proof.
  intros Hb Hs Ho Hl Hfit. unfold needAt_blocks.
  destruct (Z.eqb_spec blockSize 0); [lia |].
  eexists. split; [reflexivity |]. intros b.
  rewrite elem_of_block_range, endOffset_min by lia.
  set (e := Z.min (offset + length) size).
  assert (He : 1 <= e < 2 ^ 63) by (unfold e; lia).
  rewrite Z.quot_div_nonneg by lia.
  assert (Hq : 0 <= offset / blockSize <= offset).
  { split; [apply Z.div_pos; lia |]. apply Z.div_le_upper_bound; nia. }
  assert (Hd : 0 <= (e - 1) / blockSize <= e - 1).
  { split; [apply Z.div_pos; lia |]. apply Z.div_le_upper_bound; nia. }
  rewrite (wrap_uint64_small (e - 1)) by lia.
  rewrite (wrap_int_small (offset / blockSize)) by (unfold int_min, int_max; lia).
  rewrite (wrap_int_small ((e - 1) / blockSize)) by (unfold int_min, int_max; lia).
  rewrite (wrap_int_small ((e - 1) / blockSize + 1)) by (unfold int_min, int_max; lia).
  unfold spec_first, spec_last. fold e.
  replace (e + blockSize - 1) with (e - 1 + 1 * blockSize) by lia.
  rewrite Z.div_add by lia. lia.
Qed.

(** [DontNeedAt] inside the device removes block 0, whatever the offset. *)
Lemma dontNeedAt_blocks_zero size blockSize offset length :
  0 < size < 2 ^ 63 -> 0 <= offset < size -> 0 < length ->
  offset + length < 2 ^ 63 ->
  dontNeedAt_blocks size blockSize offset length = Some [0].
Proof.
  intros Hs Ho Hl Hfit. unfold dontNeedAt_blocks.
  rewrite endOffset_min by lia.
  set (e := Z.min (offset + length) size).
  assert (He : 1 <= e <= size) by (unfold e; lia).
  rewrite (wrap_int_small size) by (unfold int_min, int_max; lia).
  rewrite (wrap_uint64_small size) by lia.
  destruct (Z.eqb_spec size 0); [lia |]. simpl.
  rewrite Z.quot_small by lia.
  rewrite (wrap_uint64_small (e - 1)) by lia.
  rewrite Z.div_small by lia.
  reflexivity.
Qed.

(** C6. The handler of [DontNeedAt] divides by the size of the storage
    where the handler of [NeedAt] divides by the block size: on a
    device of four blocks of 64 KiB, a hint for the second block
    promotes block 1, as the design document has it, and removes
    block 0. *)
Theorem dontNeedAt_divides_by_size :
  needAt_blocks 262144 65536 65536 65536 = Some [1] /\
  spec_first 65536 65536 = 1 /\ spec_last 262144 65536 65536 65536 = 1 /\
  dontNeedAt_blocks 262144 65536 65536 65536 = Some [0].
Proof. repeat split; reflexivity. Qed.

End OrdererFacts.

Module SchemaFacts.
Import GoString Schema.

Lemma createSiloDevSchema_base fs i sz :
  stat_size fs (Base i) = Some sz ->
  blank (Overlay i) || blank (State i) = true ->
  exists ds, createSiloDevSchema fs i = inr ds /\ base_only i ds.
Proof.
  intros Hst Hb. unfold createSiloDevSchema. rewrite Hst, Hb.
  eexists. split; [reflexivity |]. by repeat split.
Qed.

Lemma createSiloDevSchema_stack fs i sz :
  stat_size fs (Base i) = Some sz ->
  blank (Overlay i) = false -> blank (State i) = false ->
  mkdir_parent fs (Overlay i) = true -> mkdir_parent fs (State i) = true ->
  exists ds, createSiloDevSchema fs i = inr ds /\ full_stack i ds.
Proof.
  intros Hst Ho Hs Hmo Hms. unfold createSiloDevSchema.
  rewrite Hst, Ho, Hs, Hmo, Hms. simpl.
  eexists. split; [reflexivity |]. repeat split. eexists. by repeat split.
Qed.

Lemma createSiloDevSchema_choice fs i ds :
  createSiloDevSchema fs i = inr ds ->
  (base_only i ds <-> blank (Overlay i) = true \/ blank (State i) = true) /\
  (full_stack i ds <-> blank (Overlay i) = false /\ blank (State i) = false).
Proof.
  unfold createSiloDevSchema, base_only, full_stack.
  destruct (stat_size fs (Base i)) as [sz|]; [| discriminate].
  destruct (blank (Overlay i)) eqn:Ho, (blank (State i)) eqn:Hs; simpl;
    repeat case_match; intros Heq; simplify_eq/=;
    (split; split; intros Hx);
    try (destruct Hx as (Hsys & _); discriminate Hsys);
    try (destruct Hx as [Hx | Hx]; discriminate Hx);
    try (destruct Hx as [Hx _]; discriminate Hx);
    try (destruct Hx as [_ Hx]; discriminate Hx);
    try (by left); try (by right); try done;
    try (repeat split; try done; eexists; by repeat split).
Qed.

(** C7, amended. When [createSiloDevSchema] returns a schema, it is
    the base alone exactly when the overlay path or the state path is
    blank, and the full copy-on-write stack exactly when neither is. *)
Theorem schema_choice (fs : filesystem) (i : MigrateFromDevice) (ds : DeviceSchema) :
  createSiloDevSchema fs i = inr ds ->
  (base_only i ds <-> blank (Overlay i) = true \/ blank (State i) = true) /\
  (full_stack i ds <-> blank (Overlay i) = false /\ blank (State i) = false).
Proof. apply createSiloDevSchema_choice. Qed.

Lemma schema_choice_witness :
  exists ds, createSiloDevSchema fs_ok both_paths = inr ds /\
    (base_only both_paths ds <->
       blank (Overlay both_paths) = true \/ blank (State both_paths) = true) /\
    (full_stack both_paths ds <->
       blank (Overlay both_paths) = false /\ blank (State both_paths) = false).
Proof.
  eexists. split; [reflexivity |].
  apply (schema_choice fs_ok both_paths). reflexivity.
Defined.

(** C7 as it is worded fails: with an overlay path and no state path
    the base is exposed as it is. *)
Lemma base_only_iff_both_empty_fails : ~ base_only_iff_both_empty.
Proof.
  intros H.
  destruct (createSiloDevSchema_base fs_ok only_overlay 262144 eq_refl eq_refl)
    as (ds & Hds & Hbase).
  destruct (H fs_ok only_overlay ds Hds) as [Hiff _].
  apply Hiff in Hbase as [Hov _]. discriminate Hov.
Qed.

End SchemaFacts.

Module AdmissionFacts.
Import GoString Admission.

Lemma lookup_base_no_entry devices n :
  Forall (fun device => Name device <> n) devices ->
  lookup_base devices n = "".
Proof.
  induction 1 as [|device rest Hne _ IH]; simpl; [done |].
  destruct (String.eqb_spec n (Name device)); [congruence | done].
Qed.

Lemma terminate_path_no_case ns ps n :
  n <> ConfigName ns -> n <> DiskName ns -> n <> InitramfsName ns ->
  n <> KernelName ns -> n <> MemoryName ns -> n <> StateName ns ->
  terminate_path ns ps n = "".
Proof.
  intros. unfold terminate_path.
  repeat match goal with
         | |- context [String.eqb ?a ?b] =>
           destruct (String.eqb_spec a b); [congruence |]
         end.
  done.
Qed.

(** C9. When no entry of the configured devices has the name of the
    [DevInfo], or the entry that has it gives a blank base path, the
    callback panics with [ErrUnknownDeviceName] before it touches
    anything: no device is counted, no hook runs, no device is made
    and none is let in. The callback of [Terminate] does the same
    for a name that is none of its six. *)
Theorem unknown_device_name_is_fatal (w : world) (hooks_set : bool)
    (devices : list MigrateFromDevice) (index : Z) (di : DevInfo) (p : peer) :
  Forall (fun device => Name device <> di_Name di) devices \/
  blank (lookup_base devices (di_Name di)) = true ->
  on_dev_info w hooks_set devices index di p = (p, Panic ErrUnknownDeviceName) /\
  forall mkdir_ok storage_ok ns ps u,
    terminate_path ns ps (di_Name di) = "" ->
    terminate_on_dev_info mkdir_ok storage_ok hooks_set ns ps u di
      = ([], TPanic (Some ErrUnknownDeviceName)).
Proof.
  intros Hno. split.
  - unfold on_dev_info.
    destruct Hno as [Hno | ->]; [| done].
    by rewrite (lookup_base_no_entry _ _ Hno).
  - intros mkdir_ok storage_ok ns ps u Hpath.
    unfold terminate_on_dev_info. by rewrite Hpath.
Qed.

Lemma unknown_device_name_is_fatal_witness :
  on_dev_info world_ok true configured 0 stranger peer0
    = (peer0, Panic ErrUnknownDeviceName) /\
  forall mkdir_ok storage_ok ns ps u,
    terminate_path ns ps (di_Name stranger) = "" ->
    terminate_on_dev_info mkdir_ok storage_ok true ns ps u stranger
      = ([], TPanic (Some ErrUnknownDeviceName)).
Proof.
  apply (unknown_device_name_is_fatal world_ok true configured 0 stranger peer0).
  left. repeat constructor; discriminate.
Defined.

End AdmissionFacts.

(** ** Traces and the suspend sequence *)
Module TraceFacts.
Import MigrateTo.

Lemma always_before_nil a b : always_before a b [].
Proof. intros l1 l2 H. by destruct l1. Qed.

Lemma always_before_snoc a b tr e :
  always_before a b tr -> (e = b -> a ∈ tr) -> always_before a b (tr ++ [e]).
Proof.
  intros Htr He l1 l2 Heq.
  destruct l2 as [|x l2 _] using rev_ind.
  - apply app_inj_tail in Heq as [-> ->]. by apply He.
  - change (l1 ++ b :: l2 ++ [x]) with (l1 ++ (b :: l2) ++ [x]) in Heq.
    rewrite app_assoc in Heq. apply app_inj_tail in Heq as [-> _].
    by eapply Htr.
Qed.

Lemma always_before_quiet a b tr e :
  always_before a b tr -> e <> b -> always_before a b (tr ++ [e]).
Proof. intros Htr Hne. apply always_before_snoc; [done | congruence]. Qed.

Lemma never_after_nil a b : never_after a b [].
Proof. intros l1 l2 H. by destruct l1. Qed.

Lemma never_after_snoc a b tr e :
  never_after a b tr -> (a ∈ tr -> e <> b) -> never_after a b (tr ++ [e]).
Proof.
  intros Htr He l1 l2 Heq.
  destruct l2 as [|x l2 _] using rev_ind.
  - apply not_elem_of_nil.
  - change (l1 ++ a :: l2 ++ [x]) with (l1 ++ (a :: l2) ++ [x]) in Heq.
    rewrite app_assoc in Heq. apply app_inj_tail in Heq as [-> ->].
    rewrite not_elem_of_app. split; [by eapply Htr |].
    rewrite list_elem_of_singleton. intros ->.
    apply He; [| done]. set_solver.
Qed.

Lemma never_after_quiet a b tr e :
  never_after a b tr -> e <> b -> never_after a b (tr ++ [e]).
Proof. intros Htr Hne. by apply never_after_snoc. Qed.

Lemma suspend_events_snoc tr e :
  suspend_events (tr ++ [e])
    = suspend_events tr ++ (if suspend_event e then [e] else []).
Proof.
  unfold suspend_events. rewrite List.filter_app. simpl.
  by destruct (suspend_event e).
Qed.

Lemma suspend_events_elem e tr : e ∈ suspend_events tr -> e ∈ tr.
Proof.
  unfold suspend_events. rewrite !list_elem_of_In, List.filter_In. tauto.
Qed.

Lemma elem_suspend_events e tr :
  e ∈ tr -> suspend_event e = true -> e ∈ suspend_events tr.
Proof.
  unfold suspend_events. rewrite !list_elem_of_In, List.filter_In. tauto.
Qed.

End TraceFacts.

Module StageFacts.
Import MigrateTo.

Lemma stage_step_suspend_event h ok st e next :
  stage_step h ok st = (Some e, next) -> suspend_event e = true.
Proof.
  destruct st, ok, h as [[] []]; simpl; intros; simplify_eq; done.
Qed.

Lemma stage_step_next h ok st ev st' :
  stage_step h ok st = (ev, inl st') ->
  emitted_before h st' = emitted_before h st ++ option_list ev.
Proof.
  destruct st, ok, h as [[] []]; simpl; intros; simplify_eq; done.
Qed.

Lemma stage_step_done h ok st ev :
  stage_step h ok st = (ev, inr None) ->
  st = AtCancelSuspendedVMCtx /\
  code_sequence h = emitted_before h st ++ option_list ev.
Proof.
  destruct st, ok, h as [[] []]; simpl; intros; simplify_eq; done.
Qed.

Lemma stage_step_failed h ok st ev err :
  stage_step h ok st = (ev, inr (Some err)) ->
  ev = None /\ ok = false /\ st <> AtSetSuspendedVM /\ st <> AtCancelSuspendedVMCtx.
Proof.
  destruct st, ok, h as [[] []]; simpl; intros; simplify_eq; done.
Qed.

Lemma emitted_before_prefix h st :
  emitted_before h st `prefix_of` code_sequence h.
Proof.
  destruct st, h as [[] []]; unfold code_sequence; simpl;
    repeat (apply prefix_cons || apply prefix_nil).
Qed.

Lemma code_sequence_NoDup h : NoDup (code_sequence h).
Proof.
  destruct h as [[] []]; compute_done.
Qed.

Lemma set_in_emitted h st :
  SuspendedVMSet ∈ emitted_before h st <-> st = AtCancelSuspendedVMCtx.
Proof.
  destruct st, h as [[] []]; simpl; split; intros H; try done;
    lazymatch goal with
    | |- _ = _ =>
      repeat (apply elem_of_cons in H as [H|H]; [discriminate H |]);
      by apply elem_of_nil in H
    | |- _ =>
      repeat first [apply list_elem_of_here | apply list_elem_of_further]
    end.
Qed.

End StageFacts.

(** ** The migration as a whole *)
Module MigrateToFacts.
Import GoInt GoIntFacts Policy PolicyFacts MigrateTo TraceFacts StageFacts.

Ltac step_cases :=
  unfold step, main_step, call_suspend, apply_policy in *;
  repeat (case_match; simplify_eq/=; try done).

Ltac insert_cases H :=
  apply list_lookup_insert_Some in H as [(-> & <- & _)|[? H]].

Lemma step_length cfg s a :
  length (devices (step cfg s a)) = length (devices s).
Proof. destruct a; step_cases; by rewrite ?length_insert. Qed.

Lemma exec_snoc cfg s sched a :
  exec cfg s (sched ++ [a]) = step cfg (exec cfg s sched) a.
Proof. unfold exec. by rewrite foldl_app. Qed.

(** An induction principle: what holds at the start and is kept by
    every step holds in every reachable state. *)
Lemma reachable_ind cfg (P : state -> Prop) :
  P (init cfg) ->
  (forall s a, reachable cfg s -> P s -> P (step cfg s a)) ->
  forall s, reachable cfg s -> P s.
Proof.
  intros H0 Hstep s [sched ->].
  induction sched as [|a sched IH] using rev_ind; [done |].
  rewrite exec_snoc. apply Hstep; [by eexists | done].
Qed.

Lemma reachable_init cfg : reachable cfg (init cfg).
Proof. by exists []. Qed.

Lemma reachable_step cfg s a : reachable cfg s -> reachable cfg (step cfg s a).
Proof. intros [sched ->]. exists (sched ++ [a]). by rewrite exec_snoc. Qed.

Lemma reachable_length cfg s :
  reachable cfg s -> length (devices s) = length (stage5Inputs cfg).
Proof.
  revert s. apply reachable_ind.
  - simpl. by rewrite length_replicate.
  - intros s a _ IH. by rewrite step_length.
Qed.

Lemma init_lookup cfg d ds : devices (init cfg) !! d = Some ds -> ds = device0.
Proof. simpl. intros H. by apply lookup_replicate in H as [-> _]. Qed.

Lemma reachable_counters cfg s : reachable cfg s -> counters_ok cfg s.
Proof.
  revert s. apply reachable_ind.
  - intros d ds dev Hd _. apply init_lookup in Hd as ->. done.
  - intros s a _ IH d0 ds0 dev0 Hd0 Hdev0. destruct a; step_cases;
      try (by eapply IH);
      try (insert_cases Hd0; simpl; by eapply IH).
    all: insert_cases Hd0; simpl; [| by eapply IH].
    all: match goal with
         | H1 : stage5Inputs _ !! ?d = Some ?m,
           H2 : stage5Inputs _ !! ?d = Some ?m' |- _ =>
           assert (m = m') by congruence; subst
         end.
    all: rewrite run_snoc, marked_snoc.
    all: destruct (IH _ _ _ ltac:(eassumption) ltac:(eassumption)) as [<- <-].
    all: match goal with H : policy _ _ _ = _ |- _ => rewrite H end; done.
Qed.

Lemma owner_kept (l : list device) d ds ds' o :
  l !! d = Some ds ->
  (at_pc ds = CallSuspend -> at_pc ds' = CallSuspend) ->
  (exists x, l !! o = Some x /\ at_pc x = CallSuspend) ->
  exists x, <[d := ds']> l !! o = Some x /\ at_pc x = CallSuspend.
Proof.
  intros Hd Hpc (x & Ho & Hx). destruct (decide (o = d)) as [->|Hne].
  - exists ds'. split.
    + apply list_lookup_insert_eq. by eapply lookup_lt_Some.
    + apply Hpc. congruence.
  - exists x. by rewrite list_lookup_insert_ne.
Qed.

Ltac once_quiet Honce :=
  repeat case_match; simplify_eq/=; try congruence;
  try (rewrite Honce in *; simplify_eq);
  rewrite ?suspend_events_snoc; simpl; rewrite ?app_nil_r;
  repeat split; try tauto;
  try (eapply owner_kept; [eassumption | simpl; congruence | tauto]);
  try (intuition congruence).

Lemma reachable_once cfg s : reachable cfg s -> once_ok cfg s.
Proof.
  revert s. apply reachable_ind; [done |].
  intros s a _ IH. unfold once_ok in *.
  destruct a as [d e|d|d i]; unfold step.
  - destruct (stage5Inputs cfg !! d) as [dev|] eqn:Hdev; [| done].
    destruct (devices s !! d) as [ds|] eqn:Hds; [| done].
    unfold main_step.
    destruct (at_pc ds) eqn:Hpc.
    7: { (* the call *)
      unfold call_suspend.
      destruct (suspendAndMsyncVM s) as [|o st|r] eqn:Honce.
      * simpl. destruct IH as (? & ? & ?). repeat split; try done. eauto.
      * case_bool_decide; [subst o | by rewrite Honce].
        destruct IH as (Htr & Hflag & Hctx & Hown).
        destruct (stage_step (hooks cfg) (io_ok e) st) as [ev next] eqn:Hst.
        destruct next as [st'|[err|]]; simpl.
        -- apply stage_step_next in Hst as Hnext. rewrite Hnext.
           assert (Hev : suspend_events
                     (match ev with Some e0 => trace s ++ [e0] | None => trace s end)
                   = emitted_before (hooks cfg) st ++ option_list ev).
           { destruct ev as [e0|]; simpl; [| by rewrite app_nil_r].
             rewrite suspend_events_snoc, Htr.
             by rewrite (stage_step_suspend_event _ _ _ _ _ Hst). }
           repeat split; try done.
           ++ destruct st, (io_ok e), (hooks cfg) as [[] []]; simpl in *; simplify_eq; done.
           ++ destruct st, (io_ok e), (hooks cfg) as [[] []]; simpl in *; simplify_eq; done.
        -- apply stage_step_failed in Hst as (-> & _ & Hne1 & Hne2). simpl.
           split; [by exists st |].
           rewrite Hflag, Hctx. by destruct st.
        -- apply stage_step_done in Hst as Hdone. destruct Hdone as [-> Hseq].
           rewrite Hseq. simpl in Hst. simplify_eq. simpl.
           rewrite suspend_events_snoc, Htr. done.
      * destruct r as [err|]; simpl; rewrite Honce; done. }
    all: unfold apply_policy.
    all: destruct (suspendAndMsyncVM s) as [|o st|[err|]] eqn:Honce.
    all: once_quiet Honce.
  - destruct (suspendAndMsyncVM s) as [|o st|[err|]] eqn:Honce.
    all: once_quiet Honce.
  - destruct (suspendAndMsyncVM s) as [|o st|[err|]] eqn:Honce.
    all: once_quiet Honce.
Qed.

Lemma step_trace cfg s a :
  trace (step cfg s a) = trace s \/ exists e, trace (step cfg s a) = trace s ++ [e].
Proof. destruct a; step_cases; eauto. Qed.

Lemma step_trace_mono cfg s a e : e ∈ trace s -> e ∈ trace (step cfg s a).
Proof.
  intros He. destruct (step_trace cfg s a) as [->|[e' ->]]; [done |].
  apply elem_of_app. by left.
Qed.

Lemma step_flag cfg s a :
  suspendedVM s = true -> suspendedVM (step cfg s a) = true.
Proof. intros Hs. destruct a; step_cases. Qed.

Lemma step_other cfg s a d :
  actor a <> d -> devices (step cfg s a) !! d = devices s !! d.
Proof.
  intros Hne. destruct a; simpl in Hne; step_cases;
    by rewrite list_lookup_insert_ne.
Qed.

Lemma flag_in_trace cfg s :
  reachable cfg s -> suspendedVM s = true -> SuspendedVMSet ∈ trace s.
Proof.
  intros Hr Hs. apply reachable_once in Hr. unfold once_ok in Hr.
  apply suspend_events_elem.
  destruct (suspendAndMsyncVM s) as [|o st|[err|]].
  - destruct Hr as (_ & ? & _). congruence.
  - destruct Hr as (-> & Hf & _). apply set_in_emitted.
    rewrite Hs in Hf. by destruct st.
  - destruct Hr as (_ & ? & _). congruence.
  - destruct Hr as (-> & _). destruct (hooks cfg) as [[] []]; compute_done.
Qed.

Lemma pc_fact_other cfg s a d ds :
  pc_fact s d ds -> pc_fact (step cfg s a) d ds.
Proof.
  unfold pc_fact. destruct (at_pc ds) as [| | | | | | | | | |[]];
    intuition auto using step_flag, step_trace_mono.
Qed.

Lemma reachable_pc_fact cfg s :
  reachable cfg s ->
  forall d ds, devices s !! d = Some ds -> pc_fact s d ds.
Proof.
  revert s.
  apply (reachable_ind cfg
           (fun s => forall d ds, devices s !! d = Some ds -> pc_fact s d ds)).
  - intros d ds Hd. apply init_lookup in Hd as ->. done.
  - intros s a Hr IH d ds Hd.
    destruct (decide (actor a = d)) as [<-|Hne];
      [| rewrite step_other in Hd by done; by apply pc_fact_other, IH].
    destruct a as [d e|d|d i]; simpl in Hd.
    + unfold step in *.
      destruct (stage5Inputs cfg !! d) as [dev|] eqn:Hdev; [| by apply IH].
      destruct (devices s !! d) as [ds0|] eqn:Hds0; [| by apply IH].
      pose proof IH as IHall.
      specialize (IH d ds0 Hds0). unfold pc_fact in IH.
      apply lookup_lt_Some in Hds0 as Hlt.
      unfold main_step, call_suspend, apply_policy in *.
      repeat case_match; simplify_eq/=; try (by apply IHall);
        try (rewrite list_lookup_insert_eq in Hd by done; simplify_eq/=);
        unfold pc_fact; simpl; rewrite ?elem_of_app, ?list_elem_of_singleton;
        try done; try tauto;
        try (rewrite Hds0 in Hd; simplify_eq; unfold pc_fact;
             repeat case_match; simplify_eq/=; intuition congruence);
        try (match goal with H : at_pc _ = _ |- _ => rewrite H end; done).
    + unfold step in *.
      destruct (devices s !! d) as [ds0|] eqn:Hds0; [| by apply IH].
      pose proof IH as IHall.
      specialize (IH d ds0 Hds0). unfold pc_fact in IH.
      apply lookup_lt_Some in Hds0 as Hlt.
      repeat case_match; simplify_eq/=; try (by apply IHall);
        try (rewrite list_lookup_insert_eq in Hd by done; simplify_eq/=);
        unfold pc_fact; simpl; try done; try (intuition congruence).
    + unfold step in *.
      destruct (devices s !! d) as [ds0|] eqn:Hds0; [| by apply IH].
      pose proof IH as IHall.
      specialize (IH d ds0 Hds0). unfold pc_fact in IH.
      apply lookup_lt_Some in Hds0 as Hlt.
      repeat case_match; simplify_eq/=; try (by apply IHall);
        try (rewrite list_lookup_insert_eq in Hd by done; simplify_eq/=);
        unfold pc_fact; simpl; rewrite ?elem_of_app;
        try done; try (intuition congruence);
        try (destruct_and!;
             match goal with
             | Hl : in_flight ?x !! _ = Some _, Hf : in_flight ?x = [] |- _ =>
               rewrite Hf in Hl; discriminate Hl
             end).
Qed.

(** The event a step puts on the trace, if any, and what it tells. *)
Lemma step_event cfg s a :
  trace (step cfg s a) = trace s \/
  exists e, trace (step cfg s a) = trace s ++ [e] /\
    (suspend_event e = true \/
     exists ds, devices s !! actor a = Some ds /\
       match e with
       | LoopMsync d => d = actor a
       | DirtyList d _ => d = actor a /\ at_pc ds = GetDirty
       | WriteAt d b => d = actor a /\ b ∈ in_flight ds
       | TransferAuthority d => d = actor a /\ at_pc ds = SendTransferAuthority
       | Completed d => d = actor a /\ at_pc ds = SendCompleted
       | _ => False
       end).
Proof.
  destruct a as [d e|d|d i]; unfold step; simpl.
  - destruct (stage5Inputs cfg !! d) as [dev|]; [| by left].
    destruct (devices s !! d) as [ds|] eqn:Hds; [| by left].
    unfold main_step, call_suspend, apply_policy.
    repeat (case_match; simplify_eq/=); try (by left);
      right; eexists; (split; [reflexivity |]);
      try (right; eexists; split; [reflexivity | done]).
    all: left; by eapply stage_step_suspend_event.
  - repeat case_match; simplify_eq/=; by left.
  - repeat case_match; simplify_eq/=; try (by left).
    right. eexists. split; [reflexivity |]. right. eexists. split; [reflexivity |].
    split; [done |]. by eapply list_elem_of_lookup_2.
Qed.

(** Where an event on the trace came from: either it was there before
    the step, and the device it names kept what was known of it, or the
    step put it there. *)
Ltac locate IH Hin Hfact d0 d :=
  try match goal with
      | H : at_pc _ = _ |- _ => rewrite H in Hfact; simpl in Hfact
      end;
  rewrite ?elem_of_app, ?list_elem_of_singleton in Hin;
  try match type of Hin with _ \/ _ => destruct Hin as [Hin|Hin] end;
  lazymatch type of Hin with
  | _ = _ =>
    simplify_eq;
    first
      [ exfalso;
        match goal with
        | H : stage_step _ _ _ = (Some _, _) |- _ =>
          apply stage_step_suspend_event in H; discriminate H
        end
      | rewrite list_lookup_insert_eq by done;
        eexists; split; [reflexivity |]; simpl; intuition congruence ]
  | _ =>
    let x := fresh "x" in
    let Hx := fresh "Hx" in
    let Hal := fresh "Hal" in
    apply IH in Hin as (x & Hx & Hal);
    first
      [ by eauto
      | destruct (decide (d0 = d)) as [->|?];
        [ rewrite list_lookup_insert_eq by done; simplify_eq;
          (eexists; split; [reflexivity |]; simpl;
           try match goal with
               | H : at_pc _ = _ |- _ =>
                 tryif constr_eq H Hal then fail else rewrite H in Hal
               end;
           simpl in *; try done; intuition congruence)
        | rewrite list_lookup_insert_ne by done; eauto ] ]
  end.

(** A device whose authority was transferred is past its loop and has
    no [MigrateDirty] goroutine left. *)
Lemma transferred_after_loop cfg s :
  reachable cfg s ->
  forall d, TransferAuthority d ∈ trace s ->
    exists ds, devices s !! d = Some ds /\ wg ds = [] /\ after_loop (at_pc ds).
Proof.
  revert s.
  apply (reachable_ind cfg (fun s => forall d, TransferAuthority d ∈ trace s ->
           exists ds, devices s !! d = Some ds /\ wg ds = [] /\ after_loop (at_pc ds))).
  - intros d Hd. simpl in Hd. by apply elem_of_nil in Hd.
  - intros s a Hr IH d0 Hin.
    pose proof (reachable_pc_fact cfg s Hr) as Hfact.
    destruct a as [d e|d|d i]; unfold step in *.
    + destruct (stage5Inputs cfg !! d) as [dev|] eqn:Hdev; [| by apply IH].
      destruct (devices s !! d) as [ds0|] eqn:Hds0; [| by apply IH].
      apply lookup_lt_Some in Hds0 as Hlt.
      specialize (Hfact d ds0 Hds0). unfold pc_fact in Hfact.
      unfold main_step, call_suspend, apply_policy in *.
      repeat (case_match; simplify_eq/=); try (by apply IH).
      all: locate IH Hin Hfact d0 d.
    + destruct (devices s !! d) as [ds0|] eqn:Hds0; [| by apply IH].
      apply lookup_lt_Some in Hds0 as Hlt.
      specialize (Hfact d ds0 Hds0). unfold pc_fact in Hfact.
      repeat (case_match; simplify_eq/=); try (by apply IH).
      all: locate IH Hin Hfact d0 d.
    + destruct (devices s !! d) as [ds0|] eqn:Hds0; [| by apply IH].
      apply lookup_lt_Some in Hds0 as Hlt.
      specialize (Hfact d ds0 Hds0). unfold pc_fact in Hfact.
      repeat (case_match; simplify_eq/=); try (by apply IH).
      all: locate IH Hin Hfact d0 d.
Qed.

(** A device that sent [Completed] has returned without an error. *)
Lemma completed_returned cfg s :
  reachable cfg s ->
  forall d, Completed d ∈ trace s ->
    exists ds, devices s !! d = Some ds /\ at_pc ds = Returned None.
Proof.
  revert s.
  apply (reachable_ind cfg (fun s => forall d, Completed d ∈ trace s ->
           exists ds, devices s !! d = Some ds /\ at_pc ds = Returned None)).
  - intros d Hd. simpl in Hd. by apply elem_of_nil in Hd.
  - intros s a Hr IH d0 Hin.
    pose proof (reachable_pc_fact cfg s Hr) as Hfact.
    destruct a as [d e|d|d i]; unfold step in *.
    + destruct (stage5Inputs cfg !! d) as [dev|] eqn:Hdev; [| by apply IH].
      destruct (devices s !! d) as [ds0|] eqn:Hds0; [| by apply IH].
      apply lookup_lt_Some in Hds0 as Hlt.
      specialize (Hfact d ds0 Hds0). unfold pc_fact in Hfact.
      unfold main_step, call_suspend, apply_policy in *.
      repeat (case_match; simplify_eq/=); try (by apply IH).
      all: locate IH Hin Hfact d0 d.
    + destruct (devices s !! d) as [ds0|] eqn:Hds0; [| by apply IH].
      apply lookup_lt_Some in Hds0 as Hlt.
      specialize (Hfact d ds0 Hds0). unfold pc_fact in Hfact.
      repeat (case_match; simplify_eq/=); try (by apply IH).
      all: locate IH Hin Hfact d0 d.
    + destruct (devices s !! d) as [ds0|] eqn:Hds0; [| by apply IH].
      apply lookup_lt_Some in Hds0 as Hlt.
      specialize (Hfact d ds0 Hds0). unfold pc_fact in Hfact.
      repeat (case_match; simplify_eq/=); try (by apply IH).
      all: locate IH Hin Hfact d0 d.
Qed.

(** The order of the events of a migration. *)
Lemma reachable_orders cfg s :
  reachable cfg s ->
  (forall d, always_before SuspendedVMSet (TransferAuthority d) (trace s)) /\
  (forall d, always_before (TransferAuthority d) (Completed d) (trace s)) /\
  (forall d bl, never_after (TransferAuthority d) (DirtyList d bl) (trace s)) /\
  (forall d b, never_after (Completed d) (WriteAt d b) (trace s)).
Proof.
  revert s. apply reachable_ind.
  - simpl. repeat split; intros;
      (apply always_before_nil || apply never_after_nil).
  - intros s a Hr (IH1 & IH2 & IH3 & IH4).
    pose proof (reachable_pc_fact cfg s Hr) as Hfact.
    destruct (step_event cfg s a) as [-> | (e & -> & He)]; [done |].
    repeat split; intros d.
    + apply always_before_snoc; [done |]. intros ->.
      destruct He as [He | (ds & Hds & -> & Hpc)]; [done |].
      apply (flag_in_trace cfg s Hr).
      specialize (Hfact _ _ Hds). unfold pc_fact in Hfact.
      rewrite Hpc in Hfact. tauto.
    + apply always_before_snoc; [done |]. intros ->.
      destruct He as [He | (ds & Hds & -> & Hpc)]; [done |].
      specialize (Hfact _ _ Hds). unfold pc_fact in Hfact.
      rewrite Hpc in Hfact. tauto.
    + intros bl. apply never_after_snoc; [done |]. intros Hta ->.
      destruct He as [He | (ds & Hds & -> & Hpc)]; [done |].
      apply (transferred_after_loop cfg s Hr) in Hta as (ds' & Hds' & _ & Hal).
      simplify_eq. rewrite Hpc in Hal. done.
    + intros b. apply never_after_snoc; [done |]. intros Hc ->.
      destruct He as [He | (ds & Hds & -> & Hin)]; [done |].
      apply (completed_returned cfg s Hr) in Hc as (ds' & Hds' & Hpc).
      simplify_eq.
      specialize (Hfact _ _ Hds). unfold pc_fact in Hfact.
      rewrite Hpc in Hfact. destruct Hfact as (_ & Hfl & _).
      rewrite Hfl in Hin. by apply elem_of_nil in Hin.
Qed.

(** ** The counter of the devices that are ready *)


Lemma ready_count_insert (l : list device) : forall d ds ds',
  l !! d = Some ds ->
  ready_count (<[d := ds']> l) + Z.of_nat (ready_bit ds)
    = ready_count l + Z.of_nat (ready_bit ds').
Proof.
  unfold ready_count, ready_bit.
  induction l as [|x l IH]; intros d ds ds' Hd; [done |].
  destruct d as [|d]; simpl in *.
  - simplify_eq. lia.
  - specialize (IH d ds ds' Hd). lia.
Qed.

Lemma ready_count_bounds (l : list device) :
  0 <= ready_count l <= Z.of_nat (length l).
Proof.
  unfold ready_count. induction l as [|x l IH]; simpl; [lia |].
  destruct (marked_ready x); lia.
Qed.

Lemma ready_count_full (l : list device) :
  ready_count l = Z.of_nat (length l) ->
  forall d ds, l !! d = Some ds -> marked_ready ds = true.
Proof.
  unfold ready_count. induction l as [|x l IH]; intros Hfull d ds Hd; [done |].
  pose proof (ready_count_bounds l) as Hb. unfold ready_count in Hb.
  simpl in Hfull. destruct d as [|d]; simpl in Hd.
  - simplify_eq. destruct (marked_ready ds); [done | lia].
  - apply (IH ltac:(destruct (marked_ready x); lia) d ds Hd).
Qed.

Lemma ready_count_unmarked (l : list device) d ds :
  l !! d = Some ds -> marked_ready ds = false ->
  ready_count l < Z.of_nat (length l).
Proof.
  intros Hd Hm. pose proof (ready_count_bounds l) as Hb.
  destruct (decide (ready_count l = Z.of_nat (length l))) as [Hfull|]; [| lia].
  rewrite (ready_count_full l Hfull d ds Hd) in Hm. done.
Qed.

Lemma ready_count_init n : ready_count (replicate n device0) = 0.
Proof. unfold ready_count. induction n as [|n IH]; simpl; [done | exact IH]. Qed.

(** The counter holds the number of marked devices: every device adds
    to it once at most. *)
Lemma reachable_counter cfg s :
  Z.of_nat (length (stage5Inputs cfg)) < 2 ^ 31 ->
  reachable cfg s ->
  devicesLeftToTransferAuthorityFor s = ready_count (devices s).
Proof.
  intros HN. revert s. apply reachable_ind; [| intros s a Hr IH].
  - simpl. symmetry. apply ready_count_init.
  - pose proof (reachable_length cfg s Hr) as Hlen.
    assert (Hsame : forall d ds ds',
               devices s !! d = Some ds -> marked_ready ds' = marked_ready ds ->
               ready_count (<[d := ds']> (devices s)) = ready_count (devices s)).
    { intros d ds ds' Hd Hm. pose proof (ready_count_insert _ _ _ ds' Hd) as Hi.
      unfold ready_bit in Hi. rewrite Hm in Hi. lia. }
    destruct a as [d e|d|d i]; unfold step.
    + destruct (stage5Inputs cfg !! d) as [dev|] eqn:Hdev; [| done].
      destruct (devices s !! d) as [ds|] eqn:Hds; [| done].
      unfold main_step, call_suspend, apply_policy.
      repeat (case_match; simplify_eq/=); try done;
        try (by erewrite Hsame).
      * (* the increment *)
        pose proof (ready_count_insert _ _ _
          {| at_pc := CheckReady; counters := c;
             marked_ready := marked_ready ds || b;
             wg := wg ds; in_flight := in_flight ds;
             sampled := sampled ds ++ [blocks_len blocks] |} Hds) as Hi.
        unfold ready_bit in Hi. simpl in Hi.
        destruct (marked_ready ds) eqn:Hm, b; simpl in *; try done.
        pose proof (ready_count_unmarked _ _ _ Hds Hm).
        pose proof (ready_count_bounds (devices s)).
        rewrite wrap_int32_small by lia. lia.
      * erewrite Hsame; [done | done |]. simpl.
        destruct (marked_ready ds), b; simpl in *; done.
    + repeat (case_match; simplify_eq/=); try done; by erewrite Hsame.
    + repeat (case_match; simplify_eq/=); try done; by erewrite Hsame.
Qed.

(** The deciders are sound. *)
Lemma always_before_from_sound a b tr : forall seen,
  always_before_from a b seen tr = true ->
  forall l1 l2, tr = l1 ++ b :: l2 -> seen = true \/ a ∈ l1.
Proof.
  induction tr as [|e rest IH]; intros seen Hb l1 l2 Heq.
  - by destruct l1.
  - simpl in Hb. apply andb_true_iff in Hb as [Hhere Hrest].
    destruct l1 as [|x l1]; simpl in Heq; simplify_eq.
    + rewrite bool_decide_eq_true_2 in Hhere by done. by left.
    + destruct (IH _ Hrest l1 l2 eq_refl) as [Hs|Hin].
      * apply orb_true_iff in Hs as [->|Hs]; [by left |].
        apply bool_decide_eq_true_1 in Hs as ->. right. apply list_elem_of_here.
      * right. by apply list_elem_of_further.
Qed.

Lemma always_before_b_sound a b tr :
  always_before_b a b tr = true -> always_before a b tr.
Proof.
  intros Hb l1 l2 Heq.
  by destruct (always_before_from_sound a b tr false Hb l1 l2 Heq).
Qed.

Lemma never_after_from_sound a b tr : forall seen,
  never_after_from a b seen tr = true ->
  (seen = true -> b ∉ tr) /\
  forall l1 l2, tr = l1 ++ a :: l2 -> b ∉ l2.
Proof.
  induction tr as [|e rest IH]; intros seen Hb.
  - split; [intros _; apply not_elem_of_nil | intros l1 l2 Heq; by destruct l1].
  - simpl in Hb. apply andb_true_iff in Hb as [Hhere Hrest].
    destruct (IH _ Hrest) as [IHseen IHsplit]. split.
    + intros ->. simpl in *. apply negb_true_iff, bool_decide_eq_false_1 in Hhere.
      rewrite not_elem_of_cons. split; [congruence | by apply IHseen].
    + intros l1 l2 Heq. destruct l1 as [|x l1]; simpl in Heq; simplify_eq.
      * apply IHseen. rewrite bool_decide_eq_true_2 by done. apply orb_true_r.
      * by eapply IHsplit.
Qed.

Lemma never_after_b_sound a b tr :
  never_after_b a b tr = true -> never_after a b tr.
Proof. intros Hb. exact (proj2 (never_after_from_sound a b tr false Hb)). Qed.

(** ** The suspend sequence *)

(** C1, amended. Whatever hooks are set and whatever calls fail, the
    events of one run of [suspendAndMsyncVM] are an initial part of:
    [OnBeforeSuspend], the [BeforeSuspend] call of the agent, the close of
    the agent, the snapshot, [Msync], [OnAfterSuspend], the flag, the
    broadcast; when no call fails they are all of it. [OnAfterSuspend]
    fires after [Msync] and before the flag is set: it never follows
    the flag. *)
Theorem suspend_sequence_order (h : MigrateToHooks) (oks : stage -> bool) :
  let evs := (suspendAndMsyncVM_body h oks).1 in
  evs `prefix_of` code_sequence h /\
  suspendAndMsyncVM_body h (fun _ => true) = (code_sequence h, None) /\
  always_before BeforeSuspendRPC AgentClosed evs /\
  always_before AgentClosed MsyncVM evs /\
  always_before MsyncVM OnAfterSuspendHook evs /\
  always_before MsyncVM SuspendedVMSet evs /\
  never_after SuspendedVMSet OnAfterSuspendHook evs /\
  never_after SuspendedVMCtxCancelled OnAfterSuspendHook evs /\
  always_before SuspendedVMSet SuspendedVMCtxCancelled evs.
Proof.
  unfold suspendAndMsyncVM_body. simpl.
  destruct h as [[] []];
    repeat (simpl; match goal with
                   | |- context [oks ?st] => destruct (oks st)
                   end);
    simpl.
  all: split; [unfold code_sequence; simpl;
               repeat (apply prefix_cons || apply prefix_nil) |].
  all: split; [reflexivity |].
  all: repeat apply conj;
    solve [ apply always_before_b_sound; reflexivity
          | apply never_after_b_sound; reflexivity ].
Qed.

(** C1 as it is worded fails: with both hooks set and no call failing,
    [OnAfterSuspend] fires while the flag is not set yet. *)
Lemma flag_before_after_hook_fails : ~ flag_before_after_hook.
Proof.
  intros H.
  destruct (H {| OnBeforeSuspend := true; OnAfterSuspend := true |} (fun _ => true))
    as [Hset _].
  specialize (Hset [OnBeforeSuspendHook; BeforeSuspendRPC; AgentClosed;
                    SnapshotCreated; MsyncVM]
                   [SuspendedVMSet; SuspendedVMCtxCancelled] eq_refl).
  repeat (apply elem_of_cons in Hset as [Hset|Hset]; [discriminate Hset |]).
  by apply elem_of_nil in Hset.
Qed.

Lemma reachable_exec cfg sched : reachable cfg (exec cfg (init cfg) sched).
Proof. by exists sched. Qed.

Lemma reachable_suspend_events cfg s :
  reachable cfg s -> suspend_events (trace s) `prefix_of` code_sequence (hooks cfg).
Proof.
  intros Hr. apply reachable_once in Hr. unfold once_ok in Hr.
  destruct (suspendAndMsyncVM s) as [|o st|[err|]].
  - destruct Hr as (-> & _). apply prefix_nil.
  - destruct Hr as (-> & _). apply emitted_before_prefix.
  - destruct Hr as ((st & ->) & _). apply emitted_before_prefix.
  - destruct Hr as (-> & _). done.
Qed.

Lemma prefix_NoDup {A} (l k : list A) : l `prefix_of` k -> NoDup k -> NoDup l.
Proof. intros [k' ->] Hk. by apply NoDup_app in Hk as (? & _). Qed.

Lemma call_step cfg s d dev ds e :
  stage5Inputs cfg !! d = Some dev -> devices s !! d = Some ds ->
  at_pc ds = CallSuspend ->
  step cfg s (Main d e) = call_suspend cfg d ds e s.
Proof. intros Hdev Hds Hpc. unfold step, main_step. by rewrite Hdev, Hds, Hpc. Qed.

Lemma exec_cons cfg s a sched :
  exec cfg s (a :: sched) = exec cfg (step cfg s a) sched.
Proof. reflexivity. Qed.

(** The goroutine that runs the sequence brings it to its end when no
    call fails. *)
Lemma owner_runs cfg d dev ds : forall n st s,
  stages_left st = n ->
  suspendAndMsyncVM s = Running d st ->
  stage5Inputs cfg !! d = Some dev -> devices s !! d = Some ds ->
  at_pc ds = CallSuspend ->
  let s' := exec cfg s (replicate n (Main d (calm None))) in
  suspendAndMsyncVM s' = Finished None /\
  devices s' = devices s /\
  emitted_before (hooks cfg) st ++ drop (length (trace s)) (trace s')
    = code_sequence (hooks cfg).
Proof.
  induction n as [|n IH]; intros st s Hn Honce Hdev Hds Hpc; [by destruct st |].
  cbn [replicate]. rewrite exec_cons, (call_step cfg s d dev ds) by done.
  unfold call_suspend. rewrite Honce, bool_decide_eq_true_2 by done.
  destruct (stage_step (hooks cfg) (io_ok (calm None)) st) as [ev next] eqn:Hst.
  destruct next as [st'|[err|]].
  - pose proof (stage_step_next _ _ _ _ _ Hst) as Hnext.
    assert (Hn' : stages_left st' = n).
    { destruct st, (hooks cfg) as [[] []]; simpl in *; simplify_eq; simpl in *; lia. }
    destruct (IH st' (set_once (Running d st') (emit ev (stage_effect st s)))
                Hn' eq_refl Hdev Hds Hpc) as (Hfin & Hdevs & Htr).
    split; [done |]. split; [done |].
    rewrite Hnext in Htr. rewrite <- Htr, <- app_assoc. f_equal.
    set (s2 := exec _ _ _) in *.
    assert (Hext : exists k, trace s2 = trace (set_once (Running d st') (emit ev (stage_effect st s))) ++ k).
    { clear. subst s2. generalize (set_once (Running d st') (emit ev (stage_effect st s))).
      induction (replicate n (Main d (calm None))) as [|a l IHl]; intros s0.
      - exists []. by rewrite app_nil_r.
      - rewrite exec_cons. destruct (IHl (step cfg s0 a)) as [k ->].
        destruct (step_trace cfg s0 a) as [->|[e' ->]]; [by exists k |].
        exists (e' :: k). by rewrite <- app_assoc. }
    destruct Hext as [k Hk]. rewrite Hk. simpl.
    destruct ev as [e0|]; simpl.
    + rewrite (drop_app_length (trace s ++ [e0])).
      rewrite <- app_assoc, drop_app_length. done.
    + by rewrite !drop_app_length.
  - apply stage_step_failed in Hst as (_ & Hok & _). done.
  - apply stage_step_done in Hst as [-> Hseq].
    assert (n = 0)%nat as -> by (simpl in Hn; lia).
    simpl. split; [done |]. split; [done |].
    rewrite Hseq. f_equal. destruct ev as [e0|]; simpl.
    + by rewrite drop_app_length.
    + by rewrite drop_all.
Qed.

Lemma reachable_exec_from cfg s sched :
  reachable cfg s -> reachable cfg (exec cfg s sched).
Proof.
  intros [sched0 ->]. exists (sched0 ++ sched). unfold exec. by rewrite foldl_app.
Qed.

(** A device that calls [suspendAndMsyncVM] first can bring the
    sequence to its end: nine steps of its goroutine, with no call
    failing, and the whole sequence is on the trace. *)
Lemma suspend_sequence_runs cfg s d ds :
  reachable cfg s ->
  devices s !! d = Some ds -> at_pc ds = CallSuspend ->
  suspendAndMsyncVM s = NotCalled ->
  let s' := exec cfg s (replicate 9 (Main d (calm None))) in
  suspendAndMsyncVM s' = Finished None /\
  suspend_events (trace s') = code_sequence (hooks cfg).
Proof.
  intros Hr Hds Hpc Honce s'.
  assert (is_Some (stage5Inputs cfg !! d)) as [dev Hdev].
  { apply lookup_lt_is_Some. rewrite <- (reachable_length cfg s Hr).
    by eapply lookup_lt_Some. }
  assert (Hr' : reachable cfg s') by by apply reachable_exec_from.
  assert (Hfin : suspendAndMsyncVM s' = Finished None).
  { subst s'. cbn [replicate]. rewrite exec_cons, (call_step cfg s d dev ds) by done.
    unfold call_suspend. rewrite Honce.
    by destruct (owner_runs cfg d dev ds 8 AtOnBeforeSuspend
                   (set_once (Running d AtOnBeforeSuspend) s)
                   eq_refl eq_refl Hdev Hds Hpc) as (Hfin & _ & _). }
  split; [done |].
  apply reachable_once in Hr'. unfold once_ok in Hr'. rewrite Hfin in Hr'. tauto.
Qed.

(** C3. In every state a migration can reach, the events of the suspend
    sequence on the trace are an initial part of the sequence, each at
    most once; a device that finds all devices ready calls
    [suspendAndMsyncVM], after which the function has been entered; the
    first caller brings the sequence to its end in nine steps of its
    goroutine when no call fails, with all of it on the trace, the flag
    [suspendedVM] set and [suspendedVMCtx] done; and a caller is back in
    its loop only when the sequence has run to its end, all of it on the
    trace, the flag set and the context done. *)
Theorem suspend_sequence_once (cfg : config) (s : state) :
  reachable cfg s ->
  suspend_events (trace s) `prefix_of` code_sequence (hooks cfg) /\
  NoDup (suspend_events (trace s)) /\
  (forall d ds e1 e2,
     devices s !! d = Some ds -> at_pc ds = CheckReady -> all_ready cfg s = true ->
     suspendAndMsyncVM (step cfg (step cfg s (Main d e1)) (Main d e2)) <> NotCalled) /\
  (forall d ds,
     devices s !! d = Some ds -> at_pc ds = CallSuspend ->
     suspendAndMsyncVM s = NotCalled ->
     let s' := exec cfg s (replicate 9 (Main d (calm None))) in
     suspendAndMsyncVM s' = Finished None /\
     suspend_events (trace s') = code_sequence (hooks cfg) /\
     suspendedVM s' = true /\ suspendedVMCtx s' = true) /\
  (forall d ds ds' e,
     devices s !! d = Some ds -> at_pc ds = CallSuspend ->
     devices (step cfg s (Main d e)) !! d = Some ds' -> at_pc ds' = LoopHead ->
     suspendAndMsyncVM s = Finished None /\
     suspend_events (trace s) = code_sequence (hooks cfg) /\
     suspendedVM s = true /\ suspendedVMCtx s = true).
Proof.
  intros Hr. pose proof (reachable_suspend_events cfg s Hr) as Hpre.
  split; [done |]. split; [eapply prefix_NoDup, code_sequence_NoDup; done |].
  split; [| split].
  - intros d ds e1 e2 Hds Hpc Hall.
    assert (is_Some (stage5Inputs cfg !! d)) as [dev Hdev].
    { apply lookup_lt_is_Some. rewrite <- (reachable_length cfg s Hr).
      by eapply lookup_lt_Some. }
    apply lookup_lt_Some in Hds as Hlt.
    unfold step at 2. rewrite Hdev, Hds. unfold main_step. rewrite Hpc, Hall.
    unfold step. simpl. rewrite Hdev, list_lookup_insert_eq by done.
    unfold main_step. simpl. unfold call_suspend. simpl.
    repeat (case_match; simplify_eq/=); congruence.
  - intros d ds Hds Hpc Honce s'.
    destruct (suspend_sequence_runs cfg s d ds Hr Hds Hpc Honce) as [Hfin Hseq].
    fold s' in Hfin, Hseq. split; [done |]. split; [done |].
    assert (Hr' : reachable cfg s') by by apply reachable_exec_from.
    apply reachable_once in Hr'. unfold once_ok in Hr'. rewrite Hfin in Hr'.
    tauto.
  - intros d ds ds' e Hds Hpc Hds' Hpc'.
    assert (is_Some (stage5Inputs cfg !! d)) as [dev Hdev].
    { apply lookup_lt_is_Some. rewrite <- (reachable_length cfg s Hr).
      by eapply lookup_lt_Some. }
    apply lookup_lt_Some in Hds as Hlt.
    apply reachable_once in Hr. unfold once_ok in Hr.
    unfold step in Hds'. rewrite Hdev, Hds in Hds'.
    unfold main_step in Hds'. rewrite Hpc in Hds'. unfold call_suspend in Hds'.
    destruct (suspendAndMsyncVM s) as [|o st|[err|]]; simpl in Hds'.
    + simplify_eq. congruence.
    + repeat (case_match; simplify_eq/=); congruence.
    + rewrite list_lookup_insert_eq in Hds' by done. simplify_eq/=.
    + split; [done | tauto].
Qed.

(** The theorem at the one-device migration, after its third cycle. *)
Lemma suspend_sequence_once_witness :
  let s := exec Scenario.cfg (init Scenario.cfg) Scenario.three_cycles in
  suspend_events (trace s) `prefix_of` code_sequence (hooks Scenario.cfg) /\
  NoDup (suspend_events (trace s)) /\
  (forall d ds e1 e2,
     devices s !! d = Some ds -> at_pc ds = CheckReady ->
     all_ready Scenario.cfg s = true ->
     suspendAndMsyncVM
       (step Scenario.cfg (step Scenario.cfg s (Main d e1)) (Main d e2)) <> NotCalled) /\
  (forall d ds,
     devices s !! d = Some ds -> at_pc ds = CallSuspend ->
     suspendAndMsyncVM s = NotCalled ->
     let s' := exec Scenario.cfg s (replicate 9 (Main d (calm None))) in
     suspendAndMsyncVM s' = Finished None /\
     suspend_events (trace s') = code_sequence (hooks Scenario.cfg) /\
     suspendedVM s' = true /\ suspendedVMCtx s' = true) /\
  (forall d ds ds' e,
     devices s !! d = Some ds -> at_pc ds = CallSuspend ->
     devices (step Scenario.cfg s (Main d e)) !! d = Some ds' -> at_pc ds' = LoopHead ->
     suspendAndMsyncVM s = Finished None /\
     suspend_events (trace s) = code_sequence (hooks Scenario.cfg) /\
     suspendedVM s = true /\ suspendedVMCtx s = true).
Proof.
  apply (suspend_sequence_once Scenario.cfg). apply reachable_exec.
Defined.

(** The one way into the send of [TransferAuthority]: the [break] of the
    loop, on a nil sample with the flag set. *)
Lemma enters_transfer_authority cfg s a d ds ds' :
  devices s !! d = Some ds ->
  devices (step cfg s a) !! d = Some ds' ->
  at_pc ds <> SendTransferAuthority ->
  at_pc ds' = SendTransferAuthority ->
  at_pc ds = GetDirty /\ suspendedVM s = true /\
  exists e, a = Main d e /\ latest_dirty e = None.
Proof.
  intros Hds Hds' Hpc Hpc'.
  destruct (decide (actor a = d)) as [<-|Hne];
    [| rewrite step_other in Hds' by done; congruence].
  apply lookup_lt_Some in Hds as Hlt.
  destruct a as [d e|d|d i]; simpl in *; unfold step in Hds'; rewrite ?Hds in Hds'.
  - destruct (stage5Inputs cfg !! d) as [dev|]; [| congruence].
    unfold main_step, call_suspend, apply_policy in Hds'.
    repeat (case_match; simplify_eq/=);
      try (rewrite list_lookup_insert_eq in Hds' by done; simplify_eq/=);
      try congruence.
    eauto.
  - repeat (case_match; simplify_eq/=);
      try (rewrite list_lookup_insert_eq in Hds' by done; simplify_eq/=);
      congruence.
  - repeat (case_match; simplify_eq/=);
      try (rewrite list_lookup_insert_eq in Hds' by done; simplify_eq/=);
      congruence.
Qed.

(** C4. In every state a migration can reach, every [TransferAuthority]
    on the trace has the setting of the flag before it; the event is
    sent from the statement after the loop only, and a device gets
    there only from its sample, when the sample is nil and the flag is
    set. *)
Theorem transfer_authority_after_suspend (cfg : config) (s : state) :
  reachable cfg s ->
  (forall d, always_before SuspendedVMSet (TransferAuthority d) (trace s)) /\
  (forall a d,
     TransferAuthority d ∉ trace s -> TransferAuthority d ∈ trace (step cfg s a) ->
     exists ds, devices s !! d = Some ds /\ at_pc ds = SendTransferAuthority /\
                suspendedVM s = true) /\
  (forall a d ds ds',
     devices s !! d = Some ds -> devices (step cfg s a) !! d = Some ds' ->
     at_pc ds <> SendTransferAuthority -> at_pc ds' = SendTransferAuthority ->
     at_pc ds = GetDirty /\ suspendedVM s = true /\
     exists e, a = Main d e /\ latest_dirty e = None).
Proof.
  intros Hr. split; [apply (reachable_orders cfg s Hr) |]. split.
  - intros a d Hout Hin.
    destruct (step_event cfg s a) as [Heq | (e & Heq & He)]; rewrite Heq in Hin;
      [done |].
    apply elem_of_app in Hin as [Hin|Hin]; [done |].
    apply list_elem_of_singleton in Hin as <-.
    destruct He as [He | (ds & Hds & -> & Hpc)]; [done |].
    exists ds. repeat split; try done.
    pose proof (reachable_pc_fact cfg s Hr _ _ Hds) as Hf.
    unfold pc_fact in Hf. rewrite Hpc in Hf. tauto.
  - intros a d ds ds'. apply enters_transfer_authority.
Qed.

Lemma transfer_authority_after_suspend_witness :
  let s := exec Scenario.cfg (init Scenario.cfg) Scenario.late_write in
  (forall d, always_before SuspendedVMSet (TransferAuthority d) (trace s)) /\
  (forall a d,
     TransferAuthority d ∉ trace s ->
     TransferAuthority d ∈ trace (step Scenario.cfg s a) ->
     exists ds, devices s !! d = Some ds /\ at_pc ds = SendTransferAuthority /\
                suspendedVM s = true) /\
  (forall a d ds ds',
     devices s !! d = Some ds -> devices (step Scenario.cfg s a) !! d = Some ds' ->
     at_pc ds <> SendTransferAuthority -> at_pc ds' = SendTransferAuthority ->
     at_pc ds = GetDirty /\ suspendedVM s = true /\
     exists e, a = Main d e /\ latest_dirty e = None).
Proof.
  apply (transfer_authority_after_suspend Scenario.cfg). apply reachable_exec.
Defined.

(** C5, amended. In every state a migration can reach and for every
    device: no [WriteAt] of the device follows its [Completed]; its
    [Completed] has its [TransferAuthority] before it; no dirty list of
    the device follows its [TransferAuthority]; and when
    [TransferAuthority] is on the trace the device has left its loop and
    every [MigrateDirty] call it made has returned. *)
Theorem completed_after_last_write (cfg : config) (s : state) (d : nat) :
  reachable cfg s ->
  (forall b, never_after (Completed d) (WriteAt d b) (trace s)) /\
  always_before (TransferAuthority d) (Completed d) (trace s) /\
  (forall bl, never_after (TransferAuthority d) (DirtyList d bl) (trace s)) /\
  (TransferAuthority d ∈ trace s ->
   exists ds, devices s !! d = Some ds /\ wg ds = [] /\ after_loop (at_pc ds)).
Proof.
  intros Hr. destruct (reachable_orders cfg s Hr) as (_ & H2 & H3 & H4).
  split; [intros b; apply H4 |]. split; [apply H2 |].
  split; [intros bl; apply H3 |]. by apply (transferred_after_loop cfg).
Qed.

Lemma completed_after_last_write_witness :
  let s := exec Scenario.cfg (init Scenario.cfg) Scenario.late_write in
  (forall b, never_after (Completed 0) (WriteAt 0 b) (trace s)) /\
  always_before (TransferAuthority 0) (Completed 0) (trace s) /\
  (forall bl, never_after (TransferAuthority 0) (DirtyList 0 bl) (trace s)) /\
  (TransferAuthority 0 ∈ trace s ->
   exists ds, devices s !! 0%nat = Some ds /\ wg ds = [] /\ after_loop (at_pc ds)).
Proof.
  apply (completed_after_last_write Scenario.cfg). apply reachable_exec.
Defined.

(** C5 as it is worded fails: the block that was dirty at the
    suspension is written after [TransferAuthority]. *)
Lemma transfer_authority_after_last_write_fails :
  ~ transfer_authority_after_last_write.
Proof.
  intros H.
  specialize (H Scenario.cfg (exec Scenario.cfg (init Scenario.cfg) Scenario.late_write)
                0%nat 3%N (reachable_exec _ _)).
  apply (H [LoopMsync 0; LoopMsync 0; LoopMsync 0; OnBeforeSuspendHook;
            BeforeSuspendRPC; AgentClosed; SnapshotCreated; MsyncVM;
            OnAfterSuspendHook; SuspendedVMSet; SuspendedVMCtxCancelled;
            DirtyList 0 [3%N]]
           [WriteAt 0 3; Completed 0]).
  - vm_compute. reflexivity.
  - apply list_elem_of_here.
Qed.

(** C8, amended. A device that has gone through
    [MaxCycles + MinCycles + 1] iterations of its loop is marked ready,
    whatever it sampled; and when every sample held [MaxDirtyBlocks]
    blocks or more, it is marked exactly when it has gone through more
    than [MaxCycles] iterations. *)
Theorem ready_within_cycles (cfg : config) (s : state) (d : nat)
    (dev : MigrateToDevice) (ds : device) :
  reachable cfg s ->
  stage5Inputs cfg !! d = Some dev -> devices s !! d = Some ds ->
  0 <= MinCycles dev -> 0 <= MaxCycles dev ->
  MaxCycles dev + MinCycles dev + 1 < int_max ->
  (MaxCycles dev + MinCycles dev + 1 <= Z.of_nat (length (sampled ds)) ->
   marked_ready ds = true) /\
  (Z.of_nat (length (sampled ds)) <= int_max ->
   Forall (fun n => MaxDirtyBlocks dev <= n) (sampled ds) ->
   (marked_ready ds = true <-> MaxCycles dev < Z.of_nat (length (sampled ds)))).
Proof.
  intros Hr Hdev Hds Hmin Hmax Hfit.
  destruct (reachable_counters cfg s Hr d ds dev Hds Hdev) as [_ ->]. split.
  - intros Hlen.
    set (k := Z.to_nat (MaxCycles dev + MinCycles dev + 1)).
    rewrite <- (take_drop k (sampled ds)), marked_app.
    rewrite (marked_within dev (take k (sampled ds))); try done.
    rewrite length_take. lia.
  - intros Hlen Hall.
    rewrite forced_convergence by (simpl; done || lia).
    rewrite bool_decide_eq_true. simpl. split; [intros [_ ?]; lia |].
    intros Hlt. split; [| lia]. intros Hnil. rewrite Hnil in Hlt. simpl in Hlt. lia.
Qed.

Lemma ready_within_cycles_witness :
  let s := exec Scenario.cfg (init Scenario.cfg) Scenario.late_write in
  let ds := default device0 (devices s !! 0%nat) in
  let dev := Scenario.memory in
  (MaxCycles dev + MinCycles dev + 1 <= Z.of_nat (length (sampled ds)) ->
   marked_ready ds = true) /\
  (Z.of_nat (length (sampled ds)) <= int_max ->
   Forall (fun n => MaxDirtyBlocks dev <= n) (sampled ds) ->
   (marked_ready ds = true <-> MaxCycles dev < Z.of_nat (length (sampled ds)))).
Proof.
  apply (ready_within_cycles Scenario.cfg
           (exec Scenario.cfg (init Scenario.cfg) Scenario.late_write)
           0%nat Scenario.memory);
    [ apply reachable_exec | reflexivity | vm_compute; reflexivity
    | simpl; lia | simpl; lia | simpl; unfold int_max; lia ].
Defined.

(** C8 as it is worded fails: the device of the scenario has
    [MaxCycles = 1] and is in its third iteration before it is ready. *)
Lemma iterations_bounded_by_max_cycles_fails :
  ~ iterations_bounded_by_max_cycles.
Proof.
  intros H.
  set (ds := {| at_pc := CallSuspend;
                counters := {| cyclesBelowDirtyBlockTreshold := 3;
                               totalCycles := 3 |};
                marked_ready := true; wg := []; in_flight := [];
                sampled := [0; 0; 0] |}).
  assert (Hds : devices (exec Scenario.cfg (init Scenario.cfg) Scenario.three_cycles)
                  !! 0%nat = Some ds) by (vm_compute; reflexivity).
  pose proof (H Scenario.cfg _ 0%nat Scenario.memory ds
                (reachable_exec _ _) eq_refl Hds) as Hbound.
  vm_compute in Hbound. by apply Hbound.
Qed.

(** What a step does to the devices: it leaves them alone or replaces
    the one of its actor, which stays marked if it was. *)
Lemma step_devices cfg s a :
  devices (step cfg s a) = devices s \/
  exists ds ds',
    devices s !! actor a = Some ds /\
    devices (step cfg s a) = <[actor a := ds']> (devices s) /\
    (marked_ready ds = true -> marked_ready ds' = true).
Proof.
  destruct a as [d e|d|d i]; unfold step; simpl.
  - destruct (stage5Inputs cfg !! d) as [dev|]; [| by left].
    destruct (devices s !! d) as [ds|] eqn:Hds; [| by left].
    unfold main_step, call_suspend, apply_policy.
    repeat (case_match; simplify_eq/=); try (by left);
      right; eexists _, _; (split; [reflexivity |]); (split; [reflexivity |]);
      simpl; try done; by intros ->.
  - repeat (case_match; simplify_eq/=); try (by left);
      right; eexists _, _; (split; [reflexivity |]); (split; [reflexivity |]); done.
  - repeat (case_match; simplify_eq/=); try (by left);
      right; eexists _, _; (split; [reflexivity |]); (split; [reflexivity |]); done.
Qed.

(** C10. With fewer than 2^31 devices, in every state a migration can
    reach: the counter is the number of devices that are marked, so it
    lies between 0 and the number of devices; a step leaves it as it is
    or adds one, and adds one only by marking a device that was not
    marked; and when the counter has reached the number of devices,
    every device has had an iteration in which its policy held. *)
Theorem ready_marking_one_shot (cfg : config) (s : state) :
  Z.of_nat (length (stage5Inputs cfg)) < 2 ^ 31 ->
  reachable cfg s ->
  devicesLeftToTransferAuthorityFor s = ready_count (devices s) /\
  0 <= devicesLeftToTransferAuthorityFor s <= Z.of_nat (length (stage5Inputs cfg)) /\
  (forall a,
     devicesLeftToTransferAuthorityFor (step cfg s a)
       = devicesLeftToTransferAuthorityFor s \/
     devicesLeftToTransferAuthorityFor (step cfg s a)
       = devicesLeftToTransferAuthorityFor s + 1 /\
     exists ds ds',
       devices s !! actor a = Some ds /\
       devices (step cfg s a) !! actor a = Some ds' /\
       marked_ready ds = false /\ marked_ready ds' = true) /\
  (all_ready cfg s = true ->
   forall d dev ds,
     stage5Inputs cfg !! d = Some dev -> devices s !! d = Some ds ->
     marked_ready ds = true /\ marked dev (sampled ds) cycles0 = true).
Proof.
  intros HN Hr.
  pose proof (reachable_counter cfg s HN Hr) as Hc.
  pose proof (reachable_length cfg s Hr) as Hlen.
  pose proof (ready_count_bounds (devices s)) as Hb.
  split; [done |]. split; [lia |]. split.
  - intros a.
    pose proof (reachable_counter cfg _ HN (reachable_step cfg s a Hr)) as Hc'.
    rewrite Hc, Hc'.
    destruct (step_devices cfg s a) as [-> | (ds & ds' & Hds & Heq & Hkeep)];
      [by left |].
    rewrite Heq. pose proof (ready_count_insert _ _ _ ds' Hds) as Hi.
    unfold ready_bit in Hi.
    destruct (marked_ready ds) eqn:Hm.
    + rewrite Hkeep in Hi by done. left. lia.
    + destruct (marked_ready ds') eqn:Hm'; [| left; lia].
      right. split; [lia |]. exists ds, ds'. repeat split; try done.
      apply list_lookup_insert_eq. by eapply lookup_lt_Some.
  - intros Hall d dev ds Hdev Hds. unfold all_ready in Hall.
    rewrite wrap_int32_small in Hall by lia. apply Z.leb_le in Hall.
    assert (Hfull : ready_count (devices s) = Z.of_nat (length (devices s))) by lia.
    pose proof (ready_count_full _ Hfull d ds Hds) as Hm. split; [done |].
    by destruct (reachable_counters cfg s Hr d ds dev Hds Hdev) as [_ <-].
Qed.

Lemma ready_marking_one_shot_witness :
  let s := exec Scenario.cfg2 (init Scenario.cfg2) Scenario.three_cycles in
  devicesLeftToTransferAuthorityFor s = ready_count (devices s) /\
  0 <= devicesLeftToTransferAuthorityFor s <= 2 /\
  (forall a,
     devicesLeftToTransferAuthorityFor (step Scenario.cfg2 s a)
       = devicesLeftToTransferAuthorityFor s \/
     devicesLeftToTransferAuthorityFor (step Scenario.cfg2 s a)
       = devicesLeftToTransferAuthorityFor s + 1 /\
     exists ds ds',
       devices s !! actor a = Some ds /\
       devices (step Scenario.cfg2 s a) !! actor a = Some ds' /\
       marked_ready ds = false /\ marked_ready ds' = true) /\
  (all_ready Scenario.cfg2 s = true ->
   forall d dev ds,
     stage5Inputs Scenario.cfg2 !! d = Some dev -> devices s !! d = Some ds ->
     marked_ready ds = true /\ marked dev (sampled ds) cycles0 = true).
Proof.
  apply (ready_marking_one_shot Scenario.cfg2); [simpl; lia | apply reachable_exec].
Defined.

End MigrateToFacts.

(** * Further properties *)

Module HintFacts.
Import GoInt GoIntFacts Orderer OrdererFacts Migratable.

Lemma totalBlocks_ceil size blockSize :
  0 < blockSize < 2 ^ 32 -> 0 <= size < 2 ^ 62 ->
  totalBlocks size blockSize = Some ((size + blockSize - 1) / blockSize).
Proof.
  intros Hb Hs. unfold totalBlocks.
  destruct (Z.eqb_spec blockSize 0); [lia |].
  rewrite (wrap_int_small size) by (unfold int_min, int_max; lia).
  rewrite (wrap_int_small (size + blockSize)) by (unfold int_min, int_max; lia).
  rewrite (wrap_int_small (size + blockSize - 1)) by (unfold int_min, int_max; lia).
  rewrite Z.quot_div_nonneg by lia.
  rewrite wrap_int_small; [done |].
  assert (0 <= (size + blockSize - 1) / blockSize <= size + blockSize - 1).
  { split; [apply Z.div_pos; lia |]. apply Z.div_le_upper_bound; nia. }
  unfold int_min, int_max. lia.
Qed.

(** X1. A [NeedAt] for a range that starts inside the address space and
    is not empty promotes exactly the blocks the range touches, cut at
    the end of the device. *)
Theorem needAt_promotes_touched_blocks (size blockSize offset length : Z) :
  0 < blockSize -> 0 < size < 2 ^ 64 -> 0 <= offset -> 0 < length ->
  offset + length < 2 ^ 63 ->
  exists blocks,
    needAt_blocks size blockSize offset length = Some blocks /\
    forall b, b ∈ blocks <->
      offset / blockSize <= b /\
      b * blockSize < Z.min (offset + length) size.
Proof.
  intros Hb Hs Ho Hl Hfit.
  destruct (needAt_blocks_range size blockSize offset length) as (blocks & Heq & Hin);
    try done.
  exists blocks. split; [done |]. intros b. rewrite Hin.
  unfold spec_first, spec_last.
  set (e := Z.min (offset + length) size).
  assert (He : 1 <= e) by (unfold e; lia).
  replace (e + blockSize - 1) with (e - 1 + 1 * blockSize) by lia.
  rewrite Z.div_add by lia.
  split; intros [H1 H2]; (split; [done |]).
  - assert (b <= (e - 1) / blockSize) by lia.
    assert (blockSize * ((e - 1) / blockSize) <= e - 1) by (apply Z.mul_div_le; lia).
    nia.
  - assert (b <= (e - 1) / blockSize); [| lia].
    apply Z.div_le_lower_bound; [lia | nia].
Qed.

Lemma needAt_promotes_touched_blocks_witness :
  exists blocks,
    needAt_blocks 262144 65536 65536 65537 = Some blocks /\
    forall b, b ∈ blocks <->
      65536 / 65536 <= b /\ b * 65536 < Z.min (65536 + 65537) 262144.
Proof. apply needAt_promotes_touched_blocks; lia. Defined.

(** X2. A [DontNeedAt] for a range that starts inside the device and is
    not empty removes block 0 from the orderer and no other block,
    whatever the offset and the block size are. *)
Theorem dontNeedAt_removes_block_zero (size blockSize offset length : Z) :
  0 < size < 2 ^ 63 -> 0 <= offset < size -> 0 < length ->
  offset + length < 2 ^ 63 ->
  dontNeedAt_blocks size blockSize offset length = Some [0].
Proof. apply dontNeedAt_blocks_zero. Qed.

Lemma dontNeedAt_removes_block_zero_witness :
  dontNeedAt_blocks 262144 65536 196608 65536 = Some [0].
Proof. apply dontNeedAt_removes_block_zero; lia. Defined.

(** X3. The orderer of a device is made for as many blocks as cover the
    device, the last one possibly in part, and a [NeedAt] that starts
    at an offset that is not negative and is not empty promotes only
    blocks the orderer has. *)
Theorem needAt_blocks_within_totalBlocks (size blockSize offset length : Z) :
  0 < blockSize < 2 ^ 32 -> 0 < size < 2 ^ 62 -> 0 <= offset -> 0 < length ->
  offset + length < 2 ^ 63 ->
  exists t blocks,
    totalBlocks size blockSize = Some t /\
    (t - 1) * blockSize < size <= t * blockSize /\
    needAt_blocks size blockSize offset length = Some blocks /\
    forall b, b ∈ blocks -> 0 <= b < t.
Proof.
  intros Hb Hs Ho Hl Hfit.
  destruct (needAt_blocks_range size blockSize offset length) as (blocks & Heq & Hin);
    try lia.
  exists ((size + blockSize - 1) / blockSize), blocks.
  split; [apply totalBlocks_ceil; lia |].
  assert (Hdiv : (size + blockSize - 1) / blockSize = (size - 1) / blockSize + 1).
  { replace (size + blockSize - 1) with (size - 1 + 1 * blockSize) by lia.
    apply Z.div_add. lia. }
  assert (Hlo : blockSize * ((size - 1) / blockSize) <= size - 1)
    by (apply Z.mul_div_le; lia).
  assert (Hhi : size - 1 < blockSize * ((size - 1) / blockSize + 1)).
  { pose proof (Z.mod_pos_bound (size - 1) blockSize ltac:(lia)).
    pose proof (Z.div_mod (size - 1) blockSize ltac:(lia)). nia. }
  split; [rewrite Hdiv; nia |]. split; [done |].
  intros b Hbin. apply Hin in Hbin. unfold spec_first, spec_last in Hbin.
  destruct Hbin as [H1 H2]. split.
  - assert (0 <= offset / blockSize) by (apply Z.div_pos; lia). lia.
  - assert ((Z.min (offset + length) size + blockSize - 1) / blockSize
            <= (size + blockSize - 1) / blockSize); [| lia].
    apply Z.div_le_mono; lia.
Qed.

Lemma needAt_blocks_within_totalBlocks_witness :
  exists t blocks,
    totalBlocks 262145 65536 = Some t /\
    (t - 1) * 65536 < 262145 <= t * 65536 /\
    needAt_blocks 262145 65536 196608 131072 = Some blocks /\
    forall b, b ∈ blocks -> 0 <= b < t.
Proof. apply needAt_blocks_within_totalBlocks; lia. Defined.

Lemma length_block_range s e : length (block_range s e) = Z.to_nat (e - s).
Proof. unfold block_range. by rewrite length_fmap, length_seq. Qed.

(** X4. An empty hint at offset 0 is not a no-op: the end offset 0 less
    one wraps to the largest [uint64], so with a block size of 3 or
    more [NeedAt(0, 0)] promotes every index from 0 to
    [(2^64 - 1) / blockSize], among them indices the orderer has no
    block for, and [DontNeedAt(0, 0)] removes every index from 0 to
    [(2^64 - 1) / size]. *)
Theorem empty_hint_wraps (size blockSize : Z) :
  3 <= blockSize < 2 ^ 32 -> 3 <= size < 2 ^ 62 ->
  needAt_blocks size blockSize 0 0
    = Some (block_range 0 ((2 ^ 64 - 1) / blockSize + 1)) /\
  dontNeedAt_blocks size blockSize 0 0
    = Some (block_range 0 ((2 ^ 64 - 1) / size + 1)) /\
  exists t, totalBlocks size blockSize = Some t /\
    t ∈ block_range 0 ((2 ^ 64 - 1) / blockSize + 1).
Proof.
  intros Hb Hs.
  assert (Hq : forall d, 3 <= d < 2 ^ 62 ->
            2 ^ 2 <= (2 ^ 64 - 1) / d < 2 ^ 63 - 1).
  { intros d Hd. split.
    - apply Z.div_le_lower_bound; lia.
    - apply Z.div_lt_upper_bound; lia. }
  assert (He : endOffset size 0 0 = 0).
  { unfold endOffset. change (wrap_uint64 (wrap_int (0 + 0))) with 0.
    rewrite wrap_uint64_small by lia.
    destruct (Z.ltb_spec size 0); [lia | done]. }
  split; [| split].
  - unfold needAt_blocks. destruct (Z.eqb_spec blockSize 0); [lia |].
    rewrite He. change (wrap_uint64 (0 - 1)) with (2 ^ 64 - 1).
    rewrite Z.quot_0_l by lia. change (wrap_int 0) with 0.
    pose proof (Hq blockSize ltac:(lia)).
    rewrite (wrap_int_small ((2 ^ 64 - 1) / blockSize))
      by (unfold int_min, int_max; lia).
    rewrite wrap_int_small by (unfold int_min, int_max; lia). done.
  - unfold dontNeedAt_blocks. rewrite He.
    rewrite (wrap_int_small size) by (unfold int_min, int_max; lia).
    rewrite (wrap_uint64_small size) by lia.
    destruct (Z.eqb_spec size 0); [lia |]. simpl.
    change (wrap_uint64 (0 - 1)) with (2 ^ 64 - 1).
    rewrite Z.quot_0_l by lia. change (wrap_int 0) with 0.
    pose proof (Hq size ltac:(lia)).
    rewrite (wrap_int_small ((2 ^ 64 - 1) / size))
      by (unfold int_min, int_max; lia).
    rewrite wrap_int_small by (unfold int_min, int_max; lia). done.
  - exists ((size + blockSize - 1) / blockSize).
    split; [apply totalBlocks_ceil; lia |].
    rewrite elem_of_block_range.
    assert (0 <= (size + blockSize - 1) / blockSize) by (apply Z.div_pos; lia).
    assert ((size + blockSize - 1) / blockSize <= (2 ^ 64 - 1) / blockSize)
      by (apply Z.div_le_mono; lia).
    lia.
Qed.

Lemma empty_hint_wraps_witness :
  needAt_blocks 262144 65536 0 0
    = Some (block_range 0 ((2 ^ 64 - 1) / 65536 + 1)) /\
  dontNeedAt_blocks 262144 65536 0 0
    = Some (block_range 0 ((2 ^ 64 - 1) / 262144 + 1)) /\
  exists t, totalBlocks 262144 65536 = Some t /\
    t ∈ block_range 0 ((2 ^ 64 - 1) / 65536 + 1).
Proof. apply empty_hint_wraps; lia. Defined.

End HintFacts.

Module DirtyCallsFacts.
Import GoInt GoIntFacts DirtyManager DirtyManagerFacts DirtyCalls.

Lemma PostMigrateDirty_ready_known name n dm :
  ready_known dm -> ready_known (PostMigrateDirty name n dm).1.
Proof.
  intros Hwf. unfold PostMigrateDirty.
  destruct (Devices dm !! name) as [di|] eqn:Hdi; [| done].
  destruct (suspendedVM dm); [done |].
  assert (Hset : forall di1, Ready di1 = Ready di ->
            ready_known (set_status name di1 dm)).
  { intros di1 Hr name' Hin. destruct (Hwf name' Hin) as (di' & Hdi' & Hready).
    unfold set_status. simpl. destruct (decide (name' = name)) as [->|Hne].
    - exists di1. rewrite lookup_insert_eq. split; [done |]. congruence.
    - exists di'. by rewrite lookup_insert_ne. }
  assert (Hmark : forall di1, Ready di1 = Ready di ->
            ready_known (markDeviceReady name di1 dm)).
  { intros di1 Hr. unfold markDeviceReady.
    destruct (Ready di1) eqn:Hr1; [apply Hset; congruence |].
    intros name' Hin. simpl in *. destruct (decide (name' = name)) as [->|Hne].
    - eexists. rewrite lookup_insert_eq. done.
    - apply elem_of_union in Hin as [Hin|Hin]; [set_solver |].
      destruct (Hwf name' Hin) as (di' & Hdi' & Hready).
      exists di'. by rewrite lookup_insert_ne. }
  repeat case_match; simpl; try (by apply Hset); by apply Hmark.
Qed.

Lemma PostMigrateDirty_all_Ready name n dm :
  all_Ready dm -> all_Ready (PostMigrateDirty name n dm).1.
Proof.
  intros Hall. unfold PostMigrateDirty.
  destruct (Devices dm !! name) as [di|] eqn:Hdi; [| done].
  destruct (suspendedVM dm); [done |].
  pose proof (Hall name di Hdi) as Hr.
  unfold markDeviceReady, set_status, with_cycles. rewrite !Hr.
  repeat case_match; simpl; intros name' di' Hl; simpl in Hl;
    (apply lookup_insert_Some in Hl as [[<- <-]|[_ Hl]]; [done | by eapply Hall]).
Qed.

Lemma PostMigrateDirty_transfer name n dm :
  ready_known dm ->
  (PostMigrateDirty name n dm).2 = Cycled true ->
  AuthorityTransferCompleted dm = false /\
  AuthorityTransferCompleted (PostMigrateDirty name n dm).1 = true /\
  all_Ready (PostMigrateDirty name n dm).1.
Proof.
  intros Hwf Ho.
  destruct (PostMigrateDirty_latch name n dm) as [_ Hl].
  destruct (Hl Ho) as (H1 & H2 & Hsize). split; [done |]. split; [done |].
  pose proof (PostMigrateDirty_ready_known name n dm Hwf) as Hwf'.
  set (dm' := (PostMigrateDirty name n dm).1) in *.
  assert (Hsub : ReadyDevices dm' ⊆ dom (Devices dm')).
  { intros x Hx. destruct (Hwf' x Hx) as (di & Hdi & _).
    apply elem_of_dom. by exists di. }
  assert (Heq : ReadyDevices dm' ≡ dom (Devices dm')).
  { apply set_subseteq_size_equiv; [done |]. rewrite size_dom. lia. }
  intros x di Hdi.
  assert (Hx : x ∈ ReadyDevices dm') by (apply Heq, elem_of_dom; by exists di).
  destruct (Hwf' x Hx) as (di' & Hdi' & Hr). congruence.
Qed.

Lemma run_calls_cons name n b rest dm :
  run_calls ((name, n, b) :: rest) dm
  = ((run_calls rest (PostMigrateDirty name n (observe b dm)).1).1,
     (PostMigrateDirty name n (observe b dm)).2
       :: (run_calls rest (PostMigrateDirty name n (observe b dm)).1).2).
Proof.
  simpl. destruct (PostMigrateDirty name n (observe b dm)) as [dm1 o]. simpl.
  by destruct (run_calls rest dm1).
Qed.

Lemma observe_ready_known b dm : ready_known dm -> ready_known (observe b dm).
Proof. done. Qed.

Lemma observe_all_Ready b dm : all_Ready dm -> all_Ready (observe b dm).
Proof. done. Qed.

Lemma run_calls_all_Ready calls : forall dm,
  all_Ready dm -> all_Ready (run_calls calls dm).1.
Proof.
  induction calls as [|[[name n] b] rest IH]; intros dm Hall; [done |].
  rewrite run_calls_cons. simpl.
  by apply IH, PostMigrateDirty_all_Ready, observe_all_Ready.
Qed.

Lemma run_calls_latched calls : forall dm,
  AuthorityTransferCompleted dm = true ->
  transfers (run_calls calls dm).2 = 0%nat /\
  AuthorityTransferCompleted (run_calls calls dm).1 = true.
Proof.
  induction calls as [|[[name n] b] rest IH]; intros dm Hl; [done |].
  rewrite run_calls_cons. simpl.
  destruct (PostMigrateDirty_latch name n (observe b dm)) as [Hl1 _].
  destruct (Hl1 Hl) as [Hne Hl'].
  destruct (IH _ Hl') as [H0 H1]. split; [| done].
  unfold transfers in *. rewrite filter_cons_False by done. done.
Qed.

(** X5. However many devices call [PostMigrateDirty] and however often,
    whatever the state of the VM is at each call, from a manager whose
    ready devices are devices it knows as ready: at most one call gets
    past the latch to [SuspendAndMsync] and [AuthorityTransfer], none
    when the latch was set before, and when one did the latch is set
    and every device of the manager is [Ready]. *)
Theorem authority_transfer_at_most_once (calls : list (string * Z * bool))
    (dm : DirtyManager) :
  ready_known dm ->
  let dm' := (run_calls calls dm).1 in
  let os := (run_calls calls dm).2 in
  ready_known dm' /\
  (transfers os <= 1)%nat /\
  (AuthorityTransferCompleted dm = true -> transfers os = 0%nat) /\
  (transfers os = 1%nat ->
     AuthorityTransferCompleted dm = false /\
     AuthorityTransferCompleted dm' = true /\ all_Ready dm').
Proof.
  revert dm. induction calls as [|[[name n] b] rest IH]; intros dm Hwf.
  { unfold transfers. simpl. split; [done |]. split; [lia |].
    split; [done |]. intros H. discriminate H. }
  cbn zeta. rewrite run_calls_cons. simpl.
  pose proof (observe_ready_known b dm Hwf) as Hwf0.
  set (dm0 := observe b dm) in *.
  assert (Hl0 : AuthorityTransferCompleted dm0 = AuthorityTransferCompleted dm)
    by done.
  pose proof (PostMigrateDirty_ready_known name n dm0 Hwf0) as Hwf1.
  destruct (IH _ Hwf1) as (Hwf' & Hle & Hlatched & Hone).
  split; [done |].
  unfold transfers in *.
  destruct (decide ((PostMigrateDirty name n dm0).2 = Cycled true)) as [Ho|Ho].
  - rewrite filter_cons_True by done. simpl.
    destruct (PostMigrateDirty_transfer name n dm0 Hwf0 Ho) as (Hb & Ha & Hall).
    destruct (run_calls_latched rest _ Ha) as [H0 Hfin]. unfold transfers in H0.
    rewrite H0. split; [lia |]. split; [congruence |].
    intros _. split; [congruence |]. split; [done |].
    by apply run_calls_all_Ready.
  - rewrite filter_cons_False by done. split; [done |]. split.
    + intros Hl. apply Hlatched.
      change (AuthorityTransferCompleted dm0 = true) in Hl.
      by destruct (PostMigrateDirty_latch name n dm0) as [Hl1 _]; destruct (Hl1 Hl).
    + intros H1. destruct (Hone H1) as (Hb & Ha & Hall). split; [| done].
      destruct (AuthorityTransferCompleted dm) eqn:Hl; [| done].
      change (AuthorityTransferCompleted dm0 = true) in Hl.
      destruct (PostMigrateDirty_latch name n dm0) as [Hl1 _]. destruct (Hl1 Hl).
      congruence.
Qed.

Lemma manager0_ready_known : ready_known manager0.
Proof. intros name Hin. by apply elem_of_empty in Hin. Qed.

(** Two devices that each take two calm samples: the fourth call finds
    both ready and passes the latch, the fifth finds the latch set, the
    sixth finds the VM suspended. *)
Lemma authority_transfer_at_most_once_witness :
  let calls := [("memory", 0, false); ("disk", 0, false); ("memory", 0, false);
                ("disk", 0, false); ("memory", 0, false); ("disk", 0, true)] in
  let dm' := (run_calls calls manager0).1 in
  let os := (run_calls calls manager0).2 in
  os = [Cycled false; Cycled false; Cycled false; Cycled true; Cycled false;
        Suspended] /\
  transfers os = 1%nat /\
  ready_known manager0 /\
  ready_known dm' /\
  (transfers os <= 1)%nat /\
  (AuthorityTransferCompleted manager0 = true -> transfers os = 0%nat) /\
  (transfers os = 1%nat ->
     AuthorityTransferCompleted manager0 = false /\
     AuthorityTransferCompleted dm' = true /\ all_Ready dm').
Proof.
  split; [vm_compute; reflexivity |].
  split; [vm_compute; reflexivity |].
  split; [apply manager0_ready_known |].
  apply (authority_transfer_at_most_once _ manager0), manager0_ready_known.
Defined.

(** X6. On a running VM, [PostMigrateDirty] of the dirty manager does to
    the status of its device what the policy block of the loop of
    [MigrateTo] does to the counters of the loop: the same counters
    after the call, the device [Ready] exactly if it was or the policy
    marks it, its limits as they were; once the VM is suspended the
    call changes nothing, and for a name the manager does not know it
    panics on the nil status. *)
Theorem dirty_manager_runs_loop_policy (name : string) (n : Z)
    (dm : DirtyManager) (di : DeviceStatus) :
  Devices dm !! name = Some di ->
  (suspendedVM dm = false ->
     exists di',
       Devices (PostMigrateDirty name n dm).1 !! name = Some di' /\
       cycles_of di' = (Policy.policy (device_of name di) n (cycles_of di)).1 /\
       Ready di' = Ready di || (Policy.policy (device_of name di) n (cycles_of di)).2 /\
       device_of name di' = device_of name di) /\
  (suspendedVM dm = true -> PostMigrateDirty name n dm = (dm, Suspended)) /\
  (forall other, Devices dm !! other = None ->
     PostMigrateDirty other n dm = (dm, NilDeref)).
Proof.
  intros Hdi. split; [by apply PostMigrateDirty_policy |].
  split; [by apply (PostMigrateDirty_suspended name n dm di) |].
  intros other Hnone. unfold PostMigrateDirty. by rewrite Hnone.
Qed.

Lemma dirty_manager_runs_loop_policy_witness :
  (suspendedVM manager0 = false ->
     exists di',
       Devices (PostMigrateDirty "memory" 3 manager0).1 !! "memory" = Some di' /\
       cycles_of di'
         = (Policy.policy (device_of "memory" status0) 3 (cycles_of status0)).1 /\
       Ready di'
         = Ready status0
           || (Policy.policy (device_of "memory" status0) 3 (cycles_of status0)).2 /\
       device_of "memory" di' = device_of "memory" status0) /\
  (suspendedVM manager0 = true ->
     PostMigrateDirty "memory" 3 manager0 = (manager0, Suspended)) /\
  (forall other, Devices manager0 !! other = None ->
     PostMigrateDirty other 3 manager0 = (manager0, NilDeref)).
Proof.
  apply (dirty_manager_runs_loop_policy "memory" 3 manager0 status0).
  reflexivity.
Defined.

End DirtyCallsFacts.

Module WindowFacts.
Import GoInt GoIntFacts Policy PolicyFacts Window.

Lemma calm_run_snoc dev l n :
  calm_run dev (l ++ [n])
  = if n <? MaxDirtyBlocks dev then calm_run dev l + 1 else 0.
Proof. unfold calm_run. by rewrite foldl_app. Qed.

Lemma calm_run_nonneg dev l : 0 <= calm_run dev l.
Proof.
  induction l as [|n l IH] using rev_ind; [done |].
  rewrite calm_run_snoc. case_match; lia.
Qed.

(** The run counted is a run of the samples. *)
Lemma calm_run_suffix dev l :
  exists l1 l2, l = l1 ++ l2 /\ Forall (fun n => n < MaxDirtyBlocks dev) l2 /\
                calm_run dev l = Z.of_nat (length l2).
Proof.
  induction l as [|n l IH] using rev_ind.
  - exists [], []. done.
  - rewrite calm_run_snoc. destruct (Z.ltb_spec n (MaxDirtyBlocks dev)).
    + destruct IH as (l1 & l2 & -> & Hall & Hlen).
      exists l1, (l2 ++ [n]). rewrite app_assoc. split; [done |]. split.
      * apply Forall_app. split; [done |]. by apply Forall_singleton.
      * rewrite length_app. simpl. lia.
    + exists (l ++ [n]), []. rewrite app_nil_r. done.
Qed.

(** No run at the end of the samples is longer than the run counted. *)
Lemma calm_run_longest dev l2 : forall l1,
  Forall (fun n => n < MaxDirtyBlocks dev) l2 ->
  Z.of_nat (length l2) <= calm_run dev (l1 ++ l2).
Proof.
  induction l2 as [|n l2 IH] using rev_ind; intros l1 Hall.
  - rewrite app_nil_r. simpl. apply calm_run_nonneg.
  - apply Forall_app in Hall as [Hall Hn]. apply Forall_inv in Hn.
    rewrite app_assoc, calm_run_snoc.
    destruct (Z.ltb_spec n (MaxDirtyBlocks dev)); [| lia].
    specialize (IH l1 Hall). rewrite length_app. simpl. lia.
Qed.

(** As long as the device is not marked, the counter of the loop is the
    run counted. *)
Lemma unmarked_counts dev l :
  Z.of_nat (length l) < int_max ->
  marked dev l cycles0 = false ->
  cyclesBelowDirtyBlockTreshold (run dev l cycles0) = calm_run dev l /\
  totalCycles (run dev l cycles0) = Z.of_nat (length l).
Proof.
  induction l as [|n l IH] using rev_ind; intros Hfit Hm; [done |].
  rewrite length_app in Hfit. simpl in Hfit.
  rewrite marked_snoc in Hm. apply orb_false_iff in Hm as [Hm Hp].
  destruct IH as [Hb Ht]; [lia | done |].
  rewrite run_snoc, calm_run_snoc, length_app. simpl.
  pose proof (calm_run_nonneg dev l) as Hnn.
  pose proof (calm_run_suffix dev l) as (l1 & l2 & Hl & _ & Hlen).
  assert (calm_run dev l <= Z.of_nat (length l)).
  { rewrite Hlen, Hl, length_app. lia. }
  revert Hp. unfold policy. rewrite Hb, Ht.
  rewrite (wrap_int_small (Z.of_nat (length l) + 1))
    by (unfold int_min, int_max in *; lia).
  destruct (Z.ltb_spec n (MaxDirtyBlocks dev)); simpl.
  - rewrite wrap_int_small by (unfold int_min, int_max in *; lia).
    intros _. lia.
  - case_match; simpl; [done |]. intros _. lia.
Qed.

Lemma policy_marks dev l n :
  Z.of_nat (length l) + 1 < int_max ->
  marked dev l cycles0 = false ->
  (policy dev n (run dev l cycles0)).2 = true <->
  (n < MaxDirtyBlocks dev /\ MinCycles dev < calm_run dev l + 1) \/
  (MaxDirtyBlocks dev <= n /\ MaxCycles dev < Z.of_nat (length l) + 1).
Proof.
  intros Hfit Hm. destruct (unmarked_counts dev l) as [Hb Ht]; [lia | done |].
  pose proof (calm_run_nonneg dev l) as Hnn.
  pose proof (calm_run_suffix dev l) as (l1 & l2 & Hl & _ & Hlen).
  assert (calm_run dev l <= Z.of_nat (length l)).
  { rewrite Hlen, Hl, length_app. lia. }
  unfold policy. rewrite Hb, Ht.
  rewrite (wrap_int_small (Z.of_nat (length l) + 1))
    by (unfold int_min, int_max in *; lia).
  destruct (Z.ltb_spec n (MaxDirtyBlocks dev)); simpl.
  - rewrite wrap_int_small by (unfold int_min, int_max in *; lia).
    rewrite Z.ltb_lt. split; [intros ?; left; lia | intros [[_ ?]|[? _]]; lia].
  - destruct (Z.ltb_spec (MaxCycles dev) (Z.of_nat (length l) + 1)); simpl.
    + split; [intros _; right; lia | done].
    + split; [done | intros [[? _]|[_ ?]]; lia].
Qed.

Lemma calm_window_snoc dev l n :
  calm_window dev l -> calm_window dev (l ++ [n]).
Proof.
  intros (b & w & r & -> & Hne & Hall & Hlen).
  exists b, w, (r ++ [n]). by rewrite <- !app_assoc.
Qed.

Lemma forced_snoc dev l n : forced dev l -> forced dev (l ++ [n]).
Proof.
  intros (b & m & r & -> & Hm & Hlen).
  exists b, m, (r ++ [n]). by rewrite <- app_assoc.
Qed.

(** A window that ends before the last sample is a window of the
    samples before it. *)
Lemma calm_window_inv dev l n :
  calm_window dev (l ++ [n]) ->
  calm_window dev l \/
  (n < MaxDirtyBlocks dev /\ MinCycles dev < calm_run dev l + 1).
Proof.
  intros (b & w & r & Heq & Hne & Hall & Hlen).
  destruct r as [|x r _] using rev_ind.
  - right. rewrite app_nil_r in Heq.
    destruct w as [|y w _] using rev_ind; [done |].
    rewrite app_assoc in Heq. apply app_inj_tail in Heq as [-> ->].
    apply Forall_app in Hall as [Hall Hn]. apply Forall_inv in Hn.
    split; [done |].
    pose proof (calm_run_longest dev w b Hall).
    rewrite length_app in Hlen. simpl in Hlen. lia.
  - left. rewrite !app_assoc in Heq. apply app_inj_tail in Heq as [-> ->].
    exists b, w, r. by rewrite <- app_assoc.
Qed.

Lemma forced_inv dev l n :
  forced dev (l ++ [n]) ->
  forced dev l \/
  (MaxDirtyBlocks dev <= n /\ MaxCycles dev < Z.of_nat (length l) + 1).
Proof.
  intros (b & m & r & Heq & Hm & Hlen).
  destruct r as [|x r _] using rev_ind.
  - right. apply app_inj_tail in Heq as [-> ->]. done.
  - left. rewrite app_comm_cons, app_assoc in Heq.
    apply app_inj_tail in Heq as [-> ->]. by exists b, m, r.
Qed.

(** X7. What makes a device ready: over samples that fit an [int], some
    iteration of the loop marks the device exactly if some run of
    consecutive samples below [MaxDirtyBlocks] is longer than
    [MinCycles], or some sample at or above [MaxDirtyBlocks] comes
    after the first [MaxCycles] iterations. *)
Theorem marked_iff_calm_window_or_forced (dev : MigrateToDevice)
    (samples : list Z) :
  Z.of_nat (length samples) < int_max ->
  marked dev samples cycles0 = true <->
  calm_window dev samples \/ forced dev samples.
Proof.
  induction samples as [|n l IH] using rev_ind; intros Hfit.
  - simpl. split; [done |].
    intros [(b & w & r & Heq & Hne & _)|(b & m & r & Heq & _)].
    + symmetry in Heq. apply app_eq_nil in Heq as [_ Heq].
      apply app_eq_nil in Heq as [-> _]. done.
    + symmetry in Heq. apply app_eq_nil in Heq as [_ Heq]. done.
  - rewrite length_app in Hfit. simpl in Hfit.
    specialize (IH ltac:(lia)). rewrite marked_snoc.
    destruct (marked dev l cycles0) eqn:Hm.
    + simpl. split; [intros _ | done].
      destruct (proj1 IH eq_refl) as [H|H];
        [left; by apply calm_window_snoc | right; by apply forced_snoc].
    + simpl. rewrite policy_marks by (done || lia). split.
      * intros [[Hn Hrun]|[Hn Hlen]].
        -- left. destruct (calm_run_suffix dev l) as (l1 & l2 & -> & Hall & Hl2).
           exists l1, (l2 ++ [n]), []. rewrite app_nil_r, <- app_assoc.
           split; [done |]. split; [by destruct l2 |]. split.
           ++ apply Forall_app. split; [done |]. by apply Forall_singleton.
           ++ rewrite length_app. simpl. lia.
        -- right. exists l, n, []. done.
      * intros [H|H].
        -- apply calm_window_inv in H as [H|H]; [| by left].
           assert (false = true) by (apply IH; by left). done.
        -- apply forced_inv in H as [H|H]; [| by right].
           assert (false = true) by (apply IH; by right). done.
Qed.

Lemma marked_iff_calm_window_or_forced_witness :
  marked slow_disk [300; 10; 20; 250; 5; 250] cycles0 = true <->
  calm_window slow_disk [300; 10; 20; 250; 5; 250] \/
  forced slow_disk [300; 10; 20; 250; 5; 250].
Proof.
  apply (marked_iff_calm_window_or_forced slow_disk). unfold int_max. simpl. lia.
Defined.

End WindowFacts.

Module MigrateToMore.
Import GoInt GoIntFacts Policy PolicyFacts MigrateTo TraceFacts StageFacts MigrateToFacts.

(** The value of the once-only function stays. *)
Lemma finished_stays cfg s a r :
  suspendAndMsyncVM s = Finished r -> suspendAndMsyncVM (step cfg s a) = Finished r.
Proof. intros H. destruct a; step_cases. Qed.

Lemma finished_stays_exec cfg sched : forall s r,
  suspendAndMsyncVM s = Finished r ->
  suspendAndMsyncVM (exec cfg s sched) = Finished r.
Proof.
  induction sched as [|a sched IH]; intros s r H; [done |].
  rewrite exec_cons. by apply IH, finished_stays.
Qed.

(** Where an event of the suspend sequence comes from: the statement at
    which the function stands. *)
Lemma step_suspend_event cfg s a e :
  trace (step cfg s a) = trace s ++ [e] -> suspend_event e = true ->
  exists o st ok next,
    suspendAndMsyncVM s = Running o st /\
    stage_step (hooks cfg) ok st = (Some e, next).
Proof.
  intros Htr He. destruct a; step_cases;
    try (apply (f_equal length) in Htr; rewrite ?length_app in Htr; simpl in Htr; lia);
    try (apply app_inv_head in Htr; simplify_eq; try done).
  all: by eexists _, _, _, _.
Qed.

(** The flag is set exactly when its setting is on the trace. *)
Lemma set_event_flag cfg s :
  reachable cfg s -> SuspendedVMSet ∈ trace s -> suspendedVM s = true.
Proof.
  revert s. apply (reachable_ind cfg
    (fun s => SuspendedVMSet ∈ trace s -> suspendedVM s = true)).
  - simpl. intros H. by apply elem_of_nil in H.
  - intros s a Hr IH Hin.
    destruct (step_trace cfg s a) as [Heq | [e Heq]]; rewrite Heq in Hin.
    + by apply (step_flag cfg), IH.
    + apply elem_of_app in Hin as [Hin|Hin]; [by apply (step_flag cfg), IH |].
      apply list_elem_of_singleton in Hin as <-.
      destruct (step_suspend_event cfg s a _ Heq eq_refl)
        as (o & st & ok & next & Ho & Hst).
      assert (st = AtSetSuspendedVM) as ->
        by (destruct st, ok, (hooks cfg) as [[] []]; simpl in Hst; by simplify_eq).
      clear IH. destruct a; step_cases;
        apply (f_equal length) in Heq; rewrite ?length_app in Heq; simpl in Heq; lia.
Qed.

(** X8. A suspend sequence that failed stays failed: whatever the
    devices do from then on, the flag is never set, no device sends
    [TransferAuthority] or [Completed], and every device that calls
    [suspendAndMsyncVM] returns [ErrCouldNotSuspendAndMsyncVM]. *)
Theorem failed_suspend_transfers_nothing (cfg : config) (s : state)
    (err : error) (sched : list action) :
  reachable cfg s ->
  suspendAndMsyncVM s = Finished (Some err) ->
  let s' := exec cfg s sched in
  suspendAndMsyncVM s' = Finished (Some err) /\
  suspendedVM s' = false /\ (SuspendedVMSet ∉ trace s') /\
  (forall d, (TransferAuthority d ∉ trace s') /\ (Completed d ∉ trace s')) /\
  (forall d ds ds' e,
     devices s' !! d = Some ds -> at_pc ds = CallSuspend ->
     devices (step cfg s' (Main d e)) !! d = Some ds' ->
     at_pc ds' = Returned (Some ErrCouldNotSuspendAndMsyncVM)).
Proof.
  intros Hr Hfin s'.
  assert (Hr' : reachable cfg s') by by apply reachable_exec_from.
  assert (Hfin' : suspendAndMsyncVM s' = Finished (Some err))
    by by apply finished_stays_exec.
  pose proof (reachable_once cfg s' Hr') as Honce. unfold once_ok in Honce.
  rewrite Hfin' in Honce. destruct Honce as (_ & Hflag & _).
  assert (Hset : SuspendedVMSet ∉ trace s').
  { intros Hin. apply (set_event_flag cfg s' Hr') in Hin. congruence. }
  destruct (reachable_orders cfg s' Hr') as (Hta & Hco & _).
  assert (Hno : forall d, TransferAuthority d ∉ trace s').
  { intros d Hin. apply list_elem_of_split in Hin as (l1 & l2 & Heq).
    apply Hset. rewrite Heq. apply elem_of_app. left. by eapply Hta. }
  split; [done |]. split; [done |]. split; [done |]. split.
  - intros d. split; [done |].
    intros Hin. apply list_elem_of_split in Hin as (l1 & l2 & Heq).
    apply (Hno d). rewrite Heq. apply elem_of_app. left. by eapply Hco.
  - intros d ds ds' e Hds Hpc Hds'.
    assert (is_Some (stage5Inputs cfg !! d)) as [dev Hdev].
    { apply lookup_lt_is_Some. rewrite <- (reachable_length cfg s' Hr').
      by eapply lookup_lt_Some. }
    rewrite (call_step cfg s' d dev ds) in Hds' by done.
    unfold call_suspend in Hds'. rewrite Hfin' in Hds'. simpl in Hds'.
    rewrite list_lookup_insert_eq in Hds' by by eapply lookup_lt_Some.
    by simplify_eq.
Qed.

Lemma failed_suspend_transfers_nothing_witness :
  let s := exec Scenario.cfg (init Scenario.cfg) ScenarioMore.failed_msync in
  let s' := exec Scenario.cfg s (Scenario.quiet 6) in
  suspendAndMsyncVM s' = Finished (Some ErrCouldNotMsyncRunner) /\
  suspendedVM s' = false /\ (SuspendedVMSet ∉ trace s') /\
  (forall d, (TransferAuthority d ∉ trace s') /\ (Completed d ∉ trace s')) /\
  (forall d ds ds' e,
     devices s' !! d = Some ds -> at_pc ds = CallSuspend ->
     devices (step Scenario.cfg s' (Main d e)) !! d = Some ds' ->
     at_pc ds' = Returned (Some ErrCouldNotSuspendAndMsyncVM)).
Proof.
  apply (failed_suspend_transfers_nothing Scenario.cfg);
    [apply reachable_exec | vm_compute; reflexivity].
Defined.

(** Where the msync of an iteration comes from: the loop of a device
    with the name of the memory, while the flag is not set. *)
Lemma step_loop_msync cfg s a d :
  trace (step cfg s a) = trace s ++ [LoopMsync d] ->
  suspendedVM s = false /\
  exists dev, stage5Inputs cfg !! d = Some dev /\ Name dev = MemoryName cfg.
Proof.
  intros Htr. destruct a; step_cases;
    try (apply (f_equal length) in Htr; rewrite ?length_app in Htr; simpl in Htr; lia);
    try (apply app_inv_head in Htr; simplify_eq; try done).
  all: try (exfalso; match goal with
                     | H : stage_step _ _ _ = (Some (LoopMsync _), _) |- _ =>
                       apply stage_step_suspend_event in H; discriminate H
                     end).
  all: match goal with
       | H : negb _ && _ = true |- _ =>
         apply andb_true_iff in H as [Hn He];
         apply negb_true_iff in Hn; apply String.eqb_eq in He
       end.
  all: split; [done | eauto].
Qed.

(** X9. The memory is synced from a loop only while the VM runs: no
    [Msync] of an iteration follows the setting of the flag, and only
    the loop of a device that has the name of the memory syncs at
    all. *)
Theorem loop_msync_before_suspension (cfg : config) (s : state) (d : nat) :
  reachable cfg s ->
  never_after SuspendedVMSet (LoopMsync d) (trace s) /\
  (LoopMsync d ∈ trace s ->
   exists dev, stage5Inputs cfg !! d = Some dev /\ Name dev = MemoryName cfg).
Proof.
  revert s. apply (reachable_ind cfg (fun s =>
    never_after SuspendedVMSet (LoopMsync d) (trace s) /\
    (LoopMsync d ∈ trace s ->
     exists dev, stage5Inputs cfg !! d = Some dev /\ Name dev = MemoryName cfg))).
  - split; [apply never_after_nil |]. simpl. intros H. by apply elem_of_nil in H.
  - intros s a Hr [IH1 IH2].
    destruct (step_trace cfg s a) as [Heq | [e Heq]]; rewrite Heq; [done |].
    split.
    + apply never_after_snoc; [done |]. intros Hset ->.
      apply (set_event_flag cfg s Hr) in Hset.
      apply step_loop_msync in Heq as [Hrun _]. congruence.
    + intros Hin. apply elem_of_app in Hin as [Hin|Hin]; [by apply IH2 |].
      apply list_elem_of_singleton in Hin as <-.
      by apply step_loop_msync in Heq as [_ ?].
Qed.

Lemma loop_msync_before_suspension_witness :
  let s := exec Scenario.cfg (init Scenario.cfg) Scenario.late_write in
  never_after SuspendedVMSet (LoopMsync 0) (trace s) /\
  (LoopMsync 0 ∈ trace s ->
   exists dev, stage5Inputs Scenario.cfg !! 0%nat = Some dev /\
               Name dev = MemoryName Scenario.cfg).
Proof.
  apply (loop_msync_before_suspension Scenario.cfg). apply reachable_exec.
Defined.

(** A device that returned without an error sent [Completed]. *)
Lemma returned_completed cfg s :
  reachable cfg s ->
  forall d ds, devices s !! d = Some ds -> at_pc ds = Returned None ->
    Completed d ∈ trace s.
Proof.
  revert s. apply (reachable_ind cfg (fun s =>
    forall d ds, devices s !! d = Some ds -> at_pc ds = Returned None ->
      Completed d ∈ trace s)).
  - intros d ds Hds Hpc. apply init_lookup in Hds as ->. done.
  - intros s a Hr IH d ds Hds Hpc.
    destruct (decide (actor a = d)) as [<-|Hne].
    + destruct a as [d e|d|d i]; simpl in *; step_cases;
        try (by eapply IH);
        try (rewrite list_lookup_insert_eq in Hds by (by eapply lookup_lt_Some);
             simplify_eq/=; try done);
        try (apply elem_of_app; right; by apply list_elem_of_here);
        try (apply elem_of_app; left; by eapply IH);
        try (by eapply IH).
    + rewrite step_other in Hds by done.
      by eapply step_trace_mono, IH.
Qed.

Lemma hands_over_once_aux cfg s d :
  reachable cfg s ->
  forall ds, devices s !! d = Some ds -> at_pc ds = Returned None ->
    TransferAuthority d ∈ trace s /\ Completed d ∈ trace s.
Proof.
  intros Hr ds Hds Hpc.
  pose proof (reachable_pc_fact cfg s Hr d ds Hds) as Hf.
  unfold pc_fact in Hf. rewrite Hpc in Hf. destruct Hf as (_ & _ & Hta).
  split; [done |]. by eapply returned_completed.
Qed.

(** X10. A device hands over at most once: no second
    [TransferAuthority] and no second [Completed] of a device is ever
    sent, and a device that returned without an error has sent both,
    [TransferAuthority] first. *)
Theorem hands_over_once (cfg : config) (s : state) (d : nat) :
  reachable cfg s ->
  never_after (TransferAuthority d) (TransferAuthority d) (trace s) /\
  never_after (Completed d) (Completed d) (trace s) /\
  (forall ds, devices s !! d = Some ds -> at_pc ds = Returned None ->
     TransferAuthority d ∈ trace s /\ Completed d ∈ trace s /\
     always_before (TransferAuthority d) (Completed d) (trace s)).
Proof.
  intros Hr. split; [| split].
  - revert s Hr. apply (reachable_ind cfg (fun s =>
      never_after (TransferAuthority d) (TransferAuthority d) (trace s))).
    + apply never_after_nil.
    + intros s a Hr IH.
      destruct (step_event cfg s a) as [-> | (e & -> & He)]; [done |].
      apply never_after_snoc; [done |]. intros Hin ->.
      destruct He as [He | (ds & Hds & -> & Hpc)]; [done |].
      apply (transferred_after_loop cfg s Hr) in Hin as (ds' & Hds' & _ & Hal).
      simplify_eq. rewrite Hpc in Hal. done.
  - revert s Hr. apply (reachable_ind cfg (fun s =>
      never_after (Completed d) (Completed d) (trace s))).
    + apply never_after_nil.
    + intros s a Hr IH.
      destruct (step_event cfg s a) as [-> | (e & -> & He)]; [done |].
      apply never_after_snoc; [done |]. intros Hin ->.
      destruct He as [He | (ds & Hds & -> & Hpc)]; [done |].
      apply (completed_returned cfg s Hr) in Hin as (ds' & Hds' & Hpc').
      simplify_eq. congruence.
  - intros ds Hds Hpc.
    pose proof (reachable_pc_fact cfg s Hr d ds Hds) as Hf.
    unfold pc_fact in Hf. rewrite Hpc in Hf. destruct Hf as (_ & _ & Hta).
    split; [done |]. split; [by eapply returned_completed |].
    by destruct (reachable_orders cfg s Hr) as (_ & H2 & _).
Qed.

Lemma hands_over_once_witness :
  let s := exec Scenario.cfg (init Scenario.cfg) Scenario.late_write in
  never_after (TransferAuthority 0) (TransferAuthority 0) (trace s) /\
  never_after (Completed 0) (Completed 0) (trace s) /\
  (forall ds, devices s !! 0%nat = Some ds -> at_pc ds = Returned None ->
     TransferAuthority 0 ∈ trace s /\ Completed 0 ∈ trace s /\
     always_before (TransferAuthority 0) (Completed 0) (trace s)).
Proof.
  apply (hands_over_once Scenario.cfg). apply reachable_exec.
Defined.

(** The counter of the ready devices never goes down. *)
Lemma all_ready_stays cfg s a :
  Z.of_nat (length (stage5Inputs cfg)) < 2 ^ 31 -> reachable cfg s ->
  all_ready cfg s = true -> all_ready cfg (step cfg s a) = true.
Proof.
  intros HN Hr. unfold all_ready.
  rewrite (reachable_counter cfg s HN Hr).
  rewrite (reachable_counter cfg _ HN (reachable_step cfg s a Hr)).
  rewrite !Z.leb_le. intros Hle.
  destruct (step_devices cfg s a) as [-> | (ds & ds' & Hds & -> & Hkeep)]; [done |].
  pose proof (ready_count_insert _ _ _ ds' Hds) as Hi. unfold ready_bit in Hi.
  destruct (marked_ready ds); [rewrite Hkeep in Hi by done; lia |].
  destruct (marked_ready ds'); lia.
Qed.

(** A device that stands before its call of [suspendAndMsyncVM], and
    the function once it was called, have every device ready. *)
Lemma reachable_called cfg s :
  Z.of_nat (length (stage5Inputs cfg)) < 2 ^ 31 -> reachable cfg s ->
  (forall d ds, devices s !! d = Some ds -> at_pc ds = CallSuspend ->
     all_ready cfg s = true) /\
  (suspendAndMsyncVM s <> NotCalled -> all_ready cfg s = true).
Proof.
  intros HN. revert s. apply (reachable_ind cfg (fun s =>
    (forall d ds, devices s !! d = Some ds -> at_pc ds = CallSuspend ->
       all_ready cfg s = true) /\
    (suspendAndMsyncVM s <> NotCalled -> all_ready cfg s = true))).
  - split; [| done]. intros d ds Hds Hpc. apply init_lookup in Hds as ->. done.
  - intros s a Hr [IH1 IH2].
    pose proof (all_ready_stays cfg s a HN Hr) as Hstay. split.
    + intros d0 ds0 Hds0 Hpc0.
      destruct (decide (actor a = d0)) as [<-|Hne];
        [| rewrite step_other in Hds0 by done; by eapply Hstay, IH1].
      destruct (all_ready cfg s) eqn:Hall; [by apply Hstay |]. exfalso.
      destruct a as [d e|d|d i]; simpl in *; step_cases;
        try (rewrite list_lookup_insert_eq in Hds0 by (by eapply lookup_lt_Some);
             simplify_eq/=; try done);
        try (by rewrite (IH1 _ _ ltac:(eassumption) ltac:(eassumption)) in Hall);
        try (by rewrite IH1 in Hall; eauto);
        try (enough (false = true) by done; eapply IH1; eauto; congruence).
    + intros Hcalled.
      destruct (all_ready cfg s) eqn:Hall; [by apply Hstay |]. exfalso.
      destruct (suspendAndMsyncVM s) eqn:Ho;
        [| enough (false = true) by done; by apply IH2
         | enough (false = true) by done; by apply IH2].
      destruct a as [d e|d|d i]; simpl in *; step_cases;
        enough (false = true) by done; eapply IH1; eauto.
Qed.

(** X19. The VM is suspended only for devices that are all ready: with
    fewer than 2^31 devices, once [suspendAndMsyncVM] was called, or
    any of its events is on the trace, every device is marked ready
    and its own samples made it so. *)
Theorem suspend_only_when_all_ready (cfg : config) (s : state) :
  Z.of_nat (length (stage5Inputs cfg)) < 2 ^ 31 -> reachable cfg s ->
  suspendAndMsyncVM s <> NotCalled \/ suspend_events (trace s) <> [] ->
  all_ready cfg s = true /\
  forall d dev ds,
    stage5Inputs cfg !! d = Some dev -> devices s !! d = Some ds ->
    marked_ready ds = true /\ marked dev (sampled ds) cycles0 = true.
Proof.
  intros HN Hr Hcalled.
  assert (Hne : suspendAndMsyncVM s <> NotCalled).
  { destruct Hcalled as [?|Hev]; [done |]. intros Ho.
    pose proof (reachable_once cfg s Hr) as Honce. unfold once_ok in Honce.
    rewrite Ho in Honce. by destruct Honce as [? _]. }
  destruct (reachable_called cfg s HN Hr) as [_ Hall]. specialize (Hall Hne).
  split; [done |]. intros d dev ds Hdev Hds.
  pose proof (reachable_counter cfg s HN Hr) as Hc.
  pose proof (reachable_length cfg s Hr) as Hlen.
  pose proof (ready_count_bounds (devices s)) as Hb.
  unfold all_ready in Hall. rewrite wrap_int32_small in Hall by lia.
  apply Z.leb_le in Hall.
  assert (Hfull : ready_count (devices s) = Z.of_nat (length (devices s))) by lia.
  pose proof (ready_count_full _ Hfull d ds Hds) as Hm. split; [done |].
  by destruct (reachable_counters cfg s Hr d ds dev Hds Hdev) as [_ <-].
Qed.

Lemma suspend_only_when_all_ready_witness :
  let s := exec Scenario.cfg (init Scenario.cfg) Scenario.suspended in
  all_ready Scenario.cfg s = true /\
  forall d dev ds,
    stage5Inputs Scenario.cfg !! d = Some dev -> devices s !! d = Some ds ->
    marked_ready ds = true /\ marked dev (sampled ds) cycles0 = true.
Proof.
  apply (suspend_only_when_all_ready Scenario.cfg);
    [simpl; lia | apply reachable_exec | left; vm_compute; discriminate].
Defined.

End MigrateToMore.

Module FinishFacts.
Import GoInt GoIntFacts Policy PolicyFacts MigrateTo TraceFacts StageFacts MigrateToFacts.
Import MigrateToMore Finish.

(** One action of the schedule brings the device nearer to its return. *)
Lemma next_action_progress cfg s d dev ds :
  stage5Inputs cfg !! d = Some dev -> devices s !! d = Some ds ->
  suspendedVM s = true -> suspendAndMsyncVM s = Finished None ->
  (forall r, at_pc ds <> Returned r) ->
  exists ds',
    devices (step cfg s (next_action d ds)) !! d = Some ds' /\
    (steps_left ds' < steps_left ds)%nat /\
    (forall e, at_pc ds' <> Returned (Some e)).
Proof.
  intros Hdev Hds Hs Hfin Hpc.
  apply lookup_lt_Some in Hds as Hlt.
  unfold next_action, steps_left.
  destruct ds as [p c m w f sm]. simpl in *.
  destruct p; try (by destruct (Hpc r)); destruct w as [|b w]; destruct f as [|x f];
    simpl; unfold step; rewrite ?Hdev, ?Hds; simpl;
    unfold main_step, call_suspend, apply_policy; simpl; rewrite ?Hs, ?Hfin; simpl;
    repeat case_match; simpl;
    rewrite list_lookup_insert_eq by done;
    (eexists; split; [reflexivity |]); simpl;
    rewrite ?length_app; (split; [lia | done]).
Qed.

Lemma finish_unfold n cfg d s ds :
  devices s !! d = Some ds -> (forall r, at_pc ds <> Returned r) ->
  finish (S n) cfg d s
  = next_action d ds :: finish n cfg d (step cfg s (next_action d ds)).
Proof.
  intros Hds Hpc. simpl. rewrite Hds.
  destruct (at_pc ds) eqn:Hp; try done. by destruct (Hpc r).
Qed.

Lemma finish_returned n cfg d s ds r :
  devices s !! d = Some ds -> at_pc ds = Returned r -> finish n cfg d s = [].
Proof. intros Hds Hpc. destruct n; [done |]. simpl. by rewrite Hds, Hpc. Qed.

Lemma next_action_actor d ds : actor (next_action d ds) = d.
Proof. unfold next_action. by repeat case_match. Qed.

Lemma finish_returns cfg d : forall n s ds,
  reachable cfg s -> suspendedVM s = true -> suspendAndMsyncVM s = Finished None ->
  devices s !! d = Some ds -> (forall e, at_pc ds <> Returned (Some e)) ->
  (steps_left ds <= n)%nat ->
  Forall (fun a => actor a = d) (finish n cfg d s) /\
  (length (finish n cfg d s) <= steps_left ds)%nat /\
  exists ds', devices (exec cfg s (finish n cfg d s)) !! d = Some ds' /\
              at_pc ds' = Returned None.
Proof.
  induction n as [|n IH]; intros s ds Hr Hs Hfin Hds Hok Hle.
  - assert (exists r, at_pc ds = Returned r) as [r Hpc].
    { unfold steps_left in Hle. destruct (at_pc ds); simpl in Hle; try lia. eauto. }
    simpl. split; [done |]. split; [lia |]. exists ds. split; [done |].
    destruct r as [e|]; [by destruct (Hok e) | done].
  - assert ((exists r, at_pc ds = Returned r) \/ ~ exists r, at_pc ds = Returned r)
      as [[r Hpc]|Hpc].
    { destruct (at_pc ds); try (right; by intros [? ?]). left. eauto. }
    + rewrite (finish_returned _ _ _ _ ds r) by done.
      split; [done |]. split; [simpl; lia |]. exists ds. split; [done |].
      destruct r as [e|]; [by destruct (Hok e) | done].
    + assert (Hpc' : forall r, at_pc ds <> Returned r) by (intros r Hr'; eauto).
      assert (is_Some (stage5Inputs cfg !! d)) as [dev Hdev].
      { apply lookup_lt_is_Some. rewrite <- (reachable_length cfg s Hr).
        by eapply lookup_lt_Some. }
      destruct (next_action_progress cfg s d dev ds Hdev Hds Hs Hfin Hpc')
        as (ds1 & Hds1 & Hlt & Hok1).
      rewrite (finish_unfold n cfg d s ds) by done.
      destruct (IH (step cfg s (next_action d ds)) ds1) as (Hall & Hlen & Hend);
        [by apply reachable_step | by apply (step_flag cfg)
        | by apply finished_stays | done | done | lia |].
      split; [apply Forall_cons; split; [apply next_action_actor | done] |].
      split; [simpl; lia |]. by rewrite exec_cons.
Qed.

Lemma exec_other cfg d d' sched : forall s,
  Forall (fun a => actor a = d) sched -> d' <> d ->
  devices (exec cfg s sched) !! d' = devices s !! d'.
Proof.
  induction sched as [|a sched IH]; intros s Hall Hne; [done |].
  apply Forall_cons in Hall as [Ha Hall]. rewrite exec_cons, IH by done.
  apply step_other. congruence.
Qed.

(** X11. Once the VM is suspended a device finishes on its own: from
    any state a migration can reach in which the suspend sequence has
    run to its end, a device that has not failed returns without an
    error after at most [steps_left] steps of its own, when its
    samples are nil and no call fails; [TransferAuthority] and
    [Completed] are on the wire then, and no other device has
    moved. *)
Theorem suspended_device_finishes (cfg : config) (s : state) (d : nat)
    (ds : device) :
  reachable cfg s ->
  suspendedVM s = true -> suspendAndMsyncVM s = Finished None ->
  devices s !! d = Some ds -> (forall e, at_pc ds <> Returned (Some e)) ->
  let sched := finish (steps_left ds) cfg d s in
  let s' := exec cfg s sched in
  Forall (fun a => actor a = d) sched /\
  (length sched <= steps_left ds)%nat /\
  (exists ds', devices s' !! d = Some ds' /\ at_pc ds' = Returned None) /\
  TransferAuthority d ∈ trace s' /\ Completed d ∈ trace s' /\
  (forall d', d' <> d -> devices s' !! d' = devices s !! d').
Proof.
  intros Hr Hs Hfin Hds Hok sched s'.
  destruct (finish_returns cfg d (steps_left ds) s ds) as (Hall & Hlen & Hend);
    try done.
  assert (Hr' : reachable cfg s') by by apply reachable_exec_from.
  split; [done |]. split; [done |]. split; [done |].
  destruct Hend as (ds' & Hds' & Hpc').
  destruct (hands_over_once_aux cfg s' d Hr' ds' Hds' Hpc') as (Hta & Hco).
  split; [done |]. split; [done |].
  intros d' Hne. by apply (exec_other cfg d).
Qed.

Lemma suspended_device_finishes_witness :
  let s := exec Scenario.cfg (init Scenario.cfg) Scenario.suspended in
  let ds := default device0 (devices s !! 0%nat) in
  let sched := finish (steps_left ds) Scenario.cfg 0 s in
  let s' := exec Scenario.cfg s sched in
  Forall (fun a => actor a = 0%nat) sched /\
  (length sched <= steps_left ds)%nat /\
  (exists ds', devices s' !! 0%nat = Some ds' /\ at_pc ds' = Returned None) /\
  TransferAuthority 0 ∈ trace s' /\ Completed 0 ∈ trace s' /\
  (forall d', d' <> 0%nat -> devices s' !! d' = devices s !! d').
Proof.
  apply (suspended_device_finishes Scenario.cfg
           (exec Scenario.cfg (init Scenario.cfg) Scenario.suspended) 0%nat);
    [ apply reachable_exec | vm_compute; reflexivity | vm_compute; reflexivity
    | vm_compute; reflexivity | intros e; vm_compute; discriminate ].
Defined.

End FinishFacts.

Module DeviceNodeFacts.
Import GoInt GoIntFacts DeviceNode.

Lemma lor_high_low a b :
  0 <= b < 2 ^ 8 -> Z.lor (a * 2 ^ 8) b = a * 2 ^ 8 + b.
Proof.
  intros Hb. rewrite <- (Z.add_lor_land (a * 2 ^ 8) b).
  assert (Z.land (a * 2 ^ 8) b = 0) as ->; [| lia].
  apply Z.bits_inj'. intros n Hn. rewrite Z.land_spec, Z.bits_0.
  destruct (Z.lt_ge_cases n 8) as [Hlt|Hge].
  - by rewrite Z.mul_pow2_bits_low.
  - apply andb_false_iff. right.
    destruct (Z.eq_dec b 0) as [->|Hne]; [apply Z.bits_0 |].
    apply Z.bits_above_log2; [lia |].
    assert (Z.log2 b < 8); [| lia]. apply Z.log2_lt_pow2; lia.
Qed.

(** X12. Splitting the device number of the block device at 256 and
    putting the two parts together again loses nothing: for every
    [Rdev] the number package roles makes the node with is [Rdev]
    itself as an [int], the number package peer uses; it is [Rdev] for
    every [Rdev] below 2^63. *)
Theorem deviceID_is_rdev (rdev : Z) :
  0 <= rdev < 2 ^ 64 ->
  deviceID rdev = exposed_deviceID rdev /\
  (rdev < 2 ^ 63 -> deviceID rdev = rdev).
Proof.
  intros Hr. unfold deviceID, exposed_deviceID.
  assert (Hq : 0 <= rdev / 256 < 2 ^ 56).
  { split; [apply Z.div_pos; lia |]. apply Z.div_lt_upper_bound; lia. }
  pose proof (Z.mod_pos_bound rdev 256 ltac:(lia)) as Hm.
  rewrite (wrap_uint64_small (rdev / 256)) by lia.
  rewrite (wrap_uint64_small (rdev mod 256)) by lia.
  rewrite Z.shiftl_mul_pow2 by lia.
  rewrite (wrap_uint64_small (rdev / 256 * 2 ^ 8)) by lia.
  rewrite lor_high_low by lia.
  assert (rdev / 256 * 2 ^ 8 + rdev mod 256 = rdev) as ->.
  { pose proof (Z.div_mod rdev 256 ltac:(lia)). lia. }
  split; [done |]. intros Hlt.
  apply wrap_int_small. unfold int_min, int_max. lia.
Qed.

Lemma deviceID_is_rdev_witness :
  deviceID 11008 = exposed_deviceID 11008 /\
  (11008 < 2 ^ 63 -> deviceID 11008 = 11008).
Proof. apply deviceID_is_rdev. lia. Defined.

End DeviceNodeFacts.

Module StagesFacts.
Import Stages.

Section join.
Context {I D : Type} (iname : I -> string) (dname : D -> string).

Lemma first_named_Some devices n device :
  first_named dname devices n = Some device <->
  exists before after,
    devices = before ++ device :: after /\ dname device = n /\
    n ∉ dname <$> before.
Proof.
  induction devices as [|x rest IH]; simpl.
  - split; [done |]. intros (b & a & Heq & _). by destruct b.
  - destruct (String.eqb_spec (dname x) n) as [Heq|Hne].
    + split.
      * intros [= ->]. exists [], rest. split; [done |]. split; [done |].
        simpl. apply not_elem_of_nil.
      * intros (b & a & Hd & Hn & Hnot). destruct b as [|y b]; simpl in *.
        -- by simplify_eq.
        -- simplify_eq. exfalso. apply Hnot. apply list_elem_of_here.
    + rewrite IH. split.
      * intros (b & a & -> & Hn & Hnot). exists (x :: b), a.
        split; [done |]. split; [done |]. simpl.
        apply not_elem_of_cons. done.
      * intros (b & a & Hd & Hn & Hnot). destruct b as [|y b]; simpl in *.
        -- simplify_eq.
        -- simplify_eq. exists b, a. split; [done |]. split; [done |].
           by apply not_elem_of_cons in Hnot as [_ ?].
Qed.

Lemma first_named_None devices n :
  first_named dname devices n = None <-> n ∉ dname <$> devices.
Proof.
  induction devices as [|x rest IH]; simpl.
  - split; [intros _; apply not_elem_of_nil | done].
  - destruct (String.eqb_spec (dname x) n) as [Heq|Hne].
    + split; [done |]. intros Hnot. exfalso. apply Hnot. rewrite Heq.
      apply list_elem_of_here.
    + rewrite IH, not_elem_of_cons. split; [by intros ? | by intros [_ ?]].
Qed.

(** X13. The inputs of the next stage are the inputs of the stage
    before that some device of the call is named after, in their
    order, each with the first device of its name: an input no device
    is named after is left out without an error, and a second device
    of a name is never used. *)
Theorem next_stage_first_named (inputs : list I) (devices : list D) :
  (next_stage iname dname inputs devices).*1
    = filter (fun input => iname input ∈ dname <$> devices) inputs /\
  (forall input device,
     (input, device) ∈ next_stage iname dname inputs devices ->
     input ∈ inputs /\
     exists before after,
       devices = before ++ device :: after /\ dname device = iname input /\
       iname input ∉ dname <$> before) /\
  (length (next_stage iname dname inputs devices) <= length inputs)%nat.
Proof.
  induction inputs as [|input rest (IH1 & IH2 & IH3)]; simpl.
  - split; [done |]. split; [| done]. intros ? ? H. by apply elem_of_nil in H.
  - destruct (first_named dname devices (iname input)) as [device|] eqn:Hf.
    + pose proof Hf as Hf'. apply first_named_Some in Hf' as (b & a & Hd & Hn & Hnot).
      assert (Hin : iname input ∈ dname <$> devices).
      { rewrite Hd, fmap_app, elem_of_app. right. simpl. rewrite Hn.
        apply list_elem_of_here. }
      rewrite filter_cons_True by done. rewrite fmap_cons, IH1. simpl.
      split; [done |]. split; [| lia].
      intros i d Hel. apply elem_of_cons in Hel as [[= -> ->]|Hel].
      * split; [apply list_elem_of_here |]. by exists b, a.
      * destruct (IH2 i d Hel) as [? ?]. split; [by apply list_elem_of_further | done].
    + apply first_named_None in Hf. rewrite filter_cons_False by done.
      split; [done |]. split; [| lia].
      intros i d Hel. destruct (IH2 i d Hel) as [? ?].
      split; [by apply list_elem_of_further | done].
Qed.

End join.

Lemma next_stage_example :
  next_stage id Policy.Name stage4_names migrate_to
  = [("memory", {| Policy.Name := "memory"; Policy.MaxDirtyBlocks := 200;
                   Policy.MinCycles := 5; Policy.MaxCycles := 20;
                   Policy.CycleThrottle := 500000000 |});
     ("disk", {| Policy.Name := "disk"; Policy.MaxDirtyBlocks := 200;
                 Policy.MinCycles := 5; Policy.MaxCycles := 20;
                 Policy.CycleThrottle := 500000000 |})].
Proof. reflexivity. Qed.

End StagesFacts.

Module DevicesSentFacts.
Import GoInt GoIntFacts DevicesSent.

Lemma sent_exec_snoc h s sched a :
  exec h s (sched ++ [a]) = step h (exec h s sched) a.
Proof. unfold exec. by rewrite foldl_app. Qed.

Lemma sent_reachable_ind n h (P : state -> Prop) :
  P (init n) ->
  (forall s a, reachable n h s -> P s -> P (step h s a)) ->
  forall s, reachable n h s -> P s.
Proof.
  intros H0 Hstep s [sched ->].
  induction sched as [|a sched IH] using rev_ind; [done |].
  rewrite sent_exec_snoc. apply Hstep; [by eexists | done].
Qed.

Ltac step_cases :=
  unfold step in *; repeat (case_match; simplify_eq/=; try done).

Lemma before_nil a b : before a b [].
Proof. intros l1 l2 H. by destruct l1. Qed.

Lemma before_snoc a b tr e :
  before a b tr -> (e = b -> a ∈ tr) -> before a b (tr ++ [e]).
Proof.
  intros Htr He l1 l2 Heq.
  destruct l2 as [|x l2 _] using rev_ind.
  - apply app_inj_tail in Heq as [-> ->]. by apply He.
  - change (l1 ++ b :: l2 ++ [x]) with (l1 ++ (b :: l2) ++ [x]) in Heq.
    rewrite app_assoc in Heq. apply app_inj_tail in Heq as [-> _].
    by eapply Htr.
Qed.

Lemma before_app a b l : forall tr,
  before a b tr -> (b ∈ l -> a ∈ tr) -> before a b (tr ++ l).
Proof.
  induction l as [|x l IH]; intros tr Htr Hl; [by rewrite app_nil_r |].
  change (tr ++ x :: l) with (tr ++ [x] ++ l). rewrite app_assoc. apply IH.
  - apply before_snoc; [done |]. intros ->. apply Hl, list_elem_of_here.
  - intros Hb. apply elem_of_app. left. apply Hl. by apply list_elem_of_further.
Qed.

Lemma sent_step_length h s a : length (pcs (step h s a)) = length (pcs s).
Proof. destruct a; step_cases; by rewrite ?length_insert. Qed.

Lemma sent_reachable_length n h s : reachable n h s -> length (pcs s) = n.
Proof.
  revert s. apply sent_reachable_ind.
  - simpl. apply length_replicate.
  - intros s a _ IH. by rewrite sent_step_length.
Qed.

Lemma sent_step_trace h s a : exists l, trace (step h s a) = trace s ++ l.
Proof.
  destruct a; step_cases; try (by eexists); exists []; by rewrite app_nil_r.
Qed.

Lemma sent_step_trace_mono h s a e : e ∈ trace s -> e ∈ trace (step h s a).
Proof.
  intros He. destruct (sent_step_trace h s a) as [l ->]. apply elem_of_app. by left.
Qed.

Lemma count_insert (l : list pc) : forall d p q,
  l !! d = Some p ->
  count (<[d := q]> l)
  = count l - (if counted p then 1 else 0) + (if counted q then 1 else 0).
Proof.
  unfold count. induction l as [|x l IH]; intros d p q Hd; [done |].
  destruct d as [|d]; simpl in *.
  - simplify_eq. rewrite !filter_cons.
    destruct (counted p), (counted q); repeat case_decide; simpl; try done; lia.
  - rewrite !filter_cons. specialize (IH d p q Hd).
    case_decide; simpl; lia.
Qed.

Lemma count_le (l : list pc) : 0 <= count l <= Z.of_nat (length l).
Proof. unfold count. pose proof (length_filter (fun p => counted p = true) l). lia. Qed.

Lemma count_full (l : list pc) :
  count l = Z.of_nat (length l) <-> Forall (fun p => counted p = true) l.
Proof.
  unfold count. induction l as [|x l IH]; [done |].
  rewrite filter_cons, Forall_cons. simpl.
  pose proof (length_filter (fun p => counted p = true) l).
  case_decide; simpl.
  - rewrite <- IH. split; [intros ?; split; [done | lia] | intros [_ ?]; lia].
  - split; [lia | intros [? _]; done].
Qed.

Lemma sent_reachable_counter n h s :
  Z.of_nat n < 2 ^ 31 -> reachable n h s ->
  devicesLeftToSend s = count (pcs s).
Proof.
  intros Hn. revert s. apply sent_reachable_ind.
  - unfold count. simpl. induction n as [|n IH]; [done |].
    simpl. rewrite filter_cons_False by done. apply IH. lia.
  - intros s a Hr IH. pose proof (sent_reachable_length n h s Hr) as Hlen.
    pose proof (count_le (pcs s)) as Hc.
    destruct a as [d ok|i ok]; step_cases;
      try (erewrite count_insert by done; simpl; try lia).
    match goal with
    | H : pcs s !! ?d = Some AddSent |- _ =>
      pose proof (count_le (<[d := LoadSent]> (pcs s))) as Hc';
      rewrite length_insert in Hc';
      rewrite (count_insert _ _ _ LoadSent H) in Hc'; simpl in Hc'
    end.
    rewrite wrap_int32_small; lia.
Qed.

(** How a step changes where a device stands. *)
Lemma step_pc h s a d0 p0 :
  pcs (step h s a) !! d0 = Some p0 ->
  pcs s !! d0 = Some p0 \/
  exists ok, a = Main d0 ok /\
    ((pcs s !! d0 = Some SendDevInfo /\ p0 = AddSent /\
      DevInfoSent d0 ∈ trace (step h s a)) \/
     (pcs s !! d0 = Some SendDevInfo /\ p0 = Failed) \/
     (pcs s !! d0 = Some AddSent /\ p0 = LoadSent) \/
     (pcs s !! d0 = Some LoadSent /\ p0 = Started)).
Proof.
  intros H. destruct a as [d ok|i ok]; unfold step in *.
  - destruct (pcs s !! d) as [p|] eqn:Hd; [| by left].
    destruct p; try (by left); try destruct ok; simpl in *;
      (apply list_lookup_insert_Some in H as [(-> & <- & _)|[? H]]; [| by left]);
      right; eexists; (split; [reflexivity |]); eauto 10.
    left. split; [done |]. split; [done |]. simpl.
    apply elem_of_app. right. apply list_elem_of_here.
  - destruct (pending s !! i); by left.
Qed.

Lemma reachable_pc_sent n h s : reachable n h s -> pc_sent s.
Proof.
  revert s. apply sent_reachable_ind.
  - intros d p Hd. simpl in Hd. by apply lookup_replicate in Hd as [-> _].
  - intros s a Hr IH d0 p0 Hd0.
    apply step_pc in Hd0 as [Hd0 | (ok & -> & Hcase)].
    + specialize (IH _ _ Hd0). destruct p0; try done; by apply sent_step_trace_mono.
    + destruct Hcase as [(Hd & -> & Hin)|[(Hd & ->)|[(Hd & ->)|(Hd & ->)]]];
        try done; specialize (IH _ _ Hd); by apply sent_step_trace_mono.
Qed.

#[local] Arguments all_sent : simpl never.

Lemma all_sent_app l1 l2 : all_sent (l1 ++ l2) = (all_sent l1 + all_sent l2)%nat.
Proof. unfold all_sent. by rewrite filter_app, length_app. Qed.

Lemma reachable_started n h s :
  Z.of_nat n < 2 ^ 31 -> reachable n h s -> started_ok n s.
Proof.
  intros Hn. revert s. apply sent_reachable_ind.
  - split; [apply NoDup_nil_2 |]. split; [intros d H; by apply elem_of_nil in H |].
    split; [intros d H; by apply elem_of_nil in H |]. split; [done |]. simpl. lia.
  - intros s a Hr (IH1 & IH2 & IH3 & IH4 & IH5).
    pose proof (sent_reachable_length n h s Hr) as Hlen.
    pose proof (sent_reachable_counter n h s Hn Hr) as Hcnt.
    pose proof (reachable_pc_sent n h s Hr) as Hsent.
    assert (Hmono : forall e, e ∈ trace s -> e ∈ trace (step h s a))
      by (intros; by apply sent_step_trace_mono).
    destruct a as [d ok|i ok]; unfold step in *.
    + destruct (pcs s !! d) as [p|] eqn:Hd; [| done].
      assert (Hkeep : forall q, q <> Started -> p <> Started ->
                forall d', d' ∈ started s -> <[d := q]> (pcs s) !! d' = Some Started).
      { intros q _ Hp d' Hin. specialize (IH2 d' Hin).
        rewrite list_lookup_insert_ne; [done |]. intros <-. congruence. }
      destruct p; try done.
      * unfold started_ok.
        destruct ok; simpl; (split; [done |]); (split; [by apply Hkeep |]);
          (split; [done |]); [| done].
        split.
        -- intros Hne d' Hd'. apply elem_of_app. left. by apply IH4.
        -- cbn [trace pending started]. rewrite all_sent_app. unfold all_sent at 2.
           destruct (OnDeviceSent h); simpl; rewrite ?filter_cons_False by done;
             simpl; lia.
      * unfold started_ok. simpl. split; [done |]. split; [by apply Hkeep |]. done.
      * unfold started_ok. simpl.
        destruct (Z.leb_spec (wrap_int32 (Z.of_nat (length (pcs s))))
                    (devicesLeftToSend s)) as [Hall|Hall].
        -- rewrite Hlen, wrap_int32_small in Hall by lia.
           assert (Hfull : Forall (fun p => counted p = true) (pcs s)).
           { apply count_full. pose proof (count_le (pcs s)). lia. }
           assert (Hnew : d ∉ started s).
           { intros Hin. specialize (IH2 d Hin). congruence. }
           split; [apply NoDup_app; split; [done |]; split;
                   [intros x Hx Hx'; apply list_elem_of_singleton in Hx' as ->; done
                   | apply NoDup_singleton] |].
           split.
           { intros d' Hin. apply elem_of_app in Hin as [Hin|Hin].
             - specialize (IH2 d' Hin). rewrite list_lookup_insert_ne; [done |].
               intros <-. done.
             - apply list_elem_of_singleton in Hin as ->.
               apply list_lookup_insert_eq. by eapply lookup_lt_Some. }
           split.
           { intros d' Hin. apply elem_of_app in Hin as [Hin|Hin];
               apply elem_of_app; [left; by apply IH3 | by right]. }
           split.
           { intros _ d' Hd'. rewrite <- Hlen in Hd'.
             apply lookup_lt_is_Some in Hd' as [p' Hp'].
             pose proof (Hsent d' p' Hp') as Hs.
             rewrite Forall_forall in Hfull.
             specialize (Hfull p' ltac:(by eapply list_elem_of_lookup_2)).
             by destruct p'. }
           cbn [trace pending started]. rewrite !length_app. simpl. lia.
        -- split; [done |]. split.
           { intros d' Hin. specialize (IH2 d' Hin).
             destruct (decide (d' = d)) as [->|Hne]; [congruence |].
             by rewrite list_lookup_insert_ne. }
           done.
    + destruct (pending s !! i) as [d|] eqn:Hp; [| done]. unfold started_ok. simpl.
      split; [done |]. split; [done |]. split.
      { intros d' Hin. apply IH3. rewrite <- (take_drop_middle _ _ _ Hp).
        rewrite delete_take_drop in Hin. apply elem_of_app in Hin as [Hin|Hin];
          apply elem_of_app; [by left | right; by apply list_elem_of_further]. }
      assert (Hdel : S (length (delete i (pending s))) = length (pending s)).
      { rewrite length_delete by done. apply lookup_lt_Some in Hp. lia. }
      split.
      { intros Hne d' Hd'. specialize (IH4 Hne d' Hd').
        destruct ok; [apply elem_of_app; by left | done]. }
      cbn [trace pending started]. destruct ok; [| lia].
      rewrite all_sent_app. unfold all_sent at 2.
      rewrite filter_cons_True by done.
      destruct (OnAllDevicesSent h); simpl; rewrite ?filter_cons_False by done;
        simpl; lia.
Qed.

Lemma all_sent_zero tr i : all_sent tr = 0%nat -> AllDevicesSent i ∉ tr.
Proof.
  unfold all_sent. intros Hz Hin.
  assert (AllDevicesSent i ∈ filter (fun e => is_all_sent e = true) tr)
    by (by apply list_elem_of_filter).
  apply length_zero_iff_nil in Hz. rewrite Hz in H. by apply elem_of_nil in H.
Qed.

(** What a step puts on the trace. *)
Lemma step_all_sent h s a i :
  AllDevicesSent i ∈ trace (step h s a) ->
  AllDevicesSent i ∈ trace s \/ i ∈ pending s.
Proof.
  destruct a as [d ok|j ok]; unfold step.
  - destruct (pcs s !! d) as [[]|]; try destruct ok; simpl; try (by left).
    rewrite elem_of_app. intros [?|Hin]; [by left |].
    destruct (OnDeviceSent h);
      repeat (apply elem_of_cons in Hin as [Hin|Hin]; [discriminate Hin |]);
      by apply elem_of_nil in Hin.
  - destruct (pending s !! j) as [d|] eqn:Hp; [| by left].
    destruct ok; simpl; [| by left].
    rewrite elem_of_app. intros [?|Hin]; [by left |].
    apply elem_of_cons in Hin as [[= ->]|Hin].
    + right. by eapply list_elem_of_lookup_2.
    + destruct (OnAllDevicesSent h);
        repeat (apply elem_of_cons in Hin as [Hin|Hin]; [discriminate Hin |]);
        by apply elem_of_nil in Hin.
Qed.

Lemma reachable_before n h s :
  Z.of_nat n < 2 ^ 31 -> reachable n h s ->
  forall i d, (d < n)%nat -> before (DevInfoSent d) (AllDevicesSent i) (trace s).
Proof.
  intros Hn Hr i d Hd. revert s Hr.
  apply (sent_reachable_ind n h (fun s => before (DevInfoSent d) (AllDevicesSent i) (trace s))).
  - apply before_nil.
  - intros s a Hr IH. pose proof (reachable_started n h s Hn Hr) as (_ & _ & H3 & H4 & _).
    destruct (sent_step_trace h s a) as [l Hl].
    assert (Hnew : AllDevicesSent i ∈ l -> DevInfoSent d ∈ trace s).
    { intros Hin.
      destruct (decide (started s = [])) as [Hnil|Hne]; [| by apply H4].
      exfalso.
      assert (AllDevicesSent i ∈ trace (step h s a))
        by (rewrite Hl; apply elem_of_app; by right).
      destruct (step_all_sent h s a i) as [Hold|Hp]; [done | |].
      - pose proof (reachable_started n h s Hn Hr) as (_ & _ & _ & _ & H5).
        rewrite Hnil in H5. simpl in H5.
        by apply (all_sent_zero (trace s) i); [lia |].
      - apply H3 in Hp. rewrite Hnil in Hp. by apply elem_of_nil in Hp. }
    rewrite Hl. by apply before_app.
Qed.

(** When every device has added itself, one of them still has its load
    before it or a sender was started. *)
Lemma reachable_some_sender n h s :
  Z.of_nat n < 2 ^ 31 -> reachable n h s ->
  Forall (fun p => counted p = true) (pcs s) ->
  (exists d, pcs s !! d = Some LoadSent) \/ started s <> [] \/ pcs s = [].
Proof.
  intros Hn. revert s. apply (sent_reachable_ind n h (fun s =>
    Forall (fun p => counted p = true) (pcs s) ->
    (exists d, pcs s !! d = Some LoadSent) \/ started s <> [] \/ pcs s = [])).
  - destruct n; [by right; right |]. simpl. intros Hall.
    apply Forall_cons in Hall as [? _]. done.
  - intros s a Hr IH Hall.
    pose proof (sent_reachable_length n h s Hr) as Hlen.
    pose proof (sent_reachable_counter n h s Hn Hr) as Hcnt.
    destruct a as [d ok|i ok]; unfold step in *.
    + destruct (pcs s !! d) as [p|] eqn:Hd; [| by apply IH].
      apply lookup_lt_Some in Hd as Hlt.
      destruct p; try (by apply IH).
      * exfalso. destruct ok; simpl in Hall; rewrite Forall_forall in Hall.
        -- specialize (Hall AddSent). simpl in Hall.
           assert (false = true); [| done]. apply Hall.
           eapply list_elem_of_lookup_2. by apply list_lookup_insert_eq.
        -- specialize (Hall Failed). simpl in Hall.
           assert (false = true); [| done]. apply Hall.
           eapply list_elem_of_lookup_2. by apply list_lookup_insert_eq.
      * left. exists d. simpl. by apply list_lookup_insert_eq.
      * simpl in *. right. left.
        assert (Hfull : Forall (fun p => counted p = true) (pcs s)).
        { rewrite Forall_forall in *. intros p Hp.
          apply list_elem_of_lookup in Hp as [j Hj].
          destruct (decide (j = d)) as [->|Hne]; [by simplify_eq |].
          apply Hall. eapply list_elem_of_lookup_2.
          by rewrite list_lookup_insert_ne. }
        apply count_full in Hfull.
        destruct (Z.leb_spec (wrap_int32 (Z.of_nat (length (pcs s))))
                    (devicesLeftToSend s)) as [_|Hlt'].
        -- intros Hnil. by apply app_eq_nil in Hnil as [_ ?].
        -- rewrite Hlen, wrap_int32_small in Hlt' by lia. lia.
    + destruct (pending s !! i); by apply IH.
Qed.

Lemma failed_stays h s a d :
  pcs s !! d = Some Failed -> pcs (step h s a) !! d = Some Failed.
Proof.
  intros Hd. destruct a as [d' ok|i ok]; unfold step.
  - destruct (pcs s !! d') as [p|] eqn:Hd'; [| done].
    destruct (decide (d' = d)) as [->|Hne].
    + by simplify_eq.
    + destruct p; try done; try destruct ok; simpl;
        by rewrite list_lookup_insert_ne.
  - by destruct (pending s !! i).
Qed.

Lemma step_dev_info h s a d :
  DevInfoSent d ∈ trace (step h s a) ->
  DevInfoSent d ∈ trace s \/ pcs (step h s a) !! d = Some AddSent.
Proof.
  destruct a as [d' ok|i ok]; unfold step.
  - destruct (pcs s !! d') as [p|] eqn:Hp; [| by left].
    destruct p; try destruct ok; simpl; try (by left).
    rewrite elem_of_app. intros [?|Hin]; [by left |].
    apply elem_of_cons in Hin as [[= <-]|Hin].
    + right. apply list_lookup_insert_eq. by eapply lookup_lt_Some.
    + destruct (OnDeviceSent h);
        repeat (apply elem_of_cons in Hin as [Hin|Hin]; [discriminate Hin |]);
        by apply elem_of_nil in Hin.
  - destruct (pending s !! i) as [x|]; [| by left].
    destruct ok; simpl; [| by left].
    rewrite elem_of_app. intros [?|Hin]; [by left |].
    apply elem_of_cons in Hin as [Hin|Hin]; [discriminate Hin |].
    destruct (OnAllDevicesSent h);
      repeat (apply elem_of_cons in Hin as [Hin|Hin]; [discriminate Hin |]);
      by apply elem_of_nil in Hin.
Qed.

(** A device that has not sent its [DevInfo], or could not, has none on
    the trace. *)
Lemma reachable_unsent n h s :
  reachable n h s ->
  forall d p, pcs s !! d = Some p -> p = SendDevInfo \/ p = Failed ->
    DevInfoSent d ∉ trace s.
Proof.
  revert s. apply (sent_reachable_ind n h (fun s =>
    forall d p, pcs s !! d = Some p -> p = SendDevInfo \/ p = Failed ->
      DevInfoSent d ∉ trace s)).
  - simpl. intros d p _ _ Hin. by apply elem_of_nil in Hin.
  - intros s a Hr IH d p Hd Hp Hin.
    apply step_dev_info in Hin as [Hin|Hadd].
    + apply step_pc in Hd as [Hd|(ok & -> & Hcase)].
      * by apply (IH d p Hd Hp).
      * destruct Hcase as [(_ & -> & _)|[(Hd0 & _)|[(_ & ->)|(_ & ->)]]];
          try (by destruct Hp).
        by apply (IH d SendDevInfo Hd0); [left |].
    + rewrite Hadd in Hd. simplify_eq. by destruct Hp.
Qed.

(** X14. The announcement of the devices, over every interleaving of
    the goroutines of fewer than 2^31 devices: every [AllDevicesSent]
    on the wire has the [DevInfo] of every device before it; at most
    one goes out per device, so at most as many as there are devices;
    once every device is past its load a sender has been started, if
    there is a device at all; and when the [DevInfo] of a device could
    not be sent, none goes out. One is not the bound: two devices that
    both add to the counter before either loads it both send. *)
Theorem all_devices_sent_after_every_dev_info (n : nat) (h : hooks) (s : state) :
  Z.of_nat n < 2 ^ 31 -> reachable n h s ->
  (forall i d, (d < n)%nat ->
     before (DevInfoSent d) (AllDevicesSent i) (trace s)) /\
  (all_sent (trace s) <= length (started s) <= n)%nat /\
  NoDup (started s) /\
  ((0 < n)%nat -> Forall (fun p => p = Started) (pcs s) -> started s <> []) /\
  (Failed ∈ pcs s -> all_sent (trace s) = 0%nat) /\
  all_sent (trace (exec h (init 2) both_see_all)) = 2%nat.
Proof.
  intros Hn Hr.
  pose proof (reachable_started n h s Hn Hr) as (H1 & H2 & H3 & H4 & H5).
  pose proof (sent_reachable_length n h s Hr) as Hlen.
  split; [apply (reachable_before n h s Hn Hr) |]. split; [split; [lia |] |].
  { assert (started s ⊆+ seq 0 n) as Hsub; [| apply submseteq_length in Hsub;
      by rewrite length_seq in Hsub].
    apply NoDup_submseteq; [done |].
    intros d Hd. apply elem_of_seq. apply H2, lookup_lt_Some in Hd. lia. }
  split; [done |]. split; [| split].
  - intros Hpos Hall.
    destruct (reachable_some_sender n h s Hn Hr) as [[d Hd]|[?|Hnil]]; try done.
    + eapply Forall_impl; [exact Hall |]. by intros p ->.
    + rewrite Forall_forall in Hall.
      specialize (Hall LoadSent ltac:(by eapply list_elem_of_lookup_2)). done.
    + rewrite Hnil in Hlen. simpl in Hlen. lia.
  - intros Hf. apply list_elem_of_lookup in Hf as [d Hd].
    destruct (decide (started s = [])) as [Hnil|Hne].
    + rewrite Hnil in H5. simpl in H5. lia.
    + exfalso. apply lookup_lt_Some in Hd as Hlt. rewrite Hlen in Hlt.
      by apply (reachable_unsent n h s Hr d Failed Hd); [right | apply H4].
  - by destruct h as [[] []].
Qed.

Lemma sent_reachable_exec n h sched : reachable n h (exec h (init n) sched).
Proof. by exists sched. Qed.

Lemma all_devices_sent_after_every_dev_info_witness :
  let h := {| OnDeviceSent := true; OnAllDevicesSent := true |} in
  let s := exec h (init 2) both_see_all in
  (forall i d, (d < 2)%nat ->
     before (DevInfoSent d) (AllDevicesSent i) (trace s)) /\
  (all_sent (trace s) <= length (started s) <= 2)%nat /\
  NoDup (started s) /\
  ((0 < 2)%nat -> Forall (fun p => p = Started) (pcs s) -> started s <> []) /\
  (Failed ∈ pcs s -> all_sent (trace s) = 0%nat) /\
  all_sent (trace (exec h (init 2) both_see_all)) = 2%nat.
Proof.
  apply (all_devices_sent_after_every_dev_info 2); [simpl; lia | apply sent_reachable_exec].
Defined.

End DevicesSentFacts.

Module RunnerFacts.
Import Runner.

(** Takes a membership in a list that is written out apart. *)
Ltac members H :=
  repeat match type of H with
         | _ ∈ _ :: _ => apply elem_of_cons in H as [H|H]; [try discriminate H |]
         | _ ∈ [] => by apply elem_of_nil in H
         | _ ∈ _ ++ _ => simpl in H
         end.

(** X15. Whatever calls fail, [SuspendAndCloseAgentServer] of the runner
    makes a snapshot only after the guest was told and both ends of
    the agent were closed; it writes the memory to a copy, never to
    the file of the memory, and opens that file for truncation only
    when the snapshot was made and the copy could be opened; with a
    shared mapping it touches no file; it closes every file it opened;
    and it returns no error exactly if none of its calls failed. *)
Theorem suspend_snapshot_after_close (r : runner) (memoryCopyName : string)
    (fails : call -> bool) :
  let calls := (SuspendAndCloseAgentServer r memoryCopyName fails).1 in
  let err := (SuspendAndCloseAgentServer r memoryCopyName fails).2 in
  (forall st m t, CreateSnapshot st m t ∈ calls ->
     (exists rest,
        calls = [BeforeSuspend; CloseAcceptingAgent; CloseAgent]
                  ++ CreateSnapshot st m t :: rest) /\
     fails BeforeSuspend = false /\ fails CloseAcceptingAgent = false /\
     st = stateName r /\
     if mapShared r then m = "" /\ t = SnapshotTypeMsyncAndState
     else m = memoryCopyName /\ t = SnapshotTypeFull) /\
  (forall p, OpenTruncate p ∈ calls ->
     mapShared r = false /\ p = Join r (VMPath r) (memoryName r) /\
     fails (CreateSnapshot (stateName r) memoryCopyName SnapshotTypeFull) = false /\
     fails (Open (Join r (VMPath r) memoryCopyName)) = false) /\
  (mapShared r = true ->
     forall c, c ∈ calls ->
       match c with
       | Open _ | OpenTruncate _ | Copy _ _ | CloseFile _ => False
       | _ => True
       end) /\
  (forall p, (Open p ∈ calls /\ fails (Open p) = false) \/
             (OpenTruncate p ∈ calls /\ fails (OpenTruncate p) = false) ->
     CloseFile p ∈ calls) /\
  (err = None <->
   forall c, c ∈ calls -> fallible c = true -> fails c = false).
Proof.
  unfold SuspendAndCloseAgentServer.
  destruct (fails BeforeSuspend) eqn:H1; [| destruct (fails CloseAcceptingAgent) eqn:H2;
    [| destruct (mapShared r) eqn:Hm;
       [ destruct (fails (CreateSnapshot (stateName r) "" SnapshotTypeMsyncAndState)) eqn:H3
       | destruct (fails (CreateSnapshot (stateName r) memoryCopyName SnapshotTypeFull)) eqn:H3;
         [| destruct (fails (Open (Join r (VMPath r) memoryCopyName))) eqn:H4;
            [| destruct (fails (OpenTruncate (Join r (VMPath r) (memoryName r)))) eqn:H5;
               [| destruct (fails (Copy (Join r (VMPath r) (memoryName r))
                                        (Join r (VMPath r) memoryCopyName))) eqn:H6 ]]]]]];
    cbn [fst snd app].
  all: split; [intros st m t Hin; members Hin; simplify_eq;
               (split; [by eexists |]); done |].
  all: split; [intros p Hin; members Hin; by simplify_eq |].
  all: split; [intros Hs c Hin; try discriminate Hs; members Hin; by subst |].
  all: split; [intros p [[Hin Hf]|[Hin Hf]]; members Hin; simplify_eq;
               try congruence;
               repeat first [apply list_elem_of_here | apply list_elem_of_further] |].
  all: split; [intros Herr; try discriminate Herr;
               intros c Hin Hfal; members Hin; by subst
              | intros Hall; try done; exfalso ].
  - by rewrite (Hall BeforeSuspend) in H1; [| apply list_elem_of_here |].
  - by rewrite (Hall CloseAcceptingAgent) in H2;
      [| repeat first [apply list_elem_of_here | apply list_elem_of_further] |].
  - by rewrite (Hall (CreateSnapshot (stateName r) "" SnapshotTypeMsyncAndState)) in H3;
      [| repeat first [apply list_elem_of_here | apply list_elem_of_further] |].
  - by rewrite (Hall (CreateSnapshot (stateName r) memoryCopyName SnapshotTypeFull)) in H3;
      [| repeat first [apply list_elem_of_here | apply list_elem_of_further] |].
  - by rewrite (Hall (Open (Join r (VMPath r) memoryCopyName))) in H4;
      [| repeat first [apply list_elem_of_here | apply list_elem_of_further] |].
  - by rewrite (Hall (OpenTruncate (Join r (VMPath r) (memoryName r)))) in H5;
      [| repeat first [apply list_elem_of_here | apply list_elem_of_further] |].
  - by rewrite (Hall (Copy (Join r (VMPath r) (memoryName r))
                          (Join r (VMPath r) memoryCopyName))) in H6;
      [| repeat first [apply list_elem_of_here | apply list_elem_of_further] |].
Qed.

End RunnerFacts.

Module FromFSFacts.
Import GoString Schema SchemaFacts FromFS.

Lemma createSiloDevSchema_name fs i ds :
  createSiloDevSchema fs i = inr ds -> ds_Name ds = Name i.
Proof.
  unfold createSiloDevSchema. intros H.
  repeat case_match; by simplify_eq.
Qed.

Lemma scan_ok fs devices : forall done log log' group,
  scan fs devices done log = (log', inr group) ->
  exists made,
    group = done ++ made /\
    Forall2 (fun input ds => createSiloDevSchema fs input = inr ds)
      (filter (fun i => Shared i = false) devices) made /\
    log' = log ++ ((fun i => Expose (Name i) (Base i))
                     <$> filter (fun i => Shared i = true) devices) /\
    Forall (fun i => expose fs (Name i) (Base i) = None)
      (filter (fun i => Shared i = true) devices).
Proof.
  induction devices as [|input rest IH]; intros done log log' group H; simpl in H.
  - simplify_eq. exists []. rewrite !app_nil_r. done.
  - destruct (Shared input) eqn:Hs.
    + destruct (expose fs (Name input) (Base input)) eqn:He; [done |].
      apply IH in H as (made & -> & Hmade & -> & Hexp). exists made.
      rewrite filter_cons_False by congruence.
      rewrite filter_cons_True by done. rewrite fmap_cons, <- app_assoc.
      split; [done |]. split; [done |]. split; [done |]. by apply Forall_cons.
    + destruct (createSiloDevSchema fs input) as [e|ds] eqn:Hc; [done |].
      apply IH in H as (made & -> & Hmade & -> & Hexp). exists (ds :: made).
      rewrite filter_cons_True by done.
      rewrite filter_cons_False by congruence. rewrite <- app_assoc.
      split; [done |]. split; [by apply Forall2_cons |]. done.
Qed.

Lemma expose_all_ok fs g schemas : forall log log',
  expose_all fs g schemas log = (log', None) ->
  log' = log ++ ((fun ds => Expose (ds_Name ds) (device_path g (ds_Name ds)))
                   <$> schemas).
Proof.
  induction schemas as [|ds rest IH]; intros log log' H; simpl in H.
  - simplify_eq. by rewrite app_nil_r.
  - destruct (expose fs (ds_Name ds) (device_path g (ds_Name ds))); [done |].
    apply IH in H as ->. by rewrite fmap_cons, <- app_assoc.
Qed.

Lemma exposed_app l1 l2 : exposed (l1 ++ l2) = exposed l1 ++ exposed l2.
Proof. unfold exposed. apply omap_app. Qed.

Lemma shared_split (devices : list MigrateFromDevice) :
  (Name <$> filter (fun i => Shared i = true) devices)
    ++ (Name <$> filter (fun i => Shared i = false) devices)
  ≡ₚ Name <$> devices.
Proof.
  induction devices as [|input rest IH]; [done |].
  destruct (Shared input) eqn:Hs.
  - rewrite filter_cons_True by done. rewrite filter_cons_False by congruence.
    simpl. by rewrite IH.
  - rewrite filter_cons_False by congruence. rewrite filter_cons_True by done.
    rewrite !fmap_cons. rewrite <- Permutation_middle. by rewrite IH.
Qed.

(** X16. When [migrateFromFS] returns a group, the group holds one
    schema for every device that is not shared, in the order of the
    devices and as [createSiloDevSchema] makes it; the shared devices
    were exposed from their base before the group was made and the
    devices of the group after it, from the path silo gives them; so
    every device was exposed exactly once, and the shared ones are no
    part of the group. *)
Theorem migrateFromFS_exposes_every_device (fs : filesystem) (g : silo)
    (devices : list MigrateFromDevice) (group : list DeviceSchema) :
  (migrateFromFS fs g devices).2 = inr group ->
  let log := (migrateFromFS fs g devices).1 in
  Forall2 (fun input ds => createSiloDevSchema fs input = inr ds)
    (filter (fun i => Shared i = false) devices) group /\
  ds_Name <$> group = Name <$> filter (fun i => Shared i = false) devices /\
  log = ((fun i => Expose (Name i) (Base i))
           <$> filter (fun i => Shared i = true) devices)
        ++ NewFromSchema group
        :: ((fun ds => Expose (ds_Name ds) (device_path g (ds_Name ds))) <$> group) /\
  exposed log ≡ₚ Name <$> devices /\
  schemas fs devices = inr group.
Proof.
  unfold migrateFromFS.
  destruct (scan fs devices [] []) as [log1 [e|made]] eqn:Hscan; [done |].
  destruct (new_group g made); [| done].
  destruct (expose_all fs g made (log1 ++ [NewFromSchema made]))
    as [log2 [e|]] eqn:Hall; [done |].
  simpl. intros [= <-].
  apply scan_ok in Hscan as (made' & -> & Hmade & -> & Hexp). simpl in *.
  apply expose_all_ok in Hall as ->.
  assert (Hnames : ds_Name <$> made'
                   = Name <$> filter (fun i => Shared i = false) devices).
  { clear -Hmade. induction Hmade as [|i ds l k Hc _ IH]; [done |].
    rewrite !fmap_cons, IH. f_equal. by eapply createSiloDevSchema_name. }
  split; [done |]. split; [done |]. split; [by rewrite <- app_assoc |]. split.
  - rewrite !exposed_app. simpl.
    assert (forall l : list MigrateFromDevice,
              exposed ((fun i => Expose (Name i) (Base i)) <$> l) = Name <$> l) as ->.
    { induction l as [|x l IH]; [done |]. rewrite !fmap_cons. simpl.
      unfold exposed in *. simpl. by rewrite IH. }
    assert (forall l : list DeviceSchema,
              exposed ((fun ds => Expose (ds_Name ds) (device_path g (ds_Name ds))) <$> l)
              = ds_Name <$> l) as ->.
    { induction l as [|x l IH]; [done |]. rewrite !fmap_cons. simpl.
      unfold exposed in *. simpl. by rewrite IH. }
    rewrite Hnames, app_nil_r. apply shared_split.
  - clear -Hmade Hexp. revert made' Hmade.
    induction devices as [|input rest IH]; intros made' Hmade.
    + simpl in Hmade. by apply Forall2_nil_inv_l in Hmade as ->.
    + simpl. destruct (Shared input) eqn:Hs.
      * rewrite filter_cons_True in Hexp by done.
        apply Forall_cons in Hexp as [He Hexp]. rewrite He.
        rewrite filter_cons_False in Hmade by congruence. by apply IH.
      * rewrite filter_cons_False in Hexp by congruence.
        rewrite filter_cons_True in Hmade by done.
        apply Forall2_cons_inv_l in Hmade as (ds & made'' & Hc & Hmade & ->).
        rewrite Hc, (IH Hexp made'' Hmade). done.
Qed.

Lemma migrateFromFS_exposes_every_device_witness :
  let devices := [shared_oci; both_paths; only_overlay] in
  exists group,
    (migrateFromFS fs_ok silo_ok devices).2 = inr group /\
    let log := (migrateFromFS fs_ok silo_ok devices).1 in
    Forall2 (fun input ds => createSiloDevSchema fs_ok input = inr ds)
      (filter (fun i => Shared i = false) devices) group /\
    ds_Name <$> group = Name <$> filter (fun i => Shared i = false) devices /\
    log = ((fun i => Expose (Name i) (Base i))
             <$> filter (fun i => Shared i = true) devices)
          ++ NewFromSchema group
          :: ((fun ds => Expose (ds_Name ds) (device_path silo_ok (ds_Name ds)))
                <$> group) /\
    exposed log ≡ₚ Name <$> devices /\
    schemas fs_ok devices = inr group.
Proof.
  intros devices. eexists. split; [reflexivity |].
  apply (migrateFromFS_exposes_every_device fs_ok silo_ok devices). reflexivity.
Defined.

End FromFSFacts.

Module ReadinessFacts.
Import GoInt GoIntFacts Readiness.

Lemma occurrences_app o l1 l2 :
  occurrences o (l1 ++ l2) = occurrences o l1 + occurrences o l2.
Proof. unfold occurrences. rewrite filter_app, length_app. lia. Qed.

Lemma occurrences_bounds o l : 0 <= occurrences o l <= Z.of_nat (length l).
Proof. unfold occurrences. pose proof (length_filter (fun x => x = o) l). lia. Qed.

Lemma occurrences_replicate o o' n :
  occurrences o (replicate n o') = if decide (o' = o) then Z.of_nat n else 0.
Proof.
  unfold occurrences. induction n as [|n IH]; simpl; [by case_decide |].
  rewrite filter_cons. repeat case_decide; simpl in *; try done; lia.
Qed.

Lemma run_ops_snoc ops o : run_ops (ops ++ [o]) = apply_op (run_ops ops) o.
Proof. unfold run_ops. by rewrite foldl_app. Qed.

(** The counter is the number of devices received less the number of
    authorities received. *)
Lemma run_ops_counter ops :
  Z.of_nat (length ops) < 2 ^ 31 ->
  receivedButNotReadyRemoteDevices (run_ops ops)
  = occurrences Received ops - occurrences AuthorityReceived ops.
Proof.
  induction ops as [|o ops IH] using rev_ind; intros Hfit; [done |].
  rewrite length_app in Hfit. simpl in Hfit.
  rewrite run_ops_snoc, !occurrences_app.
  pose proof (occurrences_bounds Received ops).
  pose proof (occurrences_bounds AuthorityReceived ops).
  change (occurrences Received [Received]) with 1.
  change (occurrences Received [AuthorityReceived]) with 0.
  change (occurrences AuthorityReceived [Received]) with 0.
  change (occurrences AuthorityReceived [AuthorityReceived]) with 1.
  destruct o; simpl; rewrite IH by lia;
    change (occurrences Received [Received]) with 1;
    change (occurrences Received [AuthorityReceived]) with 0;
    change (occurrences AuthorityReceived [Received]) with 0;
    change (occurrences AuthorityReceived [AuthorityReceived]) with 1;
    rewrite wrap_int32_small; lia.
Qed.

(** X17. When the handler of the events calls all remote devices ready:
    exactly when some [TransferAuthority] finds that no more devices
    were received before it than authorities, itself included. So
    when every device is received before the first authority, it is
    with the authority of the last device and not before; and an
    authority that overtakes the [DevInfo] of another device gives
    the call too early. *)
Theorem ready_when_authorities_catch_up (ops : list op) :
  Z.of_nat (length ops) < 2 ^ 31 ->
  (allRemoteDevicesReady (run_ops ops) = true <->
   exists before after,
     ops = before ++ AuthorityReceived :: after /\
     occurrences Received before <= occurrences AuthorityReceived before + 1) /\
  (forall n k,
     ops = replicate n Received ++ replicate k AuthorityReceived -> (0 < k)%nat ->
     (allRemoteDevicesReady (run_ops ops) = true <-> (n <= k)%nat)).
Proof.
  intros Hfit.
  assert (Hiff : forall ops, Z.of_nat (length ops) < 2 ^ 31 ->
            allRemoteDevicesReady (run_ops ops) = true <->
            exists before after,
              ops = before ++ AuthorityReceived :: after /\
              occurrences Received before <= occurrences AuthorityReceived before + 1).
  { clear. induction ops as [|o ops IH] using rev_ind; intros Hfit.
    - split; [done |]. intros (b & a & Heq & _). by destruct b.
    - rewrite length_app in Hfit. simpl in Hfit. specialize (IH ltac:(lia)).
      rewrite run_ops_snoc.
      pose proof (run_ops_counter ops ltac:(lia)) as Hc.
      pose proof (occurrences_bounds Received ops).
      pose proof (occurrences_bounds AuthorityReceived ops).
      destruct o; simpl.
      + rewrite IH. split.
        * intros (b & a & -> & Hle). exists b, (a ++ [Received]).
          by rewrite <- app_assoc.
        * intros (b & a & Heq & Hle).
          destruct a as [|x a _] using rev_ind.
          -- by apply app_inj_tail in Heq as [_ ?].
          -- rewrite app_comm_cons, app_assoc in Heq.
             apply app_inj_tail in Heq as [-> _]. by exists b, a.
      + rewrite orb_true_iff, IH, Hc, Z.leb_le.
        rewrite wrap_int32_small by lia. split.
        * intros [(b & a & -> & Hle)|Hle].
          -- exists b, (a ++ [AuthorityReceived]). by rewrite <- app_assoc.
          -- exists ops, []. split; [done | lia].
        * intros (b & a & Heq & Hle).
          destruct a as [|x a _] using rev_ind.
          -- apply app_inj_tail in Heq as [-> _]. right. lia.
          -- rewrite app_comm_cons, app_assoc in Heq.
             apply app_inj_tail in Heq as [-> _]. left. by exists b, a. }
  split; [by apply Hiff |].
  intros n k -> Hk. rewrite Hiff by done. split.
  - intros (b & a & Heq & Hle).
    assert (Hb : exists j, b = replicate n Received ++ replicate j AuthorityReceived
                        /\ (j < k)%nat).
    { clear Hle Hfit Hiff. revert b a Heq. induction n as [|n IHn]; intros b a Heq.
      - simpl in Heq. clear Hk. revert b a Heq.
        induction k as [|k IHk]; intros b a Heq; [by destruct b |].
        destruct b as [|x b]; simpl in Heq.
        + exists 0%nat. split; [done | lia].
        + injection Heq as <- Heq. destruct (IHk b a Heq) as (j & -> & Hj).
          exists (S j). split; [done | lia].
      - destruct b as [|x b]; simpl in Heq; [done |].
        injection Heq as <- Heq. destruct (IHn b a Heq) as (j & -> & Hj).
        exists j. split; [done | lia]. }
    destruct Hb as (j & -> & Hj). revert Hle.
    rewrite !occurrences_app, !occurrences_replicate.
    repeat case_decide; try done; lia.
  - intros Hle. exists (replicate n Received ++ replicate (k - 1) AuthorityReceived), [].
    split.
    + rewrite <- app_assoc. f_equal.
      replace k with (S (k - 1)) at 1 by lia. rewrite replicate_S_end. done.
    + rewrite !occurrences_app, !occurrences_replicate.
      repeat case_decide; try done; lia.
Qed.

Lemma ready_when_authorities_catch_up_witness :
  let ops := [Received; AuthorityReceived; Received; AuthorityReceived] in
  (allRemoteDevicesReady (run_ops ops) = true <->
   exists before after,
     ops = before ++ AuthorityReceived :: after /\
     occurrences Received before <= occurrences AuthorityReceived before + 1) /\
  (forall n k,
     ops = replicate n Received ++ replicate k AuthorityReceived -> (0 < k)%nat ->
     (allRemoteDevicesReady (run_ops ops) = true <-> (n <= k)%nat)).
Proof. apply ready_when_authorities_catch_up. simpl. lia. Defined.

End ReadinessFacts.

Module AdmissionMore.
Import GoInt GoIntFacts GoString Admission AdmissionFacts.

Lemma lookup_base_first devices n :
  blank (lookup_base devices n) = false ->
  exists before device after,
    devices = before ++ device :: after /\ Name device = n /\
    (n ∉ Name <$> before) /\ lookup_base devices n = Base device.
Proof.
  induction devices as [|x rest IH]; simpl; [done |].
  destruct (String.eqb_spec n (Name x)) as [->|Hne].
  - intros _. exists [], x, rest. split; [done |]. split; [done |].
    split; [apply not_elem_of_nil | done].
  - intros Hb. destruct (IH Hb) as (b & d & a & -> & Hn & Hnot & Heq).
    exists (x :: b), d, a. split; [done |]. split; [done |].
    split; [| done]. simpl. apply not_elem_of_cons. split; [congruence | done].
Qed.

Lemma lookup_base_ext devices devices' n :
  (fun d => (Name d, Base d)) <$> devices' = (fun d => (Name d, Base d)) <$> devices ->
  lookup_base devices' n = lookup_base devices n.
Proof.
  revert devices'. induction devices as [|x rest IH]; intros [|y rest'] Heq;
    try done. simpl in *. injection Heq as Hn Hb Heq.
  rewrite Hn, Hb. case_match; [done |]. by apply IH.
Qed.

(** X18. A remote device is let in only under the name of a configured
    device whose base path is not blank, and the first of the name
    decides: the device is made as a file at that base with the size
    and the block size the [DevInfo] announces, and is recorded once,
    as remote, under the index of the protocol. Of the configured
    devices only the names and the base paths play a part: overlay,
    state and block size of a device that comes from the remote are
    never looked at. *)
Theorem admission_by_first_base (w : world) (hooks_set : bool)
    (devices : list MigrateFromDevice) (index : Z) (di : DevInfo) (p : peer) :
  let p' := (on_dev_info w hooks_set devices index di p).1 in
  let out := (on_dev_info w hooks_set devices index di p).2 in
  (out <> Panic ErrUnknownDeviceName ->
   exists before device after,
     devices = before ++ device :: after /\ Name device = di_Name di /\
     (di_Name di ∉ Name <$> before) /\ blank (Base device) = false /\
     receivedButNotReadyRemoteDevices p'
       = wrap_int32 (receivedButNotReadyRemoteDevices p + 1) /\
     forall local, out = Provider local ->
       local = {| name := di_Name di; blockSize := di_Block_size di;
                  id := index; remote := true |} /\
       stage2Inputs p' = stage2Inputs p ++ [local] /\
       created p'
         = created p ++ [ {| ds_Name := di_Name di; ds_System := "file";
                             ds_Location := Base device;
                             ds_Size := sprint_int (di_Size di);
                             ds_BlockSize := sprint_int (di_Block_size di);
                             ds_Expose := true |} ]) /\
  (forall devices',
     (fun d => (Name d, Base d)) <$> devices' = (fun d => (Name d, Base d)) <$> devices ->
     on_dev_info w hooks_set devices' index di p
     = on_dev_info w hooks_set devices index di p).
Proof.
  split.
  - intros Hout. unfold on_dev_info in *.
    destruct (blank (lookup_base devices (di_Name di))) eqn:Hb; [done |].
    destruct (lookup_base_first devices (di_Name di) Hb)
      as (b & d & a & Hd & Hn & Hnot & Heq).
    exists b, d, a. split; [done |]. split; [done |]. split; [done |].
    split; [by rewrite <- Heq |].
    rewrite Heq. repeat case_match; simpl; (split; [done |]);
      intros local Hl; by simplify_eq.
  - intros devices' Heq. unfold on_dev_info.
    by rewrite (lookup_base_ext devices devices' (di_Name di) Heq).
Qed.

End AdmissionMore.

Module DestinationFacts.
Import GoInt Readiness Destination.

Lemma filter_snoc_length (c c' : hook_call) (l : list hook_call) :
  length (filter (fun x => x = c) (l ++ [c'])) =
  (length (filter (fun x => x = c) l) + (if decide (c' = c) then 1 else 0))%nat.
Proof.
  rewrite filter_app, length_app. f_equal.
  destruct (decide (c' = c)) as [->|Hne].
  - by rewrite filter_cons_True, filter_nil.
  - by rewrite filter_cons_False, filter_nil.
Qed.

Lemma times_call (b : bool) (c c' : hook_call) (st : dest) :
  times c (call b c' st) =
  (times c st + (if b then if decide (c' = c) then 1 else 0 else 0))%nat.
Proof.
  unfold times, call; simpl. destruct b; [|lia].
  rewrite filter_app, length_app. f_equal.
  destruct (decide (c' = c)) as [->|Hne].
  - by rewrite filter_cons_True, filter_nil.
  - by rewrite filter_cons_False, filter_nil.
Qed.

Lemma dest_run_snoc (cs : custom_types) (h : hooks) (acts : list action) (a : action) :
  run cs h (acts ++ [a]) = act cs h (run cs h acts) a.
Proof. unfold run. by rewrite foldl_app. Qed.

Lemma all_devices_sent_events_snoc (cs : custom_types) (acts : list action)
    (a : action) :
  all_devices_sent_events cs (acts ++ [a]) =
  (all_devices_sent_events cs acts + (if is_all_devices_sent cs a then 1 else 0))%nat.
Proof.
  unfold all_devices_sent_events. rewrite filter_app, length_app. f_equal.
  destruct (is_all_devices_sent cs a) eqn:E.
  - by rewrite filter_cons_True, filter_nil.
  - rewrite filter_cons_False, filter_nil; [done|congruence].
Qed.

Lemma run_kept (cs : custom_types) (h : hooks) (acts : list action) :
  kept cs h acts.
Proof.
  induction acts as [|a acts IH] using rev_ind.
  { unfold kept; cbn. repeat split; try done; try lia. }
  unfold kept in *. rewrite dest_run_snoc, all_devices_sent_events_snoc.
  set (st := run cs h acts) in *.
  set (n := all_devices_sent_events cs acts) in *.
  destruct IH as (I1 & I2 & I3 & I4 & I5 & I6 & I7).
  assert (Hst : forall st', times OnRemoteAllDevicesReceived st' =
                  length (filter (fun x => x = OnRemoteAllDevicesReceived) (called st')))
    by done.
  assert (Hst' : forall st', times OnRemoteAllMigrationsCompleted st' =
                  length (filter (fun x => x = OnRemoteAllMigrationsCompleted) (called st')))
    by done.
  destruct (hasOnRemoteAllDevicesReceived h) eqn:H1,
           (hasOnRemoteAllMigrationsCompleted h) eqn:H2,
           (waited st) as [[|]|] eqn:Ew,
           (allRemoteDevicesReceived st) eqn:Er;
    destruct a as [index [customType| |]|[|]]; simpl;
    unfold on_event, Wait; rewrite ?Ew, ?Er; simpl;
    repeat case_match; rewrite ?times_call, ?H1, ?H2; simpl;
    repeat case_match; try done;
    rewrite ?Hst, ?Hst' in *; simpl; rewrite ?Ew, ?Er, ?filter_snoc_length;
    simpl; repeat case_match; try done;
    intuition (try congruence; try lia;
               try (by match goal with
                       | H : allRemoteDevicesReady _ = true |- _ => rewrite H
                       end)).
Qed.

Lemma wait_calls_hook_snoc (cs : custom_types) (acts : list action) (a : action) :
  wait_calls_hook cs (acts ++ [a]) =
  if untouched cs acts
  then match a with CallWait handled => handled | _ => false end
  else wait_calls_hook cs acts.
Proof.
  induction acts as [|b acts IH]; simpl.
  - destruct a as [index e|handled]; [|done]. by case_match.
  - destruct b as [index e|handled]; [|done].
    destruct (is_all_devices_sent cs (Event index e)); simpl; [done|]. apply IH.
Qed.

Lemma untouched_snoc (cs : custom_types) (acts : list action) (a : action) :
  untouched cs (acts ++ [a]) =
  untouched cs acts &&
  match a with CallWait _ => false | _ => negb (is_all_devices_sent cs a) end.
Proof. unfold untouched. rewrite forallb_app. simpl. by rewrite andb_true_r. Qed.

Lemma untouched_no_hook (cs : custom_types) (acts : list action) :
  untouched cs acts = true -> wait_calls_hook cs acts = false.
Proof.
  induction acts as [|[index e|handled] acts IH]; simpl; [done| |done].
  intros [Ha Hacts]%andb_true_iff.
  apply negb_true_iff in Ha. rewrite Ha. by apply IH.
Qed.

Lemma run_counted (cs : custom_types) (h : hooks) (acts : list action) :
  counted cs h acts.
Proof.
  induction acts as [|a acts IH] using rev_ind.
  { unfold counted; cbn. split; [done|]. intros _. done. }
  unfold counted in *.
  rewrite dest_run_snoc, all_devices_sent_events_snoc, wait_calls_hook_snoc,
    untouched_snoc.
  set (st := run cs h acts) in *.
  set (n := all_devices_sent_events cs acts) in *.
  destruct IH as (K1 & K2).
  assert (Hst : forall st', times OnRemoteAllDevicesReceived st' =
                  length (filter (fun x => x = OnRemoteAllDevicesReceived) (called st')))
    by done.
  pose proof (untouched_no_hook cs acts) as Hno.
  destruct (untouched cs acts) eqn:Hu; [rewrite (Hno eq_refl) in * |];
  destruct
           (hasOnRemoteAllDevicesReceived h) eqn:H1,
           (waited st) as [[|]|] eqn:Ew,
           (allRemoteDevicesReceived st) eqn:Er; try done;
    destruct a as [index [customType| |]|[|]]; simpl;
    unfold on_event, Wait; rewrite ?Ew, ?Er; simpl;
    repeat case_match; rewrite ?times_call, ?H1; simpl;
    repeat case_match; try done;
    rewrite ?Hst in *; simpl; rewrite ?Ew, ?Er, ?filter_snoc_length;
    simpl; repeat case_match; try done;
    intuition (try congruence; try lia).
Qed.

Lemma events_not_waited (cs : custom_types) (h : hooks) (evs : list action) :
  Forall (fun a => exists index e, a = Event index e) evs ->
  waited (run cs h evs) = None.
Proof.
  induction evs as [|a evs IH] using rev_ind; [done|].
  intros [Hevs Ha%Forall_inv]%Forall_app. rewrite dest_run_snoc.
  destruct Ha as (index & e & ->). simpl.
  specialize (IH Hevs). unfold on_event.
  repeat case_match; simpl; done.
Qed.

Lemma events_then_wait (cs : custom_types) (h : hooks) (evs : list action) :
  Forall (fun a => exists index e, a = Event index e) evs ->
  let st := run cs h (evs ++ [CallWait true]) in
  waited st = Some true /\
  (hasOnRemoteAllDevicesReceived h = true ->
     times OnRemoteAllDevicesReceived st =
     Nat.max 1 (all_devices_sent_events cs (evs ++ [CallWait true]))) /\
  (hasOnRemoteAllMigrationsCompleted h = true ->
     last (called st) = Some OnRemoteAllMigrationsCompleted).
Proof.
  intros Hevs.
  pose proof (events_not_waited cs h evs Hevs) as Hn.
  destruct (run_kept cs h evs) as (J1 & J2 & J3 & J4 & _).
  rewrite dest_run_snoc, all_devices_sent_events_snoc. simpl.
  rewrite Nat.add_0_r. unfold Wait. rewrite Hn. simpl.
  set (st := run cs h evs) in *.
  set (n := all_devices_sent_events cs evs) in *.
  assert (Hk : hasOnRemoteAllDevicesReceived h = true ->
               times OnRemoteAllDevicesReceived st = n).
  { intros H. destruct (J1 H) as (_ & _ & Jc). apply Jc. by rewrite Hn. }
  unfold times in *.
  destruct (hasOnRemoteAllDevicesReceived h) eqn:H1,
           (hasOnRemoteAllMigrationsCompleted h) eqn:H2,
           (allRemoteDevicesReceived st) eqn:Er; simpl;
    rewrite ?filter_snoc_length; simpl; repeat case_match; try done;
    rewrite ?last_snoc; repeat split; try done; intros _.
  all: try (specialize (J4 Hn eq_refl); rewrite (Hk eq_refl); lia).
  all: assert (n = 0%nat) as Hz
         by (destruct n; [done|]; assert (false = true) by (apply J3; lia); done).
  all: rewrite (Hk eq_refl), Hz; done.
Qed.

(** X20. At the destination of a migration, over any order of the
    events and of the calls of [Wait]: the hook
    [OnRemoteAllDevicesReceived], when it is set, is called once for
    every [AllDevicesSent] event that arrives, and once more exactly when
    the first call of [Wait] ends well before any such event has
    arrived: [n + 1] times then and [n] times otherwise, for [n]
    announcements; so at least once when [Wait] has returned nil.  When
    [Wait] has returned nil both contexts are done, and
    [OnRemoteAllMigrationsCompleted] was called exactly once; before
    that, and when [Wait] returned an error, it was not called at all.
    When the events all arrive before a [Wait] whose protocol ends well,
    the first hook was called [max 1 n] times and the second is the last
    call. *)
Theorem all_devices_received_hook_calls (cs : custom_types) (h : hooks)
    (acts : list action) :
  let st := run cs h acts in
  let n := all_devices_sent_events cs acts in
  let k := times OnRemoteAllDevicesReceived st in
  (hasOnRemoteAllDevicesReceived h = true ->
     k = (n + (if wait_calls_hook cs acts then 1 else 0))%nat /\
     (n <= k <= n + 1)%nat /\
     (waited st = Some true -> (1 <= k)%nat) /\
     (waited st <> Some true -> k = n)) /\
  (hasOnRemoteAllDevicesReceived h = false -> k = 0%nat) /\
  (waited st = Some true ->
     allRemoteDevicesReceived st = true /\
     allRemoteDevicesReady (ready st) = true) /\
  (hasOnRemoteAllMigrationsCompleted h = true ->
     times OnRemoteAllMigrationsCompleted st =
     match waited st with Some true => 1%nat | _ => 0%nat end) /\
  (forall evs,
     Forall (fun a => exists index e, a = Event index e) evs ->
     acts = evs ++ [CallWait true] ->
     waited st = Some true /\
     (hasOnRemoteAllDevicesReceived h = true -> k = Nat.max 1 n) /\
     (hasOnRemoteAllMigrationsCompleted h = true ->
        last (called st) = Some OnRemoteAllMigrationsCompleted)).
Proof.
  intros st n k.
  destruct (run_kept cs h acts) as (I1 & I2 & I3 & I4 & I5 & I6 & I7).
  destruct (run_counted cs h acts) as (_ & K2).
  fold st n k in I1, I2, I3, I4, I5, I6, I7, K2.
  split; [|split; [done|split; [done|split; [done|]]]].
  { intros H. destruct (I1 H) as (? & I1b & ?).
    split; [by apply K2|]. repeat split; try done; try lia.
    intros Hw. apply I1b. by apply I5. }
  intros evs Hevs ->. by apply events_then_wait.
Qed.

(** The hook is called three times for two announcements when [Wait] is
    called, and ends well, before they arrive. *)
Lemma wait_then_two_announcements (cs : custom_types) (i j : Z) :
  let sent := Event i (EventCustom (EventCustomAllDevicesSent cs)) in
  let sent' := Event j (EventCustom (EventCustomAllDevicesSent cs)) in
  times OnRemoteAllDevicesReceived (run cs all_hooks [CallWait true; sent; sent'])
  = 3%nat.
Proof.
  intros sent sent'.
  destruct (run_counted cs all_hooks [CallWait true; sent; sent']) as [_ K].
  rewrite K by done.
  unfold all_devices_sent_events, sent, sent'. simpl.
  rewrite filter_cons_False by done.
  rewrite !filter_cons_True by (simpl; apply Z.eqb_refl). done.
Qed.

End DestinationFacts.
